(** * IPTV player: content normalisation, deduplication and EPG lookups

    A shallow embedding of the TypeScript sources

    - [src/utils/contentParser.ts]  (metadata extraction, content keys,
      listing helpers, quality selection),
    - [src/utils/deduplicator.ts]   (grouping, variant selection, filtering
      and counting by preferences),
    - [src/parsers/m3uParser.ts]    (M3U playlist parsing, validation and
      merging),
    - [src/parsers/xtreamApi.ts]    (requests and decoding of EPG listings,
      records of live streams),
    - the [useEPG] hook             (current and next programme, cache of
      fetched guides),

    followed by the properties of the specification that concern them and
    by further properties of the code.

    JavaScript strings are sequences of UTF-16 code units; they are modelled
    as [list N].  Regular expressions are modelled by a small backtracking
    matcher that follows the ECMAScript matching rules for the constructs the
    sources use.  Numbers are doubles: the model keeps [NaN], the infinities
    and the doubles of integral value, with the rounding of [parseInt] and
    the notation of [String] written out. *)

From Stdlib Require Import ZArith NArith Lia Bool.
From Stdlib Require Import Numbers.DecimalString Strings.Ascii.
From Stdlib Require Numbers.DecimalPos Numbers.DecimalZ.
From stdpp Require Import base option list sorting strings gmap.

Local Open Scope N_scope.

(** ** JavaScript strings *)

Abbreviation jsstring := (list N).

(** A literal of the source, read as its code units (ASCII only). *)
Definition js (s : string) : jsstring :=
  map Ascii.N_of_ascii (String.list_ascii_of_string s).

Module JS.

Definition between (lo hi c : N) : bool := (lo <=? c) && (c <=? hi).

Definition isDigit (c : N) : bool := between 48 57 c.
Definition isUpper (c : N) : bool := between 65 90 c.
Definition isLower (c : N) : bool := between 97 122 c.

(** [\w] of a non-unicode regular expression. *)
Definition isWordChar (c : N) : bool :=
  isUpper c || isLower c || isDigit c || (c =? 95).

(** WhiteSpace and LineTerminator code points: what [\s] matches and what
    [String.prototype.trim] removes. *)
Definition isSpace (c : N) : bool :=
  between 9 13 c || (c =? 32) || (c =? 160) || (c =? 5760)
  || between 8192 8202 c || (c =? 8232) || (c =? 8233) || (c =? 8239)
  || (c =? 8287) || (c =? 12288) || (c =? 65279).

Definition isLineTerminator (c : N) : bool :=
  (c =? 10) || (c =? 13) || (c =? 8232) || (c =? 8233).

(** Upper-casing of one code unit, on the ASCII range. *)
Definition upperAscii (c : N) : N := if isLower c then c - 32 else c.
Definition lowerAscii (c : N) : N := if isUpper c then c + 32 else c.
Definition swapCase (c : N) : N :=
  if isLower c then c - 32 else if isUpper c then c + 32 else c.

Fixpoint eqb (a b : jsstring) : bool :=
  match a, b with
  | [], [] => true
  | x :: a', y :: b' => (x =? y) && eqb a' b'
  | _, _ => false
  end.

Fixpoint startsWith (s p : jsstring) : bool :=
  match p, s with
  | [], _ => true
  | c :: p', d :: s' => (c =? d) && startsWith s' p'
  | _ :: _, [] => false
  end.

Definition endsWith (s p : jsstring) : bool :=
  startsWith (rev s) (rev p).

Fixpoint includes (s p : jsstring) : bool :=
  startsWith s p ||
  match s with
  | [] => false
  | _ :: s' => includes s' p
  end.

Fixpoint lastIndexOf_from (i : nat) (c : N) (s : jsstring)
    (found : option nat) : option nat :=
  match s with
  | [] => found
  | d :: s' =>
      lastIndexOf_from (S i) c s' (if c =? d then Some i else found)
  end.

(** [s.lastIndexOf(c)] for a one-character needle; [None] stands for -1. *)
Definition lastIndexOf (s : jsstring) (c : N) : option nat :=
  lastIndexOf_from 0 c s None.

Fixpoint trimStart (s : jsstring) : jsstring :=
  match s with
  | c :: s' => if isSpace c then trimStart s' else s
  | [] => []
  end.

Definition trimEnd (s : jsstring) : jsstring := rev (trimStart (rev s)).

Definition trim (s : jsstring) : jsstring := trimEnd (trimStart s).

(** [s.replace(p, r)] with a string pattern: the first occurrence only. *)
Fixpoint replaceFirst (s p r : jsstring) : jsstring :=
  if startsWith s p then r ++ drop (length p) s
  else match s with
       | [] => []
       | c :: s' => c :: replaceFirst s' p r
       end.

(** The numbers of the sources are IEEE 754 doubles.  The code modelled here
    only meets [NaN], the two infinities and doubles whose value is an
    integer; negative zero is not told from zero, as none of the operations
    used here tells them apart.  [Int z] is the double of value [z]; the two
    infinities are [Int infinity] and [Int (- infinity)], where [infinity] is
    the power [2^1024] that rounding overflows to, so that the order of the
    integers is the order of the doubles. *)
Inductive number := NaN | Int (z : Z).

Definition truthyNumber (n : number) : bool :=
  match n with
  | NaN => false
  | Int z => negb (z =? 0)%Z
  end.

Definition infinity : Z := (2 ^ 1024)%Z.

(** The double nearest to an integer, ties to the even significand: below
    [2^53] every integer is a double; above, 53 bits are kept, and what
    rounds up to [2^1024] is infinite. *)
Definition toDouble (z : Z) : Z :=
  let a := Z.abs z in
  if (a <? 9007199254740992)%Z then z
  else
    let e := (Z.log2 a - 52)%Z in
    let q := (a / 2 ^ e)%Z in
    let r := (a mod 2 ^ e)%Z in
    let half := (2 ^ (e - 1))%Z in
    let q := if (r <? half)%Z || ((r =? half)%Z && Z.even q)
             then q else (q + 1)%Z in
    (Z.sgn z * Z.min (q * 2 ^ e) infinity)%Z.

(** The integers that are the value of a double, and the two infinities. *)
Definition isDouble (z : Z) : bool := (toDouble z =? z)%Z.

Definition digitValue (c : N) : Z := Z.of_N (c - 48).

Fixpoint parseDigits (acc : Z) (s : jsstring) : Z :=
  match s with
  | c :: s' =>
      if isDigit c then parseDigits (10 * acc + digitValue c)%Z s' else acc
  | [] => acc
  end.

Definition hasLeadingDigit (s : jsstring) : bool :=
  match s with
  | c :: _ => isDigit c
  | [] => false
  end.

(** [parseInt(s, 10)]: leading white space, an optional sign, then the
    longest run of decimal digits; [NaN] when that run is empty, and
    otherwise the double nearest to the integer that the run denotes (the
    standard lets an engine ignore the digits after the twentieth; like the
    usual engines, the model reads them all). *)
Definition parseInt (s : jsstring) : number :=
  match trimStart s with
  | c :: t =>
      if c =? 45 then
        if hasLeadingDigit t then Int (toDouble (- parseDigits 0 t)) else NaN
      else if c =? 43 then
        if hasLeadingDigit t then Int (toDouble (parseDigits 0 t)) else NaN
      else if isDigit c then Int (toDouble (parseDigits 0 (c :: t)))
      else NaN
  | [] => NaN
  end.

Definition hexadecimalValue (c : N) : option Z :=
  if isDigit c then Some (Z.of_N (c - 48))
  else if between 97 102 c then Some (Z.of_N (c - 87))
  else if between 65 70 c then Some (Z.of_N (c - 55))
  else None.

Fixpoint parseHexadecimal (acc : Z) (s : jsstring) : Z :=
  match s with
  | c :: s' =>
      match hexadecimalValue c with
      | Some v => parseHexadecimal (16 * acc + v)%Z s'
      | None => acc
      end
  | [] => acc
  end.

(** [parseInt(s)] without a radix: as [parseInt(s, 10)], except that [0x]
    or [0X] after the sign announces hexadecimal digits. *)
Definition parseIntAuto (s : jsstring) : number :=
  let s := trimStart s in
  let negative := match s with c :: _ => c =? 45 | [] => false end in
  let s :=
    match s with
    | c :: t => if (c =? 45) || (c =? 43) then t else s
    | [] => []
    end in
  let signed (z : Z) := if negative then (- z)%Z else z in
  match s with
  | 48 :: x :: t =>
      if (x =? 120) || (x =? 88) then
        match t with
        | h :: _ =>
            match hexadecimalValue h with
            | Some _ => Int (toDouble (signed (parseHexadecimal 0 t)))
            | None => NaN
            end
        | [] => NaN
        end
      else Int (toDouble (signed (parseDigits 0 s)))
  | _ =>
      if hasLeadingDigit s then Int (toDouble (signed (parseDigits 0 s)))
      else NaN
  end.

(** [a * k] for an integer constant [k] *)
Definition times (a : number) (k : Z) : number :=
  match a with
  | NaN => NaN
  | Int z => Int (toDouble (z * k))
  end.

(** The decimal numeral of an integer *)
Definition decimal (z : Z) : jsstring :=
  js (NilZero.string_of_int (Z.to_int z)).

(** The integer with the fewest significant digits that rounds to the double
    [x], and the nearest to [x] among those: the multiples of [10^p] on
    either side of [x] are tried for [p] going down. *)
Fixpoint shortest (p : nat) (x : Z) : Z :=
  let u := (10 ^ Z.of_nat p)%Z in
  let lo := (x / u * u)%Z in
  let hi := (lo + u)%Z in
  let ok v := (0 <? v)%Z && (toDouble v =? x)%Z in
  if ok lo && ok hi then
    if (x - lo <? hi - x)%Z then lo
    else if (hi - x <? x - lo)%Z then hi
    else if Z.even (lo / u) then lo else hi
  else if ok lo then lo
  else if ok hi then hi
  else match p with
       | O => x
       | S p' => shortest p' x
       end.

Fixpoint dropZeros (s : jsstring) : jsstring :=
  match s with
  | c :: s' => if c =? 48 then dropZeros s' else s
  | [] => []
  end.

(** The exponent notation of an integer: its significant digits, a point
    after the first one when there are more, and the power of ten. *)
Definition exponential (v : Z) : jsstring :=
  let ds := decimal v in
  match rev (dropZeros (rev ds)) with
  | [] => []
  | [d] => [d]
  | d :: fraction => d :: 46 :: fraction
  end ++ js "e+" ++ decimal (Z.of_nat (length ds) - 1).

(** [String(n)]: the numeral of an integer below [2^53]; for a greater
    double the shortest numeral that reads back as that double, written out
    with zeros below [10^21] and in exponent notation from there on. *)
Definition numberToString (n : number) : jsstring :=
  match n with
  | NaN => js "NaN"
  | Int z =>
      let a := Z.abs z in
      if (a <? 9007199254740992)%Z then decimal z
      else
        (if (z <? 0)%Z then js "-" else []) ++
        (if (infinity <=? a)%Z then js "Infinity"
         else
           let v := shortest (length (decimal a)) a in
           if (v <? 10 ^ 21)%Z then decimal v else exponential v)
  end.

(** [a < b] on strings: code unit by code unit, a proper prefix first. *)
Fixpoint ltb (a b : jsstring) : bool :=
  match a, b with
  | _, [] => false
  | [], _ :: _ => true
  | x :: a', y :: b' => (x <? y) || ((x =? y) && ltb a' b')
  end.

(** *** Exceptions

    A call either returns a value or throws.  The only exception that the
    code modelled here can raise by itself is the [TypeError] of a method
    called on [undefined]. *)
Inductive exception := TypeError.

Inductive outcome (A : Type) :=
  | Returned (a : A)
  | Threw (e : exception).
Arguments Returned {A} a.
Arguments Threw {A} e.

#[global] Instance outcome_ret : MRet outcome := @Returned.

#[global] Instance outcome_bind : MBind outcome := fun A B f x =>
  match x with
  | Returned a => f a
  | Threw e => Threw e
  end.

(** [receiver.method()] for a receiver that may be [undefined] *)
Definition method {A} (receiver : option jsstring) (f : jsstring -> A)
    : outcome A :=
  match receiver with
  | Some s => Returned (f s)
  | None => Threw TypeError
  end.

End JS.

(** ** Regular expressions *)

Module Regex.

Inductive regex :=
| Empty
| Char (c : N)
| CharSet (negated : bool) (ranges : list (N * N))
| Any
| Digit
| Space
| Seq (r1 r2 : regex)
| Alt (r1 r2 : regex)
| Repeat (min : nat) (max : option nat) (r : regex)
| Group (n : nat) (r : regex)
| InputStart
| InputEnd
| WordBoundary
| NotFollowedBy (r : regex).

(** A position of the matcher in the input: its index, the character that
    precedes it, what remains to be read, and the texts captured so far. *)
Record mstate := MState {
  pos : nat;
  prev : option N;
  rest : jsstring;
  caps : list (nat * jsstring);
}.

Definition advance (c : N) (tl : jsstring) (x : mstate) : mstate :=
  MState (S (pos x)) (Some c) tl (caps x).

Definition getCap (n : nat) (cs : list (nat * jsstring)) : option jsstring :=
  snd <$> find (fun e => Nat.eqb (fst e) n) cs.

Definition setCap (n : nat) (w : jsstring) (x : mstate) : mstate :=
  MState (pos x) (prev x) (rest x)
         ((n, w) :: filter (fun e => fst e ≠ n) (caps x)).

Fixpoint groupsOf (r : regex) : list nat :=
  match r with
  | Seq a b | Alt a b => groupsOf a ++ groupsOf b
  | Repeat _ _ a | NotFollowedBy a => groupsOf a
  | Group n a => n :: groupsOf a
  | _ => []
  end.

Definition clearCaps (gs : list nat) (x : mstate) : mstate :=
  MState (pos x) (prev x) (rest x)
         (filter (fun e => fst e ∉ gs) (caps x)).

Definition inRanges (rs : list (N * N)) (c : N) : bool :=
  existsb (fun r => JS.between (fst r) (snd r) c) rs.

Definition isWord (c : option N) : bool :=
  match c with
  | Some c => JS.isWordChar c
  | None => false
  end.

Definition maxReached (mx : option nat) : bool :=
  match mx with
  | Some O => true
  | _ => false
  end.

Section Matcher.

(** The [i] flag.  All patterns of the sources are ASCII, so
    canonicalisation only identifies the two cases of an ASCII letter. *)
Variable ignoreCase : bool.

Definition canon (c : N) : N :=
  if ignoreCase then JS.upperAscii c else c.

Definition classMatches (negated : bool) (rs : list (N * N)) (c : N) : bool :=
  xorb negated
       (inRanges rs c || (ignoreCase && inRanges rs (JS.swapCase c))).

Definition single (p : N -> bool) (k : mstate -> option mstate)
    (x : mstate) : option mstate :=
  match rest x with
  | c :: tl => if p c then k (advance c tl x) else None
  | [] => None
  end.

(** RepeatMatcher of the language specification, greedy: an iteration
    that consumes nothing once the minimum is reached is rejected. *)
Fixpoint repeatLoop (m : (mstate -> option mstate) -> mstate -> option mstate)
    (gs : list nat) (k : mstate -> option mstate)
    (fuel min : nat) (max : option nat) (x : mstate) : option mstate :=
  match fuel with
  | O => None
  | S fuel' =>
      if maxReached max then k x
      else
        let d := fun y =>
          if Nat.eqb min 0 && Nat.eqb (pos y) (pos x) then None
          else repeatLoop m gs k fuel' (Nat.pred min) (Nat.pred <$> max) y in
        if Nat.eqb min 0 then
          match m d (clearCaps gs x) with
          | Some z => Some z
          | None => k x
          end
        else m d (clearCaps gs x)
  end.

Fixpoint run (r : regex) (k : mstate -> option mstate) (x : mstate)
    : option mstate :=
  match r with
  | Empty => k x
  | Char c => single (fun d => canon c =? canon d) k x
  | CharSet negated rs => single (classMatches negated rs) k x
  | Any => single (fun d => negb (JS.isLineTerminator d)) k x
  | Digit => single JS.isDigit k x
  | Space => single JS.isSpace k x
  | Seq r1 r2 => run r1 (run r2 k) x
  | Alt r1 r2 =>
      match run r1 k x with
      | Some y => Some y
      | None => run r2 k x
      end
  | Repeat mn mx r1 =>
      repeatLoop (run r1) (groupsOf r1) k
                 (S (mn + length (rest x))) mn mx x
  | Group n r1 =>
      run r1 (fun y => k (setCap n (take (pos y - pos x) (rest x)) y)) x
  | InputStart => if Nat.eqb (pos x) 0 then k x else None
  | InputEnd =>
      match rest x with
      | [] => k x
      | _ :: _ => None
      end
  | WordBoundary =>
      if xorb (isWord (prev x)) (isWord (head (rest x))) then k x else None
  | NotFollowedBy r1 =>
      match run r1 Some x with
      | Some _ => None
      | None => k x
      end
  end.

(** The result of a successful match: where it starts, the matched text
    ([m[0]]) and the captures ([m[i]]). *)
Record result := Result {
  index : nat;
  matched : jsstring;
  groups : list (nat * jsstring);
}.

Definition matchAt (r : regex) (i : nat) (p : option N) (s : jsstring)
    : option result :=
  match run r Some (MState i p s []) with
  | Some y => Some (Result i (take (pos y - i) s) (caps y))
  | None => None
  end.

Fixpoint search (r : regex) (i : nat) (p : option N) (s : jsstring)
    : option result :=
  match matchAt r i p s with
  | Some m => Some m
  | None =>
      match s with
      | [] => None
      | c :: s' => search r (S i) (Some c) s'
      end
  end.

(** [s.match(r)] for a regular expression without the [g] flag. *)
Definition exec (r : regex) (s : jsstring) : option result :=
  search r 0 None s.

(** [r.test(s)] *)
Definition test (r : regex) (s : jsstring) : bool :=
  bool_decide (is_Some (exec r s)).

Definition capture (n : nat) (m : result) : option jsstring :=
  getCap n (groups m).

(** [s.replace(r, by)] without the [g] flag: the first match only. *)
Definition replace (r : regex) (by_ : jsstring) (s : jsstring) : jsstring :=
  match exec r s with
  | Some m =>
      take (index m) s ++ by_ ++ drop (index m + length (matched m)) s
  | None => s
  end.

(** [s.replace(r, by)] with the [g] flag: every match, left to right; after
    an empty match the scan moves one character on. *)
Fixpoint replaceAllFrom (fuel : nat) (r : regex) (by_ : jsstring)
    (i : nat) (p : option N) (s : jsstring) : jsstring :=
  match fuel with
  | O => s
  | S fuel' =>
      match matchAt r i p s with
      | Some m =>
          match length (matched m) with
          | O =>
              match s with
              | [] => by_
              | c :: s' =>
                  by_ ++ c :: replaceAllFrom fuel' r by_ (S i) (Some c) s'
              end
          | S n =>
              by_ ++ replaceAllFrom fuel' r by_ (i + S n)
                       (last (matched m)) (drop (S n) s)
          end
      | None =>
          match s with
          | [] => []
          | c :: s' => c :: replaceAllFrom fuel' r by_ (S i) (Some c) s'
          end
      end
  end.

Definition replaceAll (r : regex) (by_ : jsstring) (s : jsstring) : jsstring :=
  replaceAllFrom (S (length s)) r by_ 0 None s.

End Matcher.

(** Pattern builders *)

Definition lit (s : string) : regex :=
  foldr (fun c r => Seq (Char c) r) Empty (js s).

Fixpoint alts (rs : list regex) : regex :=
  match rs with
  | [] => Empty
  | [r] => r
  | r :: rs' => Alt r (alts rs')
  end.

Definition star (r : regex) : regex := Repeat 0 None r.
Definition plus (r : regex) : regex := Repeat 1 None r.
Definition opt (r : regex) : regex := Repeat 0 (Some 1%nat) r.

Fixpoint seqs (rs : list regex) : regex :=
  match rs with
  | [] => Empty
  | [r] => r
  | r :: rs' => Seq r (seqs rs')
  end.

End Regex.


(** ** Types ([src/types/preferences.types.ts], [src/types/channel.types.ts]) *)

Definition code (a : Ascii.ascii) : N := Ascii.N_of_ascii a.
Arguments code a%_char.

Inductive Quality := Q4K | FHD | HD | SD | QAuto.

Inductive StreamType := Live | Vod | Series.

Inductive ContentType := TChannel | TMovie | TSeries.

#[global] Instance Quality_eq_dec : EqDecision Quality.
Proof. solve_decision. Defined.

#[global] Instance StreamType_eq_dec : EqDecision StreamType.
Proof. solve_decision. Defined.

#[global] Instance ContentType_eq_dec : EqDecision ContentType.
Proof. solve_decision. Defined.

Record ContentMetadata := {
  cleanName : jsstring;
  country : option jsstring;
  language : option jsstring;
  quality : option Quality;
  year : option JS.number;
  season : option JS.number;
  episode : option JS.number;
}.

Record ContentVariant := {
  v_id : jsstring;
  v_url : jsstring;
  v_quality : option Quality;
  v_language : option jsstring;
}.

Record DeduplicatedContent := {
  d_id : jsstring;
  d_name : jsstring;
  d_logo : option jsstring;
  d_group : option jsstring;
  d_type : ContentType;
  d_metadata : ContentMetadata;
  variants : list ContentVariant;
}.

(** The fields of a [Channel] that the modelled code reads or writes; the
    enrichment fields (plot, cast, TMDB data, ...) are never touched by it. *)
Record Channel := {
  id : jsstring;
  name : jsstring;
  url : jsstring;
  logo : option jsstring;
  group : option jsstring;
  tvgId : option jsstring;
  tvgName : option jsstring;
  epgUrl : option jsstring;
  catchup : option jsstring;
  catchupDays : option JS.number;
  catchupSource : option jsstring;
  userAgent : option jsstring;
  referrer : option jsstring;
  isLive : option bool;
  streamType : option StreamType;
}.

Record ChannelPreferences := {
  countries : list jsstring;
  categories : list jsstring;
  defaultQuality : Quality;
}.

Inductive SubtitleLanguage := SubtitleFR | SubtitleEN | SubtitleNone.

(** [MoviePreferences] and [SeriesPreferences], two interfaces with the same
    fields. *)
Record LanguagePreferences := {
  preferredLanguage : jsstring;
  subtitleLanguage : SubtitleLanguage;
  languageCategories : list jsstring;
}.

Record UserPreferences := {
  onboardingCompleted : bool;
  channels : ChannelPreferences;
  movies : LanguagePreferences;
  series : LanguagePreferences;
}.

(** The keys of the [COUNTRIES] table, in source order.  Its values are
    objects, so [COUNTRIES[k]] is truthy exactly for these keys. *)
Definition COUNTRIES : list jsstring :=
  map js ["FR"; "BE"; "CH"; "CA"; "US"; "UK"; "ES"; "IT"; "DE"; "PT"; "AR";
          "TR"; "NL"; "PL"; "RO"; "RU"; "IN"; "BR"; "MX"; "JP"; "KR"; "CN"]%string.

(** What the sources take from the host: [String.prototype.toLowerCase]
    (full Unicode lower-casing) is left abstract. *)
Class Host := {
  toLowerCase : jsstring -> jsstring;
}.

(** ** [src/utils/contentParser.ts] *)

Module ContentParser.
Import Regex.

(** [(A|B|...)] *)
Definition oneOf (ws : list string) : regex := Group 1 (alts (map lit ws)).

(** [\br\b] *)
Definition bounded (r : regex) : regex := Seq WordBoundary (Seq r WordBoundary).

(** The three pattern tables; every pattern carries the [i] flag. *)
Definition COUNTRY_PATTERNS : list (jsstring * regex) :=
  map (fun e => (js (fst e), bounded (oneOf (snd e))))
  [ ("FR", ["FR"; "FRANCE"; "FRENCH"]);
    ("BE", ["BE"; "BELGIUM"; "BELGE"]);
    ("CH", ["CH"; "SUISSE"; "SWISS"]);
    ("CA", ["CA"; "CANADA"; "CANADIAN"]);
    ("US", ["US"; "USA"; "AMERICAN"; "ENGLISH"]);
    ("UK", ["UK"; "GB"; "BRITISH"]);
    ("ES", ["ES"; "SPAIN"; "SPANISH"; "ESPANA"]);
    ("IT", ["IT"; "ITALY"; "ITALIAN"; "ITALIA"]);
    ("DE", ["DE"; "GERMANY"; "GERMAN"; "DEUTSCH"]);
    ("PT", ["PT"; "PORTUGAL"; "PORTUGUESE"]);
    ("AR", ["AR"; "ARAB"; "ARABIC"; "ARABE"]);
    ("TR", ["TR"; "TURKEY"; "TURKISH"; "TURK"]);
    ("NL", ["NL"; "NETHERLANDS"; "DUTCH"]);
    ("PL", ["PL"; "POLAND"; "POLISH"]);
    ("RO", ["RO"; "ROMANIA"; "ROMANIAN"]);
    ("RU", ["RU"; "RUSSIA"; "RUSSIAN"]);
    ("IN", ["IN"; "INDIA"; "INDIAN"; "HINDI"]);
    ("BR", ["BR"; "BRAZIL"; "BRAZILIAN"]);
    ("MX", ["MX"; "MEXICO"; "MEXICAN"]);
    ("JP", ["JP"; "JAPAN"; "JAPANESE"]);
    ("KR", ["KR"; "KOREA"; "KOREAN"]);
    ("CN", ["CN"; "CHINA"; "CHINESE"]) ]%string.

Definition QUALITY_PATTERNS : list (Quality * regex) :=
  [ (Q4K, bounded (oneOf ["4K"; "UHD"; "2160p"]));
    (FHD, bounded (oneOf ["FHD"; "1080p"; "FULLHD"; "FULL HD"]));
    (HD, Seq (bounded (oneOf ["HD"; "720p"]))
             (NotFollowedBy (Seq (star Space) InputEnd)));
    (SD, bounded (oneOf ["SD"; "480p"; "LQ"])) ]%string.

Definition LANGUAGE_PATTERNS : list (jsstring * regex) :=
  [ (js "MULTI", bounded (oneOf ["MULTI"; "MULTi"]));
    (js "VFF", bounded (oneOf ["VFF"; "FRENCH"]));
    (js "VF", bounded (lit "VF"));
    (js "TRUEFRENCH", bounded (oneOf ["TRUEFRENCH"; "TRUE FRENCH"]));
    (js "VOSTFR", bounded (oneOf ["VOSTFR"; "STFR"]));
    (js "VO", bounded (lit "VO")) ]%string.

Definition digits (mn mx : nat) : regex := Repeat mn (Some mx) Digit.

(** [/\(?(19|20)\d{2}\)?/] *)
Definition YEAR_PATTERN : regex :=
  seqs [ opt (Char (code "("));
         Group 1 (Alt (lit "19") (lit "20"));
         digits 2 2;
         opt (Char (code ")")) ].

(** [/S(\d{1,2})(?:E(\d{1,2}))?/i] *)
Definition SEASON_EPISODE_PATTERN : regex :=
  seqs [ Char (code "S");
         Group 1 (digits 1 2);
         opt (Seq (Char (code "E")) (Group 2 (digits 1 2))) ].

(** [/\bS(?:AISON|EASON)?\s*(\d{1,2})\b/i] *)
Definition SEASON_PATTERN : regex :=
  seqs [ WordBoundary;
         Char (code "S");
         opt (Alt (lit "AISON") (lit "EASON"));
         star Space;
         Group 1 (digits 1 2);
         WordBoundary ].

(** [[:\-|]] *)
Definition separator : regex :=
  CharSet false [(code ":", code ":"); (code "-", code "-"); (code "|", code "|")].

(** [/^([A-Z]{2})\s*[:\-|]\s*/i] *)
Definition COUNTRY_PREFIX : regex :=
  seqs [ InputStart;
         Group 1 (Repeat 2 (Some 2%nat) (CharSet false [(code "A", code "Z")]));
         star Space;
         separator;
         star Space ].

(** [/[()]/g] *)
Definition PARENS : regex :=
  CharSet false [(code "(", code "("); (code ")", code ")")].

(** [/^\s+|\s+$/g] *)
Definition EDGE_SPACES : regex :=
  Alt (Seq InputStart (plus Space)) (Seq (plus Space) InputEnd).

(** [/\s*\(\s*\)\s*/g] *)
Definition EMPTY_PARENS : regex :=
  seqs [ star Space; Char (code "("); star Space; Char (code ")"); star Space ].

(** [s.toUpperCase()] as used on the two letters captured by
    [COUNTRY_PREFIX], which are ASCII. *)
Definition toUpperCase (s : jsstring) : jsstring := map JS.upperAscii s.

Definition truthyString (s : option jsstring) : bool :=
  match s with
  | Some (_ :: _) => true
  | _ => false
  end.

(** The [for ... if (pattern.test(name)) { ...; break; }] loops. *)
Definition firstMatch {A} (ps : list (A * regex)) (name : jsstring)
    : option (A * regex) :=
  find (fun p => test true (snd p) name) ps.

Definition strip (ignoreCase : bool) (pattern : regex) (s : jsstring) : jsstring :=
  JS.trim (replace ignoreCase pattern [] s).

Definition finalClean (s : jsstring) : jsstring :=
  JS.trim
    (replaceAll false EMPTY_PARENS []
      (replaceAll false EDGE_SPACES []
        (replaceAll false (plus Space) (js " ")
          (replaceAll false (plus separator) (js " ") s)))).

(** The extraction steps of [parseContentMetadata], in source order; the
    [cleanName] of the result is the working copy before its final cleaning. *)
Definition extractFields (name : jsstring) : ContentMetadata :=
  let cleanName := name in
  (* country as a prefix: "FR: TF1", "FR | TF1" *)
  let '(country, cleanName) :=
    match exec true COUNTRY_PREFIX name with
    | Some countryPrefixMatch =>
        let prefix := toUpperCase (default [] (capture 1 countryPrefixMatch)) in
        if bool_decide (prefix ∈ COUNTRIES)
        then (Some prefix,
              JS.trim (JS.replaceFirst cleanName (matched countryPrefixMatch) []))
        else (None, cleanName)
    | None => (None, cleanName)
    end in
  (* otherwise anywhere in the name *)
  let country :=
    if truthyString country then country
    else match firstMatch COUNTRY_PATTERNS name with
         | Some (code, _) => Some code
         | None => country
         end in
  let '(quality, cleanName) :=
    match firstMatch QUALITY_PATTERNS name with
    | Some (q, pattern) => (Some q, strip true pattern cleanName)
    | None => (None, cleanName)
    end in
  let '(language, cleanName) :=
    match firstMatch LANGUAGE_PATTERNS name with
    | Some (lang, pattern) => (Some lang, strip true pattern cleanName)
    | None => (None, cleanName)
    end in
  let '(year, cleanName) :=
    match exec false YEAR_PATTERN name with
    | Some yearMatch =>
        (Some (JS.parseInt (replaceAll false PARENS [] (matched yearMatch))),
         strip false YEAR_PATTERN cleanName)
    | None => (None, cleanName)
    end in
  let '(season, episode, cleanName) :=
    match exec true SEASON_EPISODE_PATTERN name with
    | Some seMatch =>
        (Some (JS.parseInt (default [] (capture 1 seMatch))),
         (if truthyString (capture 2 seMatch)
          then Some (JS.parseInt (default [] (capture 2 seMatch)))
          else None),
         strip true SEASON_EPISODE_PATTERN cleanName)
    | None =>
        match exec true SEASON_PATTERN name with
        | Some sMatch =>
            (Some (JS.parseInt (default [] (capture 1 sMatch))), None,
             strip true SEASON_PATTERN cleanName)
        | None => (None, None, cleanName)
        end
    end in
  {| cleanName := cleanName;
     country := country;
     language := language;
     quality := quality;
     year := year;
     season := season;
     episode := episode |}.

(** [cleanName || name] *)
Definition orName (cleanName name : jsstring) : jsstring :=
  match cleanName with
  | [] => name
  | _ :: _ => cleanName
  end.

Definition parseContentMetadata (name : jsstring) : ContentMetadata :=
  let fields := extractFields name in
  let cleanName := finalClean (cleanName fields) in
  {| cleanName := orName cleanName name;
     country := country fields;
     language := language fields;
     quality := quality fields;
     year := year fields;
     season := season fields;
     episode := episode fields |}.

(** *** The extractor with its exceptions

    [parseContentMetadata] once more, this time as a computation that may
    throw.  A capture group that took no part in a match is [undefined]:
    passing it to [parseInt] or testing it is harmless, calling a method on
    it throws.  The text of the whole match, [m[0]], is always a string. *)
Module Throwing.

Definition extractFields (name : jsstring) : JS.outcome ContentMetadata :=
  let cleanName := name in
  '(country, cleanName) ←
    match exec true COUNTRY_PREFIX name with
    | Some countryPrefixMatch =>
        prefix ← JS.method (capture 1 countryPrefixMatch) toUpperCase;
        if bool_decide (prefix ∈ COUNTRIES)
        then mret (Some prefix,
                   JS.trim (JS.replaceFirst cleanName
                              (matched countryPrefixMatch) []))
        else mret (None, cleanName)
    | None => mret (None, cleanName)
    end;
  let country :=
    if truthyString country then country
    else match firstMatch COUNTRY_PATTERNS name with
         | Some (code, _) => Some code
         | None => country
         end in
  let '(quality, cleanName) :=
    match firstMatch QUALITY_PATTERNS name with
    | Some (q, pattern) => (Some q, strip true pattern cleanName)
    | None => (None, cleanName)
    end in
  let '(language, cleanName) :=
    match firstMatch LANGUAGE_PATTERNS name with
    | Some (lang, pattern) => (Some lang, strip true pattern cleanName)
    | None => (None, cleanName)
    end in
  let '(year, cleanName) :=
    match exec false YEAR_PATTERN name with
    | Some yearMatch =>
        (Some (JS.parseInt (replaceAll false PARENS [] (matched yearMatch))),
         strip false YEAR_PATTERN cleanName)
    | None => (None, cleanName)
    end in
  let '(season, episode, cleanName) :=
    match exec true SEASON_EPISODE_PATTERN name with
    | Some seMatch =>
        (Some (JS.parseInt (default [] (capture 1 seMatch))),
         (if truthyString (capture 2 seMatch)
          then Some (JS.parseInt (default [] (capture 2 seMatch)))
          else None),
         strip true SEASON_EPISODE_PATTERN cleanName)
    | None =>
        match exec true SEASON_PATTERN name with
        | Some sMatch =>
            (Some (JS.parseInt (default [] (capture 1 sMatch))), None,
             strip true SEASON_PATTERN cleanName)
        | None => (None, None, cleanName)
        end
    end in
  mret {| cleanName := cleanName;
          country := country;
          language := language;
          quality := quality;
          year := year;
          season := season;
          episode := episode |}.

Definition parseContentMetadata (name : jsstring)
    : JS.outcome ContentMetadata :=
  fields ← extractFields name;
  let cleanName := finalClean (cleanName fields) in
  mret {| cleanName := orName cleanName name;
          country := country fields;
          language := language fields;
          quality := quality fields;
          year := year fields;
          season := season fields;
          episode := episode fields |}.

End Throwing.

(** [n || 0] for an optional number *)
Definition orZero (n : option JS.number) : JS.number :=
  match n with
  | Some n => if JS.truthyNumber n then n else JS.Int 0
  | None => JS.Int 0
  end.

Definition getContentKey `{Host} (name : jsstring) (type : ContentType) : jsstring :=
  let meta := parseContentMetadata name in
  match type with
  | TChannel =>
      toLowerCase (cleanName meta) ++ js "_" ++
      (if truthyString (country meta) then default [] (country meta)
       else js "unknown")
  | TSeries =>
      toLowerCase (cleanName meta) ++ js "_s" ++
      JS.numberToString (orZero (season meta))
  | TMovie =>
      toLowerCase (cleanName meta) ++ js "_" ++
      JS.numberToString (orZero (year meta))
  end.

(** A [Set<string>], in insertion order. *)
Definition setAdd (x : jsstring) (s : list jsstring) : list jsstring :=
  if bool_decide (x ∈ s) then s else s ++ [x].

(** [Array.prototype.sort] without a comparator, on strings: the stable
    ascending sort by code units. *)
Fixpoint insertString (a : jsstring) (l : list jsstring) : list jsstring :=
  match l with
  | [] => [a]
  | b :: l' => if JS.ltb b a then b :: insertString a l' else a :: b :: l'
  end.

Definition sortStrings (l : list jsstring) : list jsstring :=
  foldr insertString [] l.

Definition extractUniqueCountries (names : list jsstring) : list jsstring :=
  let countries :=
    foldl (fun countries name =>
             let meta := parseContentMetadata name in
             if truthyString (country meta)
             then setAdd (default [] (country meta)) countries
             else countries)
          [] names in
  sortStrings countries.

Definition extractUniqueLanguages (names : list jsstring) : list jsstring :=
  foldl (fun languages name =>
           let meta := parseContentMetadata name in
           if truthyString (language meta)
           then setAdd (default [] (language meta)) languages
           else languages)
        [] names.

(** The pattern of a leading bar: at the start of the input an optional
    vertical bar, then white space. *)
Definition LEADING_BAR : regex :=
  seqs [ InputStart; opt (Char (code "|")); star Space ].

(** The pattern of a trailing bar: white space, an optional vertical bar,
    white space, up to the end of the input. *)
Definition TRAILING_BAR : regex :=
  seqs [ star Space; opt (Char (code "|")); star Space; InputEnd ].

Definition cleanCategory (group : jsstring) : jsstring :=
  JS.trim (replace false TRAILING_BAR [] (replace false LEADING_BAR [] group)).

Definition extractUniqueCategories (groups : list (option jsstring))
    : list jsstring :=
  let categories :=
    foldl (fun categories group =>
             if truthyString group then
               let clean := cleanCategory (default [] group) in
               match clean with
               | _ :: _ => setAdd clean categories
               | [] => categories
               end
             else categories)
          [] groups in
  sortStrings categories.

End ContentParser.


(** [selectBestQuality] of [src/utils/contentParser.ts] *)

Module QualitySelection.

Definition qualityOrder : list Quality := [Q4K; FHD; HD; SD].

Definition quality_eqb (a b : Quality) : bool :=
  match a, b with
  | Q4K, Q4K | FHD, FHD | HD, HD | SD, SD | QAuto, QAuto => true
  | _, _ => false
  end.

Fixpoint indexOfFrom (i : Z) (q : Quality) (l : list Quality) : Z :=
  match l with
  | [] => -1
  | x :: l' => if quality_eqb x q then i else indexOfFrom (i + 1) q l'
  end.

(** [qualityOrder.indexOf(q)] *)
Definition indexOf (q : Quality) : Z := indexOfFrom 0 q qualityOrder.

(** [quality ? qualityOrder.indexOf(quality) : 999] *)
Definition rank (q : option Quality) : Z :=
  match q with
  | Some q => indexOf q
  | None => 999
  end.

Definition entry : Type := nat * option Quality.

(** [Array.prototype.sort] is stable; with the comparator
    [(a, b) => aIdx - bIdx] it is the stable ascending sort on [rank]. *)
Fixpoint insertByRank (a : entry) (l : list entry) : list entry :=
  match l with
  | [] => [a]
  | b :: l' =>
      if (rank (snd a) <=? rank (snd b))%Z then a :: b :: l'
      else b :: insertByRank a l'
  end.

Definition sortByRank (l : list entry) : list entry :=
  foldr insertByRank [] l.

Definition sortedIndices (variants : list ContentVariant) : list entry :=
  sortByRank (imap (fun i v => (i, v_quality v)) variants).

Definition selectBestQuality (variants : list ContentVariant)
    (preferredQuality : Quality) : nat :=
  let preferredIndex := indexOf preferredQuality in
  match find (fun e => (preferredIndex <=? rank (snd e))%Z)
             (sortedIndices variants) with
  | Some e => fst e
  | None =>
      match sortedIndices variants with
      | e :: _ => fst e
      | [] => 0%nat
      end
  end.

End QualitySelection.

(** ** [src/utils/deduplicator.ts] *)

Module Deduplicator.
Import ContentParser QualitySelection.

Definition truthy (b : option bool) : bool := default false b.

Definition isVod (ch : Channel) : bool :=
  negb (truthy (isLive ch)) && bool_decide (streamType ch = Some Vod).

Definition isSeries (ch : Channel) : bool :=
  negb (truthy (isLive ch)) && bool_decide (streamType ch = Some Series).

(** The [Map<string, Channel[]>] of the grouping loops, in insertion order:
    [existing = groups.get(key) || []; existing.push(ch); groups.set(key, existing)]. *)
Fixpoint addToGroup (key : jsstring) (ch : Channel)
    (groups : list (jsstring * list Channel)) : list (jsstring * list Channel) :=
  match groups with
  | [] => [(key, [ch])]
  | (k, existing) :: groups' =>
      if JS.eqb k key then (k, existing ++ [ch]) :: groups'
      else (k, existing) :: addToGroup key ch groups'
  end.

Definition toVariant (ch : Channel) : ContentVariant :=
  {| v_id := id ch;
     v_url := url ch;
     v_quality := quality (parseContentMetadata (name ch));
     v_language := language (parseContentMetadata (name ch)) |}.

(** The body of the conversion loops; [None] is the [continue] taken when
    the group has no first element. *)
Definition toContent (type : ContentType) (channelGroup : list Channel)
    : option DeduplicatedContent :=
  match channelGroup with
  | [] => None
  | first :: _ =>
      let metadata := parseContentMetadata (name first) in
      Some {| d_id := id first;
              d_name := cleanName metadata;
              d_logo := logo first;
              d_group := group first;
              d_type := type;
              d_metadata := metadata;
              variants := map toVariant channelGroup |}
  end.

Section WithHost.
Context `{Host}.

Definition deduplicateChannels (channels : list Channel) : list DeduplicatedContent :=
  let groups :=
    foldl (fun groups channel =>
             if negb (truthy (isLive channel)) then groups
             else addToGroup (getContentKey (name channel) TChannel) channel groups)
          [] channels in
  omap (fun g => toContent TChannel (snd g)) groups.

Definition deduplicateMovies (channels : list Channel) : list DeduplicatedContent :=
  let movies := List.filter isVod channels in
  let groups :=
    foldl (fun groups movie =>
             addToGroup (getContentKey (name movie) TMovie) movie groups)
          [] movies in
  omap (fun g => toContent TMovie (snd g)) groups.

Definition deduplicateSeries (channels : list Channel) : list DeduplicatedContent :=
  let series := List.filter isSeries channels in
  let groups :=
    foldl (fun groups episode =>
             addToGroup (getContentKey (name episode) TSeries) episode groups)
          [] series in
  omap (fun g => toContent TSeries (snd g)) groups.

End WithHost.

(** [variants[idx] || variants[0]] *)
Definition atOrFirst (variants : list ContentVariant) (idx : nat)
    : option ContentVariant :=
  match variants !! idx with
  | Some v => Some v
  | None => variants !! 0%nat
  end.

Definition byLanguageThenQuality (variants : list ContentVariant)
    (prefLang : jsstring) : option ContentVariant :=
  match find (fun v => bool_decide (v_language v = Some prefLang)) variants with
  | Some langMatch => Some langMatch
  | None => atOrFirst variants (selectBestQuality variants FHD)
  end.

(** [None] is JavaScript's [undefined], which the function returns for a
    content without variants. *)
Definition selectBestVariant (content : DeduplicatedContent)
    (preferences : UserPreferences) : option ContentVariant :=
  match variants content with
  | [v] => Some v
  | vs =>
      match d_type content with
      | TChannel =>
          let quality := defaultQuality (channels preferences) in
          atOrFirst vs (selectBestQuality vs quality)
      | TMovie =>
          byLanguageThenQuality vs (preferredLanguage (movies preferences))
      | TSeries =>
          byLanguageThenQuality vs (preferredLanguage (series preferences))
      end
  end.

Section Preferences.
Context `{Host}.

(** [!country || !countries.includes(country)] *)
Definition outsideCountries (country : option jsstring)
    (countries : list jsstring) : bool :=
  negb (truthyString country)
  || negb (bool_decide (default [] country ∈ countries)).

(** [!group || !categories.some(cat =>
       group?.toLowerCase().includes(cat.toLowerCase()))] *)
Definition outsideCategories (group : option jsstring)
    (categories : list jsstring) : bool :=
  negb (truthyString group)
  || negb (existsb (fun cat =>
                      JS.includes (toLowerCase (default [] group))
                                  (toLowerCase cat))
                   categories).

Definition nonEmptyList {A} (l : list A) : bool :=
  match l with
  | [] => false
  | _ :: _ => true
  end.

(** The predicate of the [filter] call.  For a film the availability of the
    preferred language is computed and then left unused. *)
Definition keptByPreferences (preferences : UserPreferences)
    (item : DeduplicatedContent) : bool :=
  match d_type item with
  | TChannel =>
      let prefs := channels preferences in
      if nonEmptyList (countries prefs)
         && outsideCountries (country (d_metadata item)) (countries prefs)
      then false
      else if nonEmptyList (categories prefs)
              && outsideCategories (d_group item) (categories prefs)
      then false
      else true
  | TMovie =>
      let prefs := movies preferences in
      let hasPreferredLang :=
        if truthyString (Some (preferredLanguage prefs))
           && negb (JS.eqb (preferredLanguage prefs) (js "all"))
        then Some (existsb (fun v => bool_decide
                              (v_language v = Some (preferredLanguage prefs)))
                           (variants item))
        else None in
      if nonEmptyList (languageCategories prefs)
         && outsideCategories (d_group item) (languageCategories prefs)
      then false
      else true
  | TSeries =>
      let prefs := series preferences in
      if nonEmptyList (languageCategories prefs)
         && outsideCategories (d_group item) (languageCategories prefs)
      then false
      else true
  end.

Definition filterContentByPreferences (content : list DeduplicatedContent)
    (preferences : UserPreferences) : list DeduplicatedContent :=
  List.filter (keptByPreferences preferences) content.

(** A [Partial<UserPreferences>]: every field may be missing. *)
Record PartialUserPreferences := {
  partialOnboardingCompleted : option bool;
  partialChannels : option ChannelPreferences;
  partialMovies : option LanguagePreferences;
  partialSeries : option LanguagePreferences;
}.

Record ContentCounts := {
  channelTotal : nat;
  movieTotal : nat;
  seriesTotal : nat;
}.

Definition countContentByPreferences (channels : list Channel)
    (preferences : PartialUserPreferences) : ContentCounts :=
  let dedupedChannels := deduplicateChannels channels in
  let dedupedMovies := deduplicateMovies channels in
  let dedupedSeries := deduplicateSeries channels in
  let channelCount :=
    match partialChannels preferences with
    | Some prefs =>
        length (List.filter
                  (fun ch =>
                     if nonEmptyList (countries prefs)
                        && outsideCountries (country (d_metadata ch))
                                            (countries prefs)
                     then false else true)
                  dedupedChannels)
    | None => length dedupedChannels
    end in
  {| channelTotal := channelCount;
     movieTotal := length dedupedMovies;
     seriesTotal := length dedupedSeries |}.

End Preferences.

End Deduplicator.

(** ** The EPG hook ([useEPG]) *)

Module Epg.

(** An [EpgProgram]; the [Date] copies of the two timestamps and the
    live/progress decorations computed at fetch time are not read here. *)
Record EpgProgram := {
  p_id : jsstring;
  channelId : jsstring;
  title : jsstring;
  description : jsstring;
  startTimestamp : JS.number;
  endTimestamp : JS.number;
}.

(** [a <= b] on numbers: false as soon as one side is [NaN]. *)
Definition le (a b : JS.number) : bool :=
  match a, b with
  | JS.Int x, JS.Int y => (x <=? y)%Z
  | _, _ => false
  end.

Definition airsAt (now : Z) (p : EpgProgram) : bool :=
  le (startTimestamp p) (JS.Int now) && le (JS.Int now) (endTimestamp p).

(** [getCurrentProgram] of [useEPG]; [now] is the value of [Date.now()] and
    [epgData] the state of the hook. *)
Definition getCurrentProgram (epgData : gmap jsstring (list EpgProgram))
    (now : Z) (channelId : jsstring) : option EpgProgram :=
  match epgData !! channelId with
  | None => None
  | Some [] => None
  | Some programs => find (airsAt now) programs
  end.

(** [a > b] on numbers: false as soon as one side is [NaN]. *)
Definition gt (a b : JS.number) : bool :=
  match a, b with
  | JS.Int x, JS.Int y => (y <? x)%Z
  | _, _ => false
  end.

Definition startsAfter (now : Z) (p : EpgProgram) : bool :=
  gt (startTimestamp p) (JS.Int now).

(** [getNextProgram] of [useEPG] *)
Definition getNextProgram (epgData : gmap jsstring (list EpgProgram))
    (now : Z) (channelId : jsstring) : option EpgProgram :=
  match epgData !! channelId with
  | None => None
  | Some [] => None
  | Some programs => find (startsAfter now) programs
  end.

(** *** The cache of fetched guides *)

(** The pattern of the id of a live stream: the text xtream-live- followed
    by group 1, one or more digits. *)
Definition STREAM_ID : Regex.regex :=
  Regex.Seq (Regex.lit "xtream-live-") (Regex.Group 1 (Regex.plus Regex.Digit)).

Definition CACHE_DURATION : Z := 5 * 60 * 1000.

(** An entry of the global [epgCache]. *)
Record CacheEntry := {
  programs : list EpgProgram;
  fetchedAt : Z;
}.

Record EpgResult := {
  resultChannelId : jsstring;
  resultPrograms : list EpgProgram;
}.

(** What a call of [fetchEpgForChannel] comes to: the value it resolves to
    and the entry it stores in the cache, if any.  The store happens after
    the request has been awaited, on the cache as it is then. *)
Record FetchOutcome := {
  resolved : option EpgResult;
  stored : option (jsstring * CacheEntry);
}.


(** [fetchEpgForChannel] of [useEPG].  [api] is [None] for a null API and
    otherwise gives [getShortEpg], whose result is [None] when the promise
    is rejected; [epgCache] is the cache when the call starts, [t0] and [t1]
    are the readings of [Date.now()] before and after the request. *)
Definition fetchEpgForChannel
    (api : option (jsstring -> option (list EpgProgram)))
    (epgCache : gmap jsstring CacheEntry) (t0 t1 : Z) (channel : Channel)
    : FetchOutcome :=
  match api with
  | None => {| resolved := None; stored := None |}
  | Some getShortEpg =>
      if negb (default false (isLive channel))
      then {| resolved := None; stored := None |}
      else
        match Regex.exec false STREAM_ID (id channel) with
        | None => {| resolved := None; stored := None |}
        | Some streamIdMatch =>
            let streamId := default [] (Regex.capture 1 streamIdMatch) in
            let cacheKey := js "epg-" ++ streamId in
            let request :=
              match getShortEpg streamId with
              | Some programs =>
                  {| resolved := Some {| resultChannelId := id channel;
                                         resultPrograms := programs |};
                     stored := Some (cacheKey,
                                     {| programs := programs;
                                        fetchedAt := t1 |}) |}
              | None => {| resolved := None; stored := None |}
              end in
            match epgCache !! cacheKey with
            | Some cached =>
                if (t0 - fetchedAt cached <? CACHE_DURATION)%Z
                then {| resolved := Some {| resultChannelId := id channel;
                                            resultPrograms := programs cached |};
                        stored := None |}
                else request
            | None => request
            end
        end
  end.

End Epg.


(** ** Decoding of fetched EPG texts ([getShortEpg] of [src/parsers/xtreamApi.ts]) *)

Module Xtream.
Import Regex.

(** *** The host functions [atob], [escape] and [decodeURIComponent] *)

Definition base64Value (c : N) : option N :=
  if JS.isUpper c then Some (c - 65)
  else if JS.isLower c then Some (c - 97 + 26)
  else if JS.isDigit c then Some (c - 48 + 52)
  else if c =? 43 then Some 62
  else if c =? 47 then Some 63
  else None.

Definition isAsciiWhitespace (c : N) : bool :=
  (c =? 9) || (c =? 10) || (c =? 12) || (c =? 13) || (c =? 32).

(** One or two trailing [=] are dropped when the length is a multiple of 4. *)
Definition stripPadding (s : jsstring) : jsstring :=
  if Nat.eqb (length s mod 4) 0 then
    match rev s with
    | a :: b :: r =>
        if (a =? 61) && (b =? 61) then rev r
        else if a =? 61 then rev (b :: r)
        else s
    | [a] => if a =? 61 then [] else s
    | [] => s
    end
  else s.

Fixpoint decodeSextets (v : list N) : jsstring :=
  match v with
  | a :: b :: c :: d :: v' =>
      let n := a * 262144 + b * 4096 + c * 64 + d in
      (n / 65536) :: ((n / 256) mod 256) :: (n mod 256) :: decodeSextets v'
  | [a; b; c] =>
      let n := (a * 4096 + b * 64 + c) / 4 in
      [n / 256; n mod 256]
  | [a; b] => [(a * 64 + b) / 16]
  | _ => []
  end.

(** [atob(s)], the forgiving base64 decoding; [None] when it throws. *)
Definition atob (s : jsstring) : option jsstring :=
  let data := stripPadding (List.filter (fun c => negb (isAsciiWhitespace c)) s) in
  if Nat.eqb (length data mod 4) 1 then None
  else decodeSextets <$> mapM base64Value data.

Definition hexDigit (n : N) : N := if n <? 10 then 48 + n else 55 + n.

Definition escapeUnreserved (c : N) : bool :=
  JS.isUpper c || JS.isLower c || JS.isDigit c
  || bool_decide (c ∈ js "@*_+-./").

Definition escapeUnit (c : N) : jsstring :=
  if escapeUnreserved c then [c]
  else if c <? 256 then [code "%"; hexDigit (c / 16); hexDigit (c mod 16)]
  else [code "%"; code "u"; hexDigit (c / 4096); hexDigit ((c / 256) mod 16);
        hexDigit ((c / 16) mod 16); hexDigit (c mod 16)].

(** [escape(s)] *)
Definition escape (s : jsstring) : jsstring := flat_map escapeUnit s.

Definition hexValue (c : N) : option N :=
  if JS.isDigit c then Some (c - 48)
  else if JS.between 65 70 c then Some (c - 55)
  else if JS.between 97 102 c then Some (c - 87)
  else None.

(** A [%XX] escape at the head of [s]. *)
Definition hexOctet (s : jsstring) : option (N * jsstring) :=
  match s with
  | p :: h :: l :: s' =>
      if p =? code "%" then
        a ← hexValue h; b ← hexValue l; Some (16 * a + b, s')
      else None
  | _ => None
  end.

Fixpoint continuationOctets (n : nat) (s : jsstring) : option (list N * jsstring) :=
  match n with
  | O => Some ([], s)
  | S n' =>
      '(b, s1) ← hexOctet s;
      '(bs, s2) ← continuationOctets n' s1;
      Some (b :: bs, s2)
  end.

(** Number of octets announced by a leading octet above [0x7F]; 1 and 5 stand
    for the two malformed cases. *)
Definition sequenceLength (b : N) : nat :=
  if b <? 192 then 1 else if b <? 224 then 2 else if b <? 240 then 3
  else if b <? 248 then 4 else 5.

(** The code point encoded by a leading octet and its continuation octets, when
    they are a well-formed UTF-8 sequence. *)
Definition utf8CodePoint (b : N) (bs : list N) : option N :=
  if forallb (JS.between 128 191) bs then
    match bs with
    | [b1] =>
        let v := (b - 192) * 64 + (b1 - 128) in
        if 128 <=? v then Some v else None
    | [b1; b2] =>
        let v := (b - 224) * 4096 + (b1 - 128) * 64 + (b2 - 128) in
        if (2048 <=? v) && negb (JS.between 55296 57343 v) then Some v else None
    | [b1; b2; b3] =>
        let v := (b - 240) * 262144 + (b1 - 128) * 4096 + (b2 - 128) * 64
                 + (b3 - 128) in
        if (65536 <=? v) && (v <=? 1114111) then Some v else None
    | _ => None
    end
  else None.

Definition utf16Encode (v : N) : jsstring :=
  if v <? 65536 then [v]
  else [55296 + (v - 65536) / 1024; 56320 + (v - 65536) mod 1024].

Fixpoint decodeFrom (fuel : nat) (s : jsstring) : option jsstring :=
  match fuel with
  | O => None
  | S fuel' =>
      match s with
      | [] => Some []
      | c :: s' =>
          if c =? code "%" then
            '(b, s1) ← hexOctet s;
            if b <? 128 then (b ::.) <$> decodeFrom fuel' s1
            else
              let n := sequenceLength b in
              if Nat.eqb n 1 || Nat.ltb 4 n then None
              else
                '(bs, s2) ← continuationOctets (Nat.pred n) s1;
                v ← utf8CodePoint b bs;
                (utf16Encode v ++.) <$> decodeFrom fuel' s2
          else (c ::.) <$> decodeFrom fuel' s'
      end
  end.

(** [decodeURIComponent(s)]; [None] when it throws [URIError]. *)
Definition decodeURIComponent (s : jsstring) : option jsstring :=
  decodeFrom (S (length s)) s.

(** *** The client and the records it builds *)

Record XtreamCredentials := {
  serverUrl : jsstring;
  username : jsstring;
  password : jsstring;
}.

(** The fields of an [XtreamLiveStream] that the client reads. *)
Record XtreamLiveStream := {
  stream_name : jsstring;
  stream_id : JS.number;
  stream_icon : jsstring;
  epg_channel_id : jsstring;
  category_id : jsstring;
}.

(** The server URL as the constructor normalises it. *)
Definition baseUrl (credentials : XtreamCredentials) : jsstring :=
  let serverUrl := JS.trim (serverUrl credentials) in
  let serverUrl :=
    if JS.endsWith serverUrl (js "/")
    then take (length serverUrl - 1) serverUrl
    else serverUrl in
  if negb (JS.startsWith serverUrl (js "http"))
  then js "http://" ++ serverUrl
  else serverUrl.

(** [s || undefined] *)
Definition orUndefined (s : jsstring) : option jsstring :=
  match s with
  | [] => None
  | _ :: _ => Some s
  end.

Section Client.

(** The host function [encodeURIComponent]; [None] when it throws. *)
Variable encodeURIComponent : jsstring -> option jsstring.

Definition buildLiveStreamUrl (credentials : XtreamCredentials)
    (streamId extension : jsstring) : option jsstring :=
  user ← encodeURIComponent (username credentials);
  pass ← encodeURIComponent (password credentials);
  Some (baseUrl credentials ++ js "/live/" ++ user ++ js "/" ++ pass
        ++ js "/" ++ streamId ++ js "." ++ extension).

(** [liveStreamToChannel]; [None] when building the URL throws. *)
Definition liveStreamToChannel (credentials : XtreamCredentials)
    (stream : XtreamLiveStream) (categoryName : jsstring) : option Channel :=
  streamUrl ← buildLiveStreamUrl credentials
                 (JS.numberToString (stream_id stream)) (js "m3u8");
  Some {| id := js "xtream-live-" ++ JS.numberToString (stream_id stream);
          name := stream_name stream;
          url := streamUrl;
          logo := orUndefined (stream_icon stream);
          group := Some categoryName;
          tvgId := orUndefined (epg_channel_id stream);
          tvgName := None;
          epgUrl := None;
          catchup := None;
          catchupDays := None;
          catchupSource := None;
          userAgent := None;
          referrer := None;
          isLive := Some true;
          streamType := Some Live |}.

End Client.

(** *** The decoding step of [getShortEpg] *)

(** [/^[A-Za-z0-9+/=]+$/] *)
Definition BASE64_TEXT : regex :=
  seqs [ InputStart;
         plus (CharSet false [(code "A", code "Z"); (code "a", code "z");
                            (code "0", code "9"); (code "+", code "+");
                            (code "/", code "/"); (code "=", code "=")]);
         InputEnd ].

(** [/[\x00-\x08\x0E-\x1F]/] *)
Definition CONTROL : regex := CharSet false [(0, 8); (14, 31)].

Definition nonEmpty (s : jsstring) : bool :=
  match s with
  | [] => false
  | _ :: _ => true
  end.

(** The body of the [try] block: the value of the text when the block
    completes, or [None] when one of the host calls throws. *)
Definition tryDecode (text : jsstring) : option jsstring :=
  if nonEmpty text && test false BASE64_TEXT text && Nat.ltb 4 (length text) then
    decoded ← atob text;
    if negb (test false CONTROL decoded)
    then decodeURIComponent (escape decoded)
    else Some text
  else Some text.

(** [try { ... } catch { }]: the text stays as it was when the block throws. *)
Definition decodeText (text : jsstring) : jsstring :=
  default text (tryDecode text).

(** [let title = listing.title || ''] followed by the decoding step. *)
Definition decodeListingText (field : option jsstring) : jsstring :=
  decodeText (default [] field).

(** *** [getShortEpg] *)

(** An entry of [epg_listings] in the answer of the server. *)
Record XtreamEpgListing := {
  l_id : jsstring;
  epg_id : jsstring;
  l_title : jsstring;
  lang : jsstring;
  l_start : jsstring;
  l_end : jsstring;
  l_description : jsstring;
  l_channel_id : jsstring;
  start_timestamp : jsstring;
  stop_timestamp : jsstring;
}.

(** What the request of [getShortEpg] comes to: [fetch] rejects, the
    response is not [ok], its body cannot be read as JSON, or it is read and
    has the given [epg_listings], if any. *)
Inductive EpgAnswer :=
  | Unreachable
  | HttpError
  | Unreadable
  | Listings (epg_listings : option (list XtreamEpgListing)).

(** The programme built from a listing; the [Date] copies of the timestamps
    and the live/progress decorations are not part of [EpgProgram] here. *)
Definition listingToProgram (listing : XtreamEpgListing) : Epg.EpgProgram :=
  let startTs := JS.times (JS.parseIntAuto (start_timestamp listing)) 1000 in
  let endTs := JS.times (JS.parseIntAuto (stop_timestamp listing)) 1000 in
  {| Epg.p_id := l_id listing;
     Epg.channelId := l_channel_id listing;
     Epg.title := decodeListingText (Some (l_title listing));
     Epg.description := decodeListingText (Some (l_description listing));
     Epg.startTimestamp := startTs;
     Epg.endTimestamp := endTs |}.

Section Guide.

(** The host function [encodeURIComponent]; [None] when it throws. *)
Variable encodeURIComponent : jsstring -> option jsstring.

(** [buildApiUrl(action)]; [None] when it throws. *)
Definition buildApiUrl (credentials : XtreamCredentials)
    (action : option jsstring) : option jsstring :=
  user ← encodeURIComponent (username credentials);
  pass ← encodeURIComponent (password credentials);
  let url := baseUrl credentials ++ js "/player_api.php?username=" ++ user
             ++ js "&password=" ++ pass in
  Some (match action with
        | Some (_ :: _ as action) => url ++ js "&action=" ++ action
        | _ => url
        end).

(** [getShortEpg]: [fetch] gives what the request for a URL comes to.  The
    result is [None] when the promise is rejected, which only building the
    URL, outside the [try] block, can cause; whatever goes wrong with the
    request itself is caught and answered by the empty guide. *)
Definition getShortEpg (credentials : XtreamCredentials)
    (fetch : jsstring -> EpgAnswer) (streamId : jsstring)
    : option (list Epg.EpgProgram) :=
  api ← buildApiUrl credentials (Some (js "get_short_epg"));
  let url := api ++ js "&stream_id=" ++ streamId ++ js "&limit=3" in
  Some (match fetch url with
        | Listings (Some (_ :: _ as epg_listings)) =>
            map listingToProgram epg_listings
        | _ => []
        end).

End Guide.

End Xtream.


(** ** [src/parsers/m3uParser.ts] *)

Module M3U.
Import Regex.

Definition quote : N := 34.

(** The pattern of an [#EXTINF:] line: at the start of the input the
    directive, optional white space, group 1 an optionally negative integer,
    then optionally white space followed by group 2, the remainder of the
    line, up to the end of the input. *)
Definition EXTINF_REGEX : regex :=
  seqs [ InputStart;
         lit "#EXTINF:";
         star Space;
         Group 1 (Seq (opt (Char (code "-"))) (plus Digit));
         opt (Seq (plus Space) (Group 2 (star Any)));
         InputEnd ].

(** The pattern of an attribute: the key, an equals sign, and group 1 the
    text between the next two double quotes; case-insensitive. *)
Definition attributeRegex (key : string) : regex :=
  seqs [ lit key; Char (code "="); Char quote;
         Group 1 (star (CharSet true [(quote, quote)]));
         Char quote ].

Definition TVG_ID_REGEX := attributeRegex "tvg-id".
Definition TVG_NAME_REGEX := attributeRegex "tvg-name".
Definition TVG_LOGO_REGEX := attributeRegex "tvg-logo".
Definition GROUP_TITLE_REGEX := attributeRegex "group-title".
Definition CATCHUP_REGEX := attributeRegex "catchup".
Definition CATCHUP_DAYS_REGEX := attributeRegex "catchup-days".
Definition CATCHUP_SOURCE_REGEX := attributeRegex "catchup-source".
Definition USER_AGENT_REGEX := attributeRegex "user-agent".
Definition REFERRER_REGEX := attributeRegex "referrer".
Definition EXTM3U_URL_TVG_REGEX := attributeRegex "url-tvg".
Definition EXTM3U_REFRESH_REGEX := attributeRegex "refresh".

Record M3UHeader := {
  urlTvg : option jsstring;
  refresh : option jsstring;
}.

(** The [Partial<ParsedChannel>] built from an [#EXTINF] line. *)
Record ParsedChannel := {
  duration : JS.number;
  attributes : jsstring;
  pc_name : jsstring;
}.

Inductive Source := SFile | SUrl | SXtream.

Record Category := {
  c_id : jsstring;
  c_name : jsstring;
  channelCount : nat;
}.

Record Playlist := {
  pl_id : jsstring;
  pl_name : jsstring;
  source : Source;
  pl_channels : list Channel;
  pl_categories : list Category;
  addedAt : Z;
}.

(** [ToInt32] *)
Definition toInt32 (z : Z) : Z :=
  ((z + 2147483648) mod 4294967296 - 2147483648)%Z.

Definition base36Digit (d : Z) : N :=
  if (d <? 10)%Z then Z.to_N (48 + d) else Z.to_N (87 + d).

Fixpoint toBase36 (fuel : nat) (n : Z) (acc : jsstring) : jsstring :=
  match fuel with
  | O => acc
  | S fuel' =>
      let acc' := base36Digit (n mod 36) :: acc in
      if (n <? 36)%Z then acc' else toBase36 fuel' (n / 36) acc'
  end.

(** [Math.abs(hash).toString(36)] with the 32-bit string hash of the source. *)
Definition generateChannelId (name url : jsstring) : jsstring :=
  let str := name ++ js "-" ++ url in
  let hash :=
    foldl (fun hash char =>
             toInt32 (toInt32 (hash * 32) - hash + Z.of_N char))
          0%Z str in
  toBase36 7 (Z.abs hash) [].

Definition parseExtinfAttributes (line : jsstring) : ParsedChannel :=
  match exec false EXTINF_REGEX line with
  | None => {| attributes := []; pc_name := []; duration := JS.Int (-1) |}
  | Some m =>
      let duration := JS.parseInt (default (js "-1") (capture 1 m)) in
      let rest := default [] (capture 2 m) in
      match JS.lastIndexOf rest (code ",") with
      | Some commaIndex =>
          {| attributes := JS.trim (take commaIndex rest);
             pc_name := JS.trim (drop (S commaIndex) rest);
             duration := duration |}
      | None => {| attributes := rest; pc_name := rest; duration := duration |}
      end
  end.

(** [match?.[1]?.trim() || undefined] *)
Definition extractAttribute (attributes : jsstring) (r : regex) : option jsstring :=
  match exec true r attributes with
  | Some m =>
      match JS.trim <$> capture 1 m with
      | Some (c :: v) => Some (c :: v)
      | _ => None
      end
  | None => None
  end.

Definition parseHeader (line : jsstring) : M3UHeader :=
  {| urlTvg := extractAttribute line EXTM3U_URL_TVG_REGEX;
     refresh := extractAttribute line EXTM3U_REFRESH_REGEX |}.

(** [a || b] on optional strings *)
Definition orElse (a : option jsstring) (b : jsstring) : jsstring :=
  match a with
  | Some (c :: v) => c :: v
  | _ => b
  end.

Definition unclassified : jsstring := js "Non class" ++ [233].

Section WithHost.
Context `{Host}.

(** [localeCompare], for the final ordering of the categories. *)
Variable localeCompare : jsstring -> jsstring -> Z.

Definition determineStreamType (url name : jsstring) : StreamType :=
  let lowerUrl := toLowerCase url in
  let lowerName := toLowerCase name in
  let vodExtensions := map js [".mp4"; ".mkv"; ".avi"; ".mov"; ".wmv"]%string in
  if existsb (fun ext => JS.endsWith lowerUrl ext) vodExtensions then Vod
  else if JS.includes lowerUrl (js "/series/") || JS.includes lowerName (js "s0")
          || JS.includes lowerName (js "e0") then Series
  else if JS.includes lowerUrl (js "/movie/") || JS.includes lowerUrl (js "/vod/")
  then Vod
  else Live.

Definition parseChannel (data : ParsedChannel) (url : jsstring)
    (epgUrl : option jsstring) : Channel :=
  let attributes := attributes data in
  let name := pc_name data in
  let tvgName := extractAttribute attributes TVG_NAME_REGEX in
  let group := extractAttribute attributes GROUP_TITLE_REGEX in
  let catchupDays := extractAttribute attributes CATCHUP_DAYS_REGEX in
  let streamType := determineStreamType url name in
  {| id := generateChannelId name url;
     name := orElse (Some name) (orElse tvgName (js "Unknown Channel"));
     url := url;
     logo := extractAttribute attributes TVG_LOGO_REGEX;
     group := Some (orElse group unclassified);
     tvgId := extractAttribute attributes TVG_ID_REGEX;
     tvgName := tvgName;
     epgUrl := epgUrl;
     catchup := extractAttribute attributes CATCHUP_REGEX;
     catchupDays := JS.parseInt <$> catchupDays;
     catchupSource := extractAttribute attributes CATCHUP_SOURCE_REGEX;
     userAgent := extractAttribute attributes USER_AGENT_REGEX;
     referrer := extractAttribute attributes REFERRER_REGEX;
     isLive := Some (bool_decide (streamType = Live));
     streamType := Some streamType |}.

(** The [Map<string, number>] of [extractCategories], in insertion order. *)
Fixpoint countGroup (g : jsstring) (m : list (jsstring * nat)) : list (jsstring * nat) :=
  match m with
  | [] => [(g, 1%nat)]
  | (k, n) :: m' =>
      if JS.eqb k g then (k, S n) :: m' else (k, n) :: countGroup g m'
  end.

Fixpoint insertCategory (a : Category) (l : list Category) : list Category :=
  match l with
  | [] => [a]
  | b :: l' =>
      if (localeCompare (c_name a) (c_name b) <=? 0)%Z then a :: b :: l'
      else b :: insertCategory a l'
  end.

Definition extractCategories (channels : list Channel) : list Category :=
  let categoryMap :=
    foldl (fun m channel => countGroup (orElse (group channel) unclassified) m)
          [] channels in
  foldr insertCategory []
    (map (fun e => {| c_id := replaceAll false (plus Space) (js "-")
                                (toLowerCase (fst e));
                      c_name := fst e;
                      channelCount := snd e |})
         categoryMap).

(** [content.split(/\r?\n/)] *)
Fixpoint splitLines (cur : jsstring) (s : jsstring) : list jsstring :=
  match s with
  | [] => [rev cur]
  | c :: s' =>
      if c =? 10 then rev cur :: splitLines [] s'
      else
        match s' with
        | d :: s'' =>
            if (c =? 13) && (d =? 10) then rev cur :: splitLines [] s''
            else splitLines (c :: cur) s'
        | [] => splitLines (c :: cur) s'
        end
  end.

(** The variables of the parsing loop. *)
Record LoopState := {
  header : M3UHeader;
  currentData : option ParsedChannel;
  parsed : list Channel;
}.

Definition isStreamUrl (line : jsstring) : bool :=
  JS.startsWith line (js "http") || JS.startsWith line (js "rtmp")
  || JS.startsWith line (js "rtsp").

(** One iteration of the loop over the lines. *)
Definition step (st : LoopState) (rawLine : jsstring) : LoopState :=
  let line := JS.trim rawLine in
  match line with
  | [] => st
  | _ :: _ =>
      if JS.startsWith line (js "#EXTM3U") then
        {| header := parseHeader line;
           currentData := currentData st;
           parsed := parsed st |}
      else if JS.startsWith line (js "#EXTINF:") then
        {| header := header st;
           currentData := Some (parseExtinfAttributes line);
           parsed := parsed st |}
      else if JS.startsWith line (js "#") then st
      else
        match currentData st with
        | Some data =>
            if isStreamUrl line then
              {| header := header st;
                 currentData := None;
                 parsed := parsed st ++ [parseChannel data line (urlTvg (header st))] |}
            else st
        | None => st
        end
  end.

Definition initial : LoopState :=
  {| header := {| urlTvg := None; refresh := None |};
     currentData := None;
     parsed := [] |}.

Definition parseLines (lines : list jsstring) : LoopState :=
  foldl step initial lines.

(** [parseM3U(content, sourceName)]; [t0] and [t1] are the two readings of
    [Date.now()]. *)
Definition parseM3U (t0 t1 : Z) (content sourceName : jsstring) : Playlist :=
  let channels := parsed (parseLines (splitLines [] content)) in
  {| pl_id := generateChannelId sourceName (JS.numberToString (JS.Int t0));
     pl_name := sourceName;
     source := SFile;
     pl_channels := channels;
     pl_categories := extractCategories channels;
     addedAt := t1 |}.

(** [mergePlaylists(playlists, name)]; [seenUrls] is the set of the URLs
    met so far, [t0] and [t1] are the two readings of [Date.now()]. *)
Definition mergeChannel (acc : list jsstring * list Channel) (channel : Channel)
    : list jsstring * list Channel :=
  let '(seenUrls, allChannels) := acc in
  if bool_decide (url channel ∈ seenUrls) then acc
  else (seenUrls ++ [url channel], allChannels ++ [channel]).

Definition mergePlaylists (t0 t1 : Z) (playlists : list Playlist)
    (name : jsstring) : Playlist :=
  let allChannels :=
    snd (foldl (fun acc playlist => foldl mergeChannel acc (pl_channels playlist))
               ([], []) playlists) in
  {| pl_id := generateChannelId name (JS.numberToString (JS.Int t0));
     pl_name := name;
     source := SFile;
     pl_channels := allChannels;
     pl_categories := extractCategories allChannels;
     addedAt := t1 |}.

End WithHost.

(** [isValidM3U(content)] *)
Definition isValidM3U (content : jsstring) : bool :=
  let trimmed := JS.trim content in
  JS.startsWith trimmed (js "#EXTM3U") || JS.includes trimmed (js "#EXTINF:").

End M3U.

(** An instance of the host for titles written in ASCII, on which
    lower-casing only touches the letters [A-Z]. *)
Definition asciiHost : Host := {| toLowerCase := map JS.lowerAscii |}.


(** ** Vocabulary of the properties *)

(** The order in which [selectBestQuality] ranks the entries: by quality
    index, and by position in the list among entries of equal index. *)
Definition ranksBefore (a b : QualitySelection.entry) : Prop :=
  (QualitySelection.rank (snd a) < QualitySelection.rank (snd b))%Z
  ∨ (QualitySelection.rank (snd a) = QualitySelection.rank (snd b)
     ∧ (fst a < fst b)%nat).

(** [v], at index [i] of [vs], is the choice for the preferred index [p]: it
    comes first, in the ranking, among the variants whose quality index is
    at least [p]; when there is none, it comes first among all variants. *)
Definition chosen (p : Z) (vs : list ContentVariant) (i : nat)
    (v : ContentVariant) : Prop :=
  vs !! i = Some v
  ∧ (∀ j w, vs !! j = Some w →
       (p ≤ QualitySelection.rank (v_quality w))%Z →
       (p ≤ QualitySelection.rank (v_quality v))%Z
       ∧ (j = i ∨ ranksBefore (i, v_quality v) (j, v_quality w)))
  ∧ ((∀ w, w ∈ vs → (QualitySelection.rank (v_quality w) < p)%Z) →
     ∀ j w, vs !! j = Some w →
       j = i ∨ ranksBefore (i, v_quality v) (j, v_quality w)).

(** Tier [a] is at least as good as tier [b] in the order
    4K > FHD > HD > SD. *)
Definition tierAtLeast (a b : Quality) : Prop :=
  (QualitySelection.indexOf a ≤ QualitySelection.indexOf b)%Z.

(** Sample data for the examples. *)
Definition sampleVariant (i : string) (q : option Quality) : ContentVariant :=
  {| v_id := js i; v_url := js "http://host/" ++ js i;
     v_quality := q; v_language := None |}.

Definition sampleMetadata (n : string) : ContentMetadata :=
  {| cleanName := js n; country := None; language := None; quality := None;
     year := None; season := None; episode := None |}.

Definition sampleChannel (vs : list ContentVariant) : DeduplicatedContent :=
  {| d_id := js "c"; d_name := js "Canal"; d_logo := None; d_group := None;
     d_type := TChannel; d_metadata := sampleMetadata "Canal"; variants := vs |}.

Definition samplePreferences (q : Quality) : UserPreferences :=
  {| onboardingCompleted := true;
     channels := {| countries := []; categories := []; defaultQuality := q |};
     movies := {| preferredLanguage := js "MULTI";
                  subtitleLanguage := SubtitleFR; languageCategories := [] |};
     series := {| preferredLanguage := js "MULTI";
                  subtitleLanguage := SubtitleFR; languageCategories := [] |} |}.

(** A programme is on the air at [now] when [now] lies between its two
    timestamps: both ends included, or the end excluded. *)
Definition onAirClosed (now : Z) (p : Epg.EpgProgram) : Prop :=
  ∃ s e, Epg.startTimestamp p = JS.Int s ∧ Epg.endTimestamp p = JS.Int e
         ∧ (s ≤ now ≤ e)%Z.

Definition onAirHalfOpen (now : Z) (p : Epg.EpgProgram) : Prop :=
  ∃ s e, Epg.startTimestamp p = JS.Int s ∧ Epg.endTimestamp p = JS.Int e
         ∧ (s ≤ now < e)%Z.

Definition sampleProgram : Epg.EpgProgram :=
  {| Epg.p_id := js "1"; Epg.channelId := js "tf1";
     Epg.title := js "Journal"; Epg.description := [];
     Epg.startTimestamp := JS.Int 1700000000000;
     Epg.endTimestamp := JS.Int 1700003600000 |}.

(** The base64 alphabet, padding sign included. *)
Definition base64Alphabet (c : N) : bool :=
  JS.isUpper c || JS.isLower c || JS.isDigit c
  || (c =? 43)%N || (c =? 47)%N || (c =? 61)%N.

(** The control characters that the decoding step looks for. *)
Definition isControl (c : N) : bool := JS.between 0 8 c || JS.between 14 31 c.

(** [text] passes every check of the decoding step and [t] is what it
    decodes to: it is written in the base64 alphabet, is longer than four
    characters, [atob] accepts it, the decoded string is free of control
    characters, and [decodeURIComponent(escape(...))] accepts that string,
    which is the case when its characters are the octets of well-formed
    UTF-8. *)
Definition decodesTo (text t : jsstring) : Prop :=
  Forall (λ c, base64Alphabet c = true) text
  ∧ (4 < length text)%nat
  ∧ ∃ decoded,
      Xtream.atob text = Some decoded
      ∧ Forall (λ c, isControl c = false) decoded
      ∧ Xtream.decodeURIComponent (Xtream.escape decoded) = Some t.

(** [result] partitions the records of [channels] selected by [matching]
    along [keyOf]: there is one group per key, the keys are pairwise
    distinct, every selected record has its key among them, the variants of
    a group are, in input order, the selected records with the key of the
    group, no group is empty, and the sizes of the groups add up to the
    number of selected records. *)
Definition partitions (matching : Channel → bool) (keyOf : Channel → jsstring)
    (channels : list Channel) (result : list DeduplicatedContent) : Prop :=
  (∃ keys,
      NoDup keys
      ∧ (∀ ch, ch ∈ channels → matching ch = true → keyOf ch ∈ keys)
      ∧ Forall2 (λ g key,
           variants g =
           map Deduplicator.toVariant
             (List.filter (λ ch, matching ch && JS.eqb (keyOf ch) key) channels))
         result keys)
  ∧ Forall (λ g, variants g ≠ []) result
  ∧ sum_list (map (λ g, length (variants g)) result)
    = length (List.filter matching channels).

(** The grouping loops, run over the records [l] with the key function
    [keyOf]. *)
Definition grouped (keyOf : Channel → jsstring) (l : list Channel)
    : list (jsstring * list Channel) :=
  foldl (λ groups ch, Deduplicator.addToGroup (keyOf ch) ch groups) [] l.

(** What the map of the grouping loop holds after the records [l]: one entry
    per key met, and under each key the records with that key, in order. *)
Definition groupsOf (keyOf : Channel → jsstring) (l : list Channel)
    (gs : list (jsstring * list Channel)) : Prop :=
  NoDup gs.*1
  ∧ (∀ ch, ch ∈ l → keyOf ch ∈ gs.*1)
  ∧ Forall (λ g, g.2 ≠ [] ∧ g.2 = List.filter (λ ch, JS.eqb (keyOf ch) g.1) l) gs.

(** An upper bound of the texts a pattern can consume, the assertions
    being read as the empty text. *)
Fixpoint consumes (ic : bool) (r : Regex.regex) (w : jsstring) : Prop :=
  match r with
  | Regex.Empty | Regex.InputStart | Regex.InputEnd | Regex.WordBoundary
  | Regex.NotFollowedBy _ => w = []
  | Regex.Char c => ∃ d, w = [d] ∧ Regex.canon ic c = Regex.canon ic d
  | Regex.CharSet negated rs =>
      ∃ d, w = [d] ∧ Regex.classMatches ic negated rs d = true
  | Regex.Any => ∃ d, w = [d] ∧ JS.isLineTerminator d = false
  | Regex.Digit => ∃ d, w = [d] ∧ JS.isDigit d = true
  | Regex.Space => ∃ d, w = [d] ∧ JS.isSpace d = true
  | Regex.Seq a b => ∃ u v, w = u ++ v ∧ consumes ic a u ∧ consumes ic b v
  | Regex.Alt a b => consumes ic a w ∨ consumes ic b w
  | Regex.Repeat mn mx a =>
      ∃ ws, w = concat ws ∧ Forall (consumes ic a) ws
            ∧ (mn ≤ length ws)%nat
            ∧ ∀ m, mx = Some m → (length ws ≤ m)%nat
  | Regex.Group _ a => consumes ic a w
  end.

(** Every group [n] of the pattern consumes texts that satisfy [G n], and
    the bounds of every quantifier are in order. *)
Fixpoint capturesWithin (ic : bool) (G : nat → jsstring → Prop)
    (r : Regex.regex) : Prop :=
  match r with
  | Regex.Seq a b | Regex.Alt a b =>
      capturesWithin ic G a ∧ capturesWithin ic G b
  | Regex.Repeat mn mx a =>
      capturesWithin ic G a ∧ ∀ m, mx = Some m → (mn ≤ m)%nat
  | Regex.NotFollowedBy a => capturesWithin ic G a
  | Regex.Group n a => capturesWithin ic G a ∧ ∀ w, consumes ic a w → G n w
  | _ => True
  end.

Definition capturesOK (G : nat → jsstring → Prop)
    (cs : list (nat * jsstring)) : Prop :=
  ∀ n w, (n, w) ∈ cs → G n w.

(** One or two decimal digits. *)
Definition oneOrTwoDigits (w : jsstring) : Prop :=
  (∃ a, w = [a] ∧ JS.isDigit a = true)
  ∨ (∃ a b, w = [a; b] ∧ JS.isDigit a = true ∧ JS.isDigit b = true).

(** What a matcher guarantees about the state it hands to its continuation:
    the captures still satisfy [G], and the text consumed on the way
    satisfies [A]. *)
Definition sound (G : nat → jsstring → Prop)
    (m : (Regex.mstate → option Regex.mstate) → Regex.mstate → option Regex.mstate)
    (A : jsstring → Prop) : Prop :=
  ∀ k x y, capturesOK G (Regex.caps x) → m k x = Some y →
    ∃ x' w, k x' = Some y ∧ capturesOK G (Regex.caps x')
            ∧ Regex.rest x = w ++ Regex.rest x'
            ∧ Regex.pos x' = (Regex.pos x + length w)%nat ∧ A w.

(** The groups that are set whenever the pattern matches. *)
Fixpoint defines (r : Regex.regex) : list nat :=
  match r with
  | Regex.Seq a b =>
      filter (λ n, n ∉ Regex.groupsOf b) (defines a) ++ defines b
  | Regex.Alt a b => filter (λ n, n ∈ defines b) (defines a)
  | Regex.Group n a => n :: defines a
  | _ => []
  end.

(** From state [x] to state [x']: the groups of [ds] are set, and the groups
    outside [gs] that were set still are. *)
Definition keeps (ds gs : list nat) (x x' : Regex.mstate) : Prop :=
  ∀ n, ((n ∈ ds) ∨ ((n ∉ gs) ∧ is_Some (Regex.getCap n (Regex.caps x)))) →
       is_Some (Regex.getCap n (Regex.caps x')).

Definition sampleRecord (i n : string) (live : bool) (t : StreamType) : Channel :=
  {| id := js i; name := js n; url := js "http://host/" ++ js i;
     logo := None; group := Some (js "News"); tvgId := None; tvgName := None;
     epgUrl := None; catchup := None; catchupDays := None;
     catchupSource := None; userAgent := None; referrer := None;
     isLive := Some live; streamType := Some t |}.

(** Kinds of playlist lines, as the parsing loop tells them apart. *)
Definition isExtinfLine (rawLine : jsstring) : bool :=
  JS.startsWith (JS.trim rawLine) (js "#EXTINF:").

Definition isUrlLine (rawLine : jsstring) : bool :=
  M3U.isStreamUrl (JS.trim rawLine).

(** Neither an [#EXTINF:] directive nor a stream URL: blank lines, comments,
    other directives, the header, and text that is not a URL. *)
Definition isOtherLine (rawLine : jsstring) : bool :=
  negb (isExtinfLine rawLine) && negb (isUrlLine rawLine).

(** Neither a directive nor a stream URL: text the parser cannot read. *)
Definition isUnparsableLine (rawLine : jsstring) : bool :=
  negb (JS.startsWith (JS.trim rawLine) (js "#")) && negb (isUrlLine rawLine).

Definition count (f : jsstring → bool) (lines : list jsstring) : nat :=
  length (List.filter f lines).

(** Lines joined by line feeds. *)
Fixpoint joinLines (lines : list jsstring) : jsstring :=
  match lines with
  | [] => []
  | [l] => l
  | l :: ls => l ++ 10%N :: joinLines ls
  end.

(** 1 when an [#EXTINF] line is waiting for its URL. *)
Definition pending `{Host} (st : M3U.LoopState) : nat :=
  match M3U.currentData st with
  | Some _ => 1
  | None => 0
  end.

Definition samplePlaylist : list jsstring :=
  map js [ "#EXTM3U"; "#EXTINF:-1,Orphan"; "# a comment";
           "#EXTINF:-1 group-title=News,FR | TF1";
           "http://host/live/1.m3u8" ]%string.

Definition samplePlaylistWithoutOrphan : list jsstring :=
  map js [ "#EXTM3U"; "# a comment";
           "#EXTINF:-1 group-title=News,FR | TF1";
           "http://host/live/1.m3u8" ]%string.

(** State [y] lies ahead of state [x] in the same input. *)
Definition reaches (x y : Regex.mstate) : Prop :=
  ∃ w, Regex.rest x = w ++ Regex.rest y
       ∧ Regex.pos y = (Regex.pos x + length w)%nat.

(** A matcher only ever calls its continuation on states ahead of its own. *)
Definition forwardOnly
    (m : (Regex.mstate → option Regex.mstate) → Regex.mstate → option Regex.mstate)
    : Prop :=
  ∀ k k' x, (∀ y, reaches x y → k y = k' y) → m k x = m k' x.

Definition asciiLetter (c : N) : bool := JS.isUpper c || JS.isLower c.

(** The separators that the final cleaning of a title replaces by spaces. *)
Definition isSeparator (c : N) : bool :=
  (c =? code ":")%N || (c =? code "-")%N || (c =? code "|")%N.

(** No white space at either end. *)
Definition trimmed (s : jsstring) : Prop :=
  (∀ c, head s = Some c → JS.isSpace c = false)
  ∧ (∀ c, last s = Some c → JS.isSpace c = false).

(** A pattern whose quantifiers have their bounds in order. *)
Definition boundsInOrder (ic : bool) (r : Regex.regex) : Prop :=
  capturesWithin ic (λ _ _, True) r.

(** The elements of a list in the order of their first occurrence. *)
Fixpoint firstOccurrences (l : list jsstring) : list jsstring :=
  match l with
  | [] => []
  | x :: l' => x :: List.filter (λ y, negb (JS.eqb y x)) (firstOccurrences l')
  end.

(** Strictly ascending in the order of the code units. *)
Definition ascending (l : list jsstring) : Prop :=
  StronglySorted (λ a b, JS.ltb a b = true) l.

(** Neither white space nor a vertical bar at either end. *)
Definition bare (s : jsstring) : Prop :=
  ∀ c, head s = Some c ∨ last s = Some c →
       JS.isSpace c = false ∧ c ≠ code "|".

(** The group [g] stands for the records of [channels] selected by
    [matching] whose key is [key]: there is at least one, the first one
    gives the group its id, name, logo, group name and metadata, and all of
    them, in input order, are its variants. *)
Definition representedBy (type : ContentType) (matching : Channel → bool)
    (keyOf : Channel → jsstring) (channels : list Channel)
    (g : DeduplicatedContent) (key : jsstring) : Prop :=
  ∃ first others,
    List.filter (λ ch, matching ch && JS.eqb (keyOf ch) key) channels
      = first :: others
    ∧ d_id g = id first
    ∧ d_name g = cleanName (ContentParser.parseContentMetadata (name first))
    ∧ d_logo g = logo first
    ∧ d_group g = group first
    ∧ d_type g = type
    ∧ d_metadata g = ContentParser.parseContentMetadata (name first)
    ∧ variants g = map Deduplicator.toVariant (first :: others).

(** The result of a deduplication lists one group per key, in the order in
    which the keys first occur among the selected records. *)
Definition inOrderOfFirstOccurrence (type : ContentType)
    (matching : Channel → bool) (keyOf : Channel → jsstring)
    (channels : list Channel) (result : list DeduplicatedContent) : Prop :=
  Forall2 (representedBy type matching keyOf channels) result
          (firstOccurrences (map keyOf (List.filter matching channels))).

Definition sampleFilm (vs : list ContentVariant) : DeduplicatedContent :=
  {| d_id := js "f"; d_name := js "Film"; d_logo := None; d_group := None;
     d_type := TMovie; d_metadata := sampleMetadata "Film"; variants := vs |}.

Definition sampleDub (i : string) (q : option Quality) (l : string)
    : ContentVariant :=
  {| v_id := js i; v_url := js "http://host/" ++ js i;
     v_quality := q; v_language := Some (js l) |}.

(** The characters of an id in base 36. *)
Definition isBase36 (c : N) : bool := JS.isDigit c || JS.isLower c.

(** The 32-bit hash that [generateChannelId] computes over the name, a
    hyphen and the URL. *)
Definition channelHash (name url : jsstring) : Z :=
  foldl (λ hash char, M3U.toInt32 (M3U.toInt32 (hash * 32) - hash + Z.of_N char))
        0%Z (name ++ js "-" ++ url).

(** The number that a numeral in base 36 denotes. *)
Definition base36Value (s : jsstring) : Z :=
  foldl (λ acc c, (36 * acc
                   + (if JS.isDigit c then Z.of_N c - 48 else Z.of_N c - 87))%Z)
        0%Z s.

(** What every record produced by the playlist parser satisfies. *)
Definition wellFormedRecord (ch : Channel) : Prop :=
  M3U.isStreamUrl (url ch) = true
  ∧ trimmed (url ch)
  ∧ name ch ≠ []
  ∧ (∃ g, group ch = Some g ∧ g ≠ [])
  ∧ (∃ t, streamType ch = Some t ∧ isLive ch = Some (bool_decide (t = Live))).


(** A pattern that reads exactly one character, chosen by the test [p]. *)
Definition readsOne (ic : bool) (r : Regex.regex) (p : N → bool) : Prop :=
  (∀ k x, Regex.run ic r k x = Regex.single p k x)
  ∧ boundsInOrder ic r
  ∧ ∀ w, consumes ic r w → ∃ d, w = [d].

(** The group name under which [extractCategories] counts a record. *)
Definition groupName (ch : Channel) : jsstring :=
  M3U.orElse (group ch) M3U.unclassified.

(** What [localeCompare] has to satisfy for a sort to be meaningful. *)
Definition consistentComparator (compare : jsstring → jsstring → Z) : Prop :=
  (∀ a b, (compare a b ≤ 0)%Z ∨ (compare b a ≤ 0)%Z)
  ∧ (∀ a b c, (compare a b ≤ 0)%Z → (compare b c ≤ 0)%Z → (compare a c ≤ 0)%Z).

(** The comparison of two strings by their code units. *)
Definition compareCodeUnits (a b : jsstring) : Z :=
  if JS.ltb a b then (-1)%Z else if JS.ltb b a then 1%Z else 0%Z.

(** All the records of several playlists, in order. *)
Definition allRecords (playlists : list M3U.Playlist) : list Channel :=
  concat (map M3U.pl_channels playlists).

Definition samplePlaylists : list M3U.Playlist :=
  [ {| M3U.pl_id := js "a"; M3U.pl_name := js "A"; M3U.source := M3U.SFile;
       M3U.pl_channels := [sampleRecord "1" "TF1" true Live;
                           sampleRecord "2" "Arte" true Live];
       M3U.pl_categories := []; M3U.addedAt := 0 |};
    {| M3U.pl_id := js "b"; M3U.pl_name := js "B"; M3U.source := M3U.SUrl;
       M3U.pl_channels := [sampleRecord "3" "M6" true Live];
       M3U.pl_categories := []; M3U.addedAt := 0 |} ].

(** A programme starts after [now]. *)
Definition startsLater (now : Z) (p : Epg.EpgProgram) : Prop :=
  ∃ s, Epg.startTimestamp p = JS.Int s ∧ (now < s)%Z.

Definition sampleNextProgram : Epg.EpgProgram :=
  {| Epg.p_id := js "2"; Epg.channelId := js "tf1";
     Epg.title := js "Film"; Epg.description := [];
     Epg.startTimestamp := JS.Int 1700003600000;
     Epg.endTimestamp := JS.Int 1700010800000 |}.

Definition sampleCredentials : Xtream.XtreamCredentials :=
  {| Xtream.serverUrl := js "host:8080/"; Xtream.username := js "u";
     Xtream.password := js "p" |}.

Definition sampleStream : Xtream.XtreamLiveStream :=
  {| Xtream.stream_name := js "TF1"; Xtream.stream_id := JS.Int 1042;
     Xtream.stream_icon := []; Xtream.epg_channel_id := js "tf1.fr";
     Xtream.category_id := js "7" |}.

(** *** The standard base64 encoding *)

(** The character that stands for a sextet. *)
Definition base64Char (v : N) : N :=
  (if v <? 26 then 65 + v
   else if v <? 52 then 97 + (v - 26)
   else if v <? 62 then 48 + (v - 52)
   else if v =? 62 then 43 else 47)%N.

(** The encoding of a sequence of octets: three octets give four
    characters, and an incomplete last group is padded with equals signs. *)
Fixpoint base64 (octets : list N) : jsstring :=
  match octets with
  | a :: b :: c :: more =>
      base64Char (a / 4) :: base64Char ((a mod 4) * 16 + b / 16)
      :: base64Char ((b mod 16) * 4 + c / 64) :: base64Char (c mod 64)
      :: base64 more
  | [a; b] =>
      [base64Char (a / 4); base64Char ((a mod 4) * 16 + b / 16);
       base64Char ((b mod 16) * 4); 61]
  | [a] => [base64Char (a / 4); base64Char ((a mod 4) * 16); 61; 61]
  | [] => []
  end%N.

(** A text written in ASCII without the control characters that the
    decoding step looks for. *)
Definition plainAscii (t : jsstring) : Prop :=
  Forall (λ c, (c < 128)%N ∧ isControl c = false) t.

(** Lines joined by carriage return and line feed. *)
Fixpoint joinLinesCRLF (lines : list jsstring) : jsstring :=
  match lines with
  | [] => []
  | [l] => l
  | l :: ls => l ++ 13%N :: 10%N :: joinLinesCRLF ls
  end.

(** A line without line feed and carriage return. *)
Definition oneLine (l : jsstring) : Prop := (10%N ∉ l) ∧ (13%N ∉ l).


Local Close Scope N_scope.

(** * Properties *)

(** ** Quality selection *)

Section Selection.
Import QualitySelection Deduplicator.

Lemma insertByRank_perm a l : insertByRank a l ≡ₚ a :: l.
Proof.
  induction l as [|b l IH]; simpl; [done|].
  case_match; [done|].
  rewrite IH. apply Permutation_swap.
Qed.

Lemma sortByRank_perm l : sortByRank l ≡ₚ l.
Proof.
  induction l as [|a l IH]; simpl; [done|].
  by rewrite insertByRank_perm, IH.
Qed.

Lemma ranksBefore_trans a b c : ranksBefore a b → ranksBefore b c → ranksBefore a c.
Proof. unfold ranksBefore. lia. Qed.

Lemma insertByRank_sorted a l :
  StronglySorted ranksBefore l →
  Forall (λ b, (fst a < fst b)%nat) l →
  StronglySorted ranksBefore (insertByRank a l).
Proof.
  induction 1 as [|b l Hl IH Hb]; intros Ha; simpl.
  - repeat constructor.
  - apply Forall_cons in Ha as [Hab Ha].
    destruct (Z.leb_spec (rank (snd a)) (rank (snd b))) as [Hle|Hgt].
    + constructor; [by constructor|].
      assert (ranksBefore a b) as Hfirst by (unfold ranksBefore; lia).
      constructor; [done|].
      eapply Forall_impl; [exact Hb|].
      intros c Hc. by eapply ranksBefore_trans.
    + constructor; [by apply IH|].
      rewrite insertByRank_perm. constructor; [|done].
      unfold ranksBefore. lia.
Qed.

Lemma sortByRank_sorted l :
  StronglySorted (λ a b : entry, (fst a < fst b)%nat) l →
  StronglySorted ranksBefore (sortByRank l).
Proof.
  induction 1 as [|a l Hl IH Ha]; simpl; [constructor|].
  apply insertByRank_sorted; [done|].
  by rewrite sortByRank_perm.
Qed.

Lemma entries_increasing (vs : list ContentVariant) k :
  StronglySorted (λ a b : entry, (fst a < fst b)%nat)
    (imap (λ i v, ((k + i)%nat, v_quality v)) vs).
Proof.
  revert k. induction vs as [|v vs IH]; intros k; simpl; [constructor|].
  constructor.
  - specialize (IH (S k)).
    erewrite imap_ext; [exact IH|].
    intros i x _. simpl. f_equal. lia.
  - apply Forall_forall. intros e He.
    apply elem_of_lookup_imap in He as (i & x & -> & _). simpl. lia.
Qed.

Lemma sortedIndices_sorted vs : StronglySorted ranksBefore (sortedIndices vs).
Proof. apply sortByRank_sorted, (entries_increasing vs 0). Qed.

Lemma sortedIndices_elem vs e :
  e ∈ sortedIndices vs ↔ ∃ v, vs !! fst e = Some v ∧ snd e = v_quality v.
Proof.
  unfold sortedIndices. rewrite sortByRank_perm, elem_of_lookup_imap.
  split.
  - intros (i & v & -> & Hv). eauto.
  - intros (v & Hv & Hq). exists (fst e), v. by destruct e; simplify_eq/=.
Qed.

Lemma find_first {A} (R : A → A → Prop) (P : A → bool) l e :
  StronglySorted R l →
  find P l = Some e →
  P e = true ∧ e ∈ l ∧ ∀ x, x ∈ l → P x = true → x = e ∨ R e x.
Proof.
  induction 1 as [|a l Hl IH Ha]; simpl; [done|].
  destruct (P a) eqn:HPa.
  - intros [= ->]. split_and!; [done|by left|].
    intros x [->|Hx]%elem_of_cons _; [by left|right].
    by eapply Forall_forall in Ha.
  - intros Hf. destruct (IH Hf) as (HP & He & Hmin).
    split_and!; [done|by right|].
    intros x [->|Hx]%elem_of_cons HPx; [congruence|by apply Hmin].
Qed.

Lemma find_none_all {A} (P : A → bool) l :
  find P l = None → ∀ x, x ∈ l → P x = false.
Proof.
  intros Hf x Hx. apply list_elem_of_In in Hx.
  by eapply find_none in Hf.
Qed.

(** The index computed by [selectBestQuality] designates the choice
    described by [chosen]. *)
Lemma selectBestQuality_chosen vs q :
  vs ≠ [] →
  ∃ v, chosen (indexOf q) vs (selectBestQuality vs q) v.
Proof.
  intros Hne. unfold selectBestQuality.
  pose proof (sortedIndices_sorted vs) as Hsorted.
  match goal with
  | |- context [find ?P ?l] => destruct (find P l) as [e|] eqn:Hfind
  end.
  - destruct (find_first _ _ _ _ Hsorted Hfind) as (HP & He & Hmin).
    apply sortedIndices_elem in He as (v & Hv & Hq).
    apply Z.leb_le in HP.
    exists v. split_and!; [done| |].
    + intros j w Hw Hpw. rewrite <- Hq. split; [done|].
      destruct (Hmin (j, v_quality w)) as [Heq|Hlt].
      * apply sortedIndices_elem. eauto.
      * by apply Z.leb_le.
      * left. by rewrite <- Heq.
      * right. by destruct e.
    + intros Hall. exfalso.
      apply list_elem_of_lookup_2 in Hv. specialize (Hall _ Hv).
      rewrite <- Hq in Hall. lia.
  - destruct (sortedIndices vs) as [|e l] eqn:Hs.
    + exfalso. apply Hne.
      pose proof (sortByRank_perm (imap (λ i v, (i, v_quality v)) vs)) as Hp.
      unfold sortedIndices in Hs. rewrite Hs in Hp.
      apply Permutation_nil in Hp. by destruct vs.
    + assert (e ∈ sortedIndices vs) as He by (rewrite Hs; by left).
      apply sortedIndices_elem in He as (v & Hv & Hq).
      exists v. split_and!; [done| |].
      * intros j w Hw Hpw. exfalso.
        assert ((j, v_quality w) ∈ e :: l) as Hin.
        { rewrite <- Hs. apply sortedIndices_elem. eauto. }
        apply (find_none_all _ _ Hfind) in Hin. simpl in Hin.
        apply Z.leb_gt in Hin. lia.
      * intros _ j w Hw.
        assert ((j, v_quality w) ∈ e :: l) as Hin.
        { rewrite <- Hs. apply sortedIndices_elem. eauto. }
        apply StronglySorted_inv in Hsorted as [_ Hhd].
        apply elem_of_cons in Hin as [Heq|Hin].
        -- left. by rewrite <- Heq.
        -- right. eapply Forall_forall in Hhd; [|done].
           rewrite <- Hq. by destruct e.
Qed.

End Selection.

Section VariantSelection.
Import QualitySelection Deduplicator.

Lemma atOrFirst_chosen vs q :
  vs ≠ [] →
  ∃ v, atOrFirst vs (selectBestQuality vs q) = Some v
       ∧ chosen (indexOf q) vs (selectBestQuality vs q) v.
Proof.
  intros Hne. destruct (selectBestQuality_chosen vs q Hne) as [v Hv].
  exists v. split; [|done].
  unfold atOrFirst. by destruct Hv as [-> _].
Qed.

Lemma chosen_elem p vs i v : chosen p vs i v → v ∈ vs.
Proof. intros [Hv _]. by eapply list_elem_of_lookup_2. Qed.

Lemma byLanguageThenQuality_elem vs lang :
  vs ≠ [] → ∃ v, byLanguageThenQuality vs lang = Some v ∧ v ∈ vs.
Proof.
  intros Hne. unfold byLanguageThenQuality.
  destruct (find _ vs) as [v|] eqn:Hfind.
  - apply find_some in Hfind as [Hin _]. exists v.
    by rewrite list_elem_of_In.
  - destruct (atOrFirst_chosen vs FHD Hne) as (v & -> & Hv).
    eauto using chosen_elem.
Qed.

(** What [selectBestVariant] does for a channel with several variants. *)
Lemma selectBestVariant_channel content preferences :
  d_type content = TChannel →
  (2 ≤ length (variants content))%nat →
  ∃ v, selectBestVariant content preferences = Some v
       ∧ chosen (indexOf (defaultQuality (channels preferences)))
                (variants content)
                (selectBestQuality (variants content)
                                   (defaultQuality (channels preferences))) v.
Proof.
  intros Hty Hlen. unfold selectBestVariant. rewrite Hty.
  destruct (variants content) as [|a [|b vs]] eqn:Hvs; simpl in Hlen; [lia..|].
  by apply atOrFirst_chosen.
Qed.

Lemma rank_tagged q : (rank (Some q) < rank None)%Z.
Proof. by destruct q. Qed.

(** C10: for a content whose variants list is not empty, [selectBestVariant]
    returns one of its variants, whatever the preferences; and the index
    computed by [selectBestQuality] lies within the bounds of the list. *)
Theorem C10_selectBestVariant_returns_a_variant content preferences :
  variants content ≠ [] →
  (∃ v, selectBestVariant content preferences = Some v ∧ v ∈ variants content)
  ∧ ∀ q, (selectBestQuality (variants content) q < length (variants content))%nat.
Proof.
  intros Hne. split.
  - unfold selectBestVariant.
    destruct (variants content) as [|a [|b vs]] eqn:Hvs; [done| |].
    + exists a. split; [done|by left].
    + destruct (d_type content).
      * destruct (atOrFirst_chosen (a :: b :: vs)
                    (defaultQuality (channels preferences))) as (v & -> & Hv);
          [done|]. eauto using chosen_elem.
      * by apply byLanguageThenQuality_elem.
      * by apply byLanguageThenQuality_elem.
  - intros q. destruct (selectBestQuality_chosen _ q Hne) as (v & Hv & _).
    by eapply lookup_lt_Some.
Qed.

Lemma C10_witness :
  (∃ v, selectBestVariant
          (sampleChannel [sampleVariant "a" None; sampleVariant "b" (Some SD)])
          (samplePreferences QAuto) = Some v
        ∧ v ∈ [sampleVariant "a" None; sampleVariant "b" (Some SD)])
  ∧ ∀ q, (selectBestQuality
            [sampleVariant "a" None; sampleVariant "b" (Some SD)] q < 2)%nat.
Proof.
  apply (C10_selectBestVariant_returns_a_variant
           (sampleChannel [sampleVariant "a" None; sampleVariant "b" (Some SD)])
           (samplePreferences QAuto)).
  simpl. discriminate.
Defined.

(** C1 (as the code has it): for a channel with two or more variants, the
    variants are ranked by the fixed order 4K, FHD, HD, SD, the variants
    without a detected quality after all the others and ties in list order;
    [selectBestVariant] returns the first variant of that ranking whose tier
    is the preferred tier or a lower one (a variant without quality counting
    as lower than every tier), and the first variant of the ranking when
    every variant has a tier above the preferred one. *)
Theorem C1_channel_selection_at_or_below_preference content preferences :
  d_type content = TChannel →
  (2 ≤ length (variants content))%nat →
  (rank (Some Q4K) < rank (Some FHD) < rank (Some HD))%Z
  ∧ (rank (Some HD) < rank (Some SD))%Z
  ∧ (∀ q, rank (Some q) < rank None)%Z
  ∧ StronglySorted ranksBefore (sortedIndices (variants content))
  ∧ (∀ e, e ∈ sortedIndices (variants content) ↔
          ∃ v, variants content !! fst e = Some v ∧ snd e = v_quality v)
  ∧ ∃ i v, selectBestVariant content preferences = Some v
           ∧ chosen (indexOf (defaultQuality (channels preferences)))
                    (variants content) i v.
Proof.
  intros Hty Hlen. split_and!; try done.
  - apply rank_tagged.
  - apply sortedIndices_sorted.
  - apply sortedIndices_elem.
  - destruct (selectBestVariant_channel content preferences Hty Hlen)
      as (v & Hsel & Hv). eauto.
Qed.

Lemma C1_witness :
  ∃ i v,
    selectBestVariant
      (sampleChannel [sampleVariant "a" (Some Q4K); sampleVariant "b" (Some HD)])
      (samplePreferences FHD) = Some v
    ∧ chosen (indexOf FHD)
             [sampleVariant "a" (Some Q4K); sampleVariant "b" (Some HD)] i v.
Proof.
  apply (C1_channel_selection_at_or_below_preference
           (sampleChannel [sampleVariant "a" (Some Q4K); sampleVariant "b" (Some HD)])
           (samplePreferences FHD)); simpl; [reflexivity|lia].
Defined.

(** C1 fails as stated: with the variants 4K and HD and the preference FHD,
    the closest tier at or above the preference is 4K, yet the HD variant is
    returned, whose tier is below the preference. *)
Lemma C1_counterexample :
  selectBestVariant
    (sampleChannel [sampleVariant "a" (Some Q4K); sampleVariant "b" (Some HD)])
    (samplePreferences FHD) = Some (sampleVariant "b" (Some HD))
  ∧ tierAtLeast Q4K FHD
  ∧ ¬ tierAtLeast HD FHD.
Proof.
  split_and!.
  - reflexivity.
  - cbv. discriminate.
  - cbv. intros H. by apply H.
Qed.

(** C4: for a channel whose variants carry exactly the tiers HD and SD and
    a preferred quality FHD, [selectBestVariant] returns an HD variant. *)
Theorem C4_fallback_to_HD content preferences :
  d_type content = TChannel →
  defaultQuality (channels preferences) = FHD →
  (∀ v, v ∈ variants content → v_quality v = Some HD ∨ v_quality v = Some SD) →
  (∃ v, v ∈ variants content ∧ v_quality v = Some HD) →
  (∃ v, v ∈ variants content ∧ v_quality v = Some SD) →
  ∃ v, selectBestVariant content preferences = Some v
       ∧ v ∈ variants content ∧ v_quality v = Some HD.
Proof.
  intros Hty Hpref Hall (h & Hh & Hhq) (s & Hs & Hsq).
  assert (2 ≤ length (variants content))%nat as Hlen.
  { destruct (variants content) as [|a [|b vs]]; simpl; [|exfalso|lia].
    - by apply elem_of_nil in Hh.
    - apply list_elem_of_singleton in Hh, Hs. congruence. }
  destruct (selectBestVariant_channel content preferences Hty Hlen)
    as (v & Hsel & Hv).
  exists v. split; [done|]. split; [by eapply chosen_elem|].
  rewrite Hpref in Hv. destruct Hv as (Hi & Hfirst & _).
  apply list_elem_of_lookup_1 in Hh as [j Hj].
  destruct (Hfirst j h Hj) as [_ Hbefore]; [by rewrite Hhq|].
  assert (rank (v_quality v) ≤ rank (v_quality h))%Z as Hle.
  { destruct Hbefore as [->|Hb]; [by simplify_eq|].
    unfold ranksBefore in Hb. simpl in Hb. lia. }
  destruct (Hall v) as [Hq|Hq]; [by eapply list_elem_of_lookup_2|done|].
  rewrite Hq, Hhq in Hle. by compute in Hle.
Qed.

Lemma C4_witness :
  ∃ v, selectBestVariant
         (sampleChannel [sampleVariant "a" (Some SD); sampleVariant "b" (Some HD)])
         (samplePreferences FHD) = Some v
       ∧ v ∈ [sampleVariant "a" (Some SD); sampleVariant "b" (Some HD)]
       ∧ v_quality v = Some HD.
Proof.
  apply (C4_fallback_to_HD
           (sampleChannel [sampleVariant "a" (Some SD); sampleVariant "b" (Some HD)])
           (samplePreferences FHD)); simpl.
  - reflexivity.
  - reflexivity.
  - intros v Hv. apply elem_of_cons in Hv as [->|Hv]; [by right|].
    apply list_elem_of_singleton in Hv as ->. by left.
  - exists (sampleVariant "b" (Some HD)). split; [|reflexivity].
    apply elem_of_cons. right. apply list_elem_of_singleton. reflexivity.
  - exists (sampleVariant "a" (Some SD)). split; [|reflexivity].
    apply elem_of_cons. by left.
Defined.

End VariantSelection.

(** ** The current programme *)

Section CurrentProgram.
Import Epg.

Lemma airsAt_onAirClosed now p : airsAt now p = true ↔ onAirClosed now p.
Proof.
  unfold airsAt, onAirClosed, le.
  destruct (startTimestamp p) as [|s], (endTimestamp p) as [|e]; simpl.
  - split; [done|]. by intros (? & ? & ? & _).
  - split; [done|]. by intros (? & ? & ? & _).
  - split; [by rewrite andb_false_r|]. by intros (? & ? & _ & ? & _).
  - rewrite andb_true_iff, !Z.leb_le. split.
    + intros [? ?]. by exists s, e.
    + intros (? & ? & [= <-] & [= <-] & ?). done.
Qed.

Lemma find_Some_first {A} (P : A → bool) (l : list A) x :
  find P l = Some x ↔
  ∃ i, l !! i = Some x ∧ P x = true
       ∧ ∀ j y, (j < i)%nat → l !! j = Some y → P y = false.
Proof.
  induction l as [|a l IH]; simpl.
  - split; [done|]. by intros (i & ? & _).
  - destruct (P a) eqn:Ha.
    + split.
      * intros [= ->]. exists 0%nat. split_and!; [done..|]. intros; lia.
      * intros ([|i] & Hi & Hx & Hbefore); [by simplify_eq/=|].
        specialize (Hbefore 0%nat a). simpl in Hbefore.
        rewrite Hbefore in Ha; [done|lia|done].
    + rewrite IH. split.
      * intros (i & Hi & Hx & Hbefore). exists (S i). split_and!; [done..|].
        intros [|j] y Hj Hy; simplify_eq/=; [done|].
        eapply Hbefore; [|done]. lia.
      * intros ([|i] & Hi & Hx & Hbefore); simplify_eq/=; [congruence|].
        exists i. split_and!; [done..|].
        intros j y Hj Hy. apply (Hbefore (S j) y); [lia|done].
Qed.

Lemma find_None_all {A} (P : A → bool) (l : list A) :
  find P l = None ↔ ∀ x, x ∈ l → P x = false.
Proof.
  split; [apply find_none_all|].
  intros Hall. destruct (find P l) as [x|] eqn:Hf; [|done].
  apply find_some in Hf as [Hin HP]. apply list_elem_of_In in Hin.
  rewrite (Hall _ Hin) in HP. done.
Qed.

(** C2 (as the code has it): [getCurrentProgram] returns the first cached
    programme, in stored order, whose interval contains the current time,
    both ends of the interval included; it returns none exactly when the
    channel has no cached entry or no cached programme is on the air in that
    sense. *)
Theorem C2_current_program_closed_interval
    (epgData : gmap jsstring (list EpgProgram)) (now : Z) (channelId : jsstring) :
  (∀ p, getCurrentProgram epgData now channelId = Some p ↔
        ∃ programs i,
          epgData !! channelId = Some programs
          ∧ programs !! i = Some p
          ∧ onAirClosed now p
          ∧ ∀ j q, (j < i)%nat → programs !! j = Some q → ¬ onAirClosed now q)
  ∧ (getCurrentProgram epgData now channelId = None ↔
       epgData !! channelId = None
       ∨ ∃ programs,
           epgData !! channelId = Some programs
           ∧ ∀ q, q ∈ programs → ¬ onAirClosed now q).
Proof.
  unfold getCurrentProgram.
  assert (∀ q, ¬ onAirClosed now q ↔ airsAt now q = false) as Hnot.
  { intros q. rewrite <- airsAt_onAirClosed. by destruct (airsAt now q). }
  destruct (epgData !! channelId) as [programs|] eqn:Hlookup.
  - assert (match programs with [] => None | _ :: _ => find (airsAt now) programs end
            = find (airsAt now) programs) as -> by (by destruct programs).
    split.
    + intros p. rewrite find_Some_first. split.
      * intros (i & Hi & Hp & Hbefore). exists programs, i.
        split_and!; [done..|by apply airsAt_onAirClosed|].
        intros j q Hj Hq. apply Hnot. eauto.
      * intros (? & i & [= <-] & Hi & Hp & Hbefore). exists i.
        split_and!; [done|by apply airsAt_onAirClosed|].
        intros j q Hj Hq. apply Hnot. eauto.
    + rewrite find_None_all. split.
      * intros Hall. right. exists programs. split; [done|].
        intros q Hq. apply Hnot. eauto.
      * intros [?|(? & [= <-] & Hall)]; [done|].
        intros q Hq. apply Hnot. eauto.
  - split.
    + intros p. split; [done|]. by intros (? & ? & ? & _).
    + split; [by left|done].
Qed.

(** C2 fails as stated: a programme whose end timestamp equals the current
    time is returned, although the current time is outside its half-open
    interval. *)
Lemma C2_counterexample :
  getCurrentProgram {[ js "tf1" := [sampleProgram] ]} 1700003600000 (js "tf1")
    = Some sampleProgram
  ∧ endTimestamp sampleProgram = JS.Int 1700003600000
  ∧ ¬ onAirHalfOpen 1700003600000 sampleProgram.
Proof.
  split_and!.
  - unfold getCurrentProgram. by rewrite lookup_singleton_eq.
  - reflexivity.
  - intros (s & e & _ & [= <-] & Hin). lia.
Qed.

Lemma C2_witness :
  getCurrentProgram {[ js "tf1" := [sampleProgram] ]} 1700000000000 (js "tf1")
    = Some sampleProgram.
Proof.
  apply (C2_current_program_closed_interval
           {[ js "tf1" := [sampleProgram] ]} 1700000000000 (js "tf1")).
  exists [sampleProgram], 0%nat. split_and!.
  - apply lookup_singleton_eq.
  - reflexivity.
  - exists 1700000000000%Z, 1700003600000%Z. split_and!; [done..|lia].
  - intros j q Hj. lia.
Defined.

End CurrentProgram.

(** ** The matcher, step by step *)

Section MatcherSteps.
Import Regex.

Lemma search_unfold ic r i p s :
  search ic r i p s =
  match matchAt ic r i p s with
  | Some m => Some m
  | None =>
      match s with
      | [] => None
      | c :: s' => search ic r (S i) (Some c) s'
      end
  end.
Proof. by destruct s. Qed.

Lemma search_anchored ic r i p s :
  search ic (Seq InputStart r) (S i) p s = None.
Proof.
  revert i p. induction s as [|c s IH]; intros i p;
    rewrite search_unfold; unfold matchAt; cbn [run pos Nat.eqb]; [done|].
  apply IH.
Qed.

(** A greedy repetition of a character class that must reach the end of the
    input succeeds exactly when every remaining character is in the class
    and there are enough of them. *)
Lemma repeat_class_to_end ic neg rs fuel mn x :
  (mn + length (rest x) < fuel)%nat →
  is_Some (repeatLoop (run ic (CharSet neg rs)) [] (run ic InputEnd Some)
                      fuel mn None x)
  ↔ Forall (λ c, classMatches ic neg rs c = true) (rest x)
    ∧ (mn ≤ length (rest x))%nat.
Proof.
  set (m := run ic (CharSet neg rs)). set (k := run ic InputEnd Some).
  assert (∀ k x, m k x = single (classMatches ic neg rs) k x) as Hm by done.
  assert (∀ x, k x = match rest x with [] => Some x | _ :: _ => None end)
    as Hk by done.
  clearbody m k.
  revert mn x. induction fuel as [|fuel IH]; intros mn x Hfuel; [lia|].
  cbn [repeatLoop maxReached]. rewrite Hm, Hk. unfold single.
  cbn [clearCaps rest pos].
  destruct (rest x) as [|c tl] eqn:Hrest.
  - destruct mn as [|mn]; cbn [Nat.eqb].
    + split; [by intros; split; [constructor|]|]. by eexists.
    + split; [by intros []|]. intros [_ ?]. simpl in *. lia.
  - change (pos (advance c tl (clearCaps [] x))) with (S (pos x)).
    assert (Nat.eqb (S (pos x)) (pos x) = false) as ->
      by (apply Nat.eqb_neq; lia).
    rewrite andb_false_r. simpl in Hfuel.
    destruct (classMatches ic neg rs c) eqn:Hc.
    + destruct mn as [|mn]; cbn [Nat.eqb Nat.pred fmap option_fmap option_map].
      * specialize (IH 0%nat (advance c tl (clearCaps [] x))).
        change (rest (advance c tl (clearCaps [] x))) with tl in IH.
        match goal with
        | |- context [repeatLoop m ?g k fuel 0 None ?y] =>
            destruct (repeatLoop m g k fuel 0 None y) as [z|] eqn:Hloop
        end.
        -- split; [|by eexists]. intros _.
           destruct IH as [IH _]; [lia|]. destruct IH as [Htl _]; [by eexists|].
           split; [by constructor|simpl; lia].
        -- split; [by intros []|].
           intros [Hall _]. apply Forall_cons in Hall as [_ Htl].
           destruct IH as [_ IH]; [lia|].
           destruct IH; [split; [done|lia]|done].
      * specialize (IH mn (advance c tl (clearCaps [] x))).
        change (rest (advance c tl (clearCaps [] x))) with tl in IH.
        rewrite IH by lia. rewrite Forall_cons. simpl. split.
        -- intros [? ?]. split; [done|lia].
        -- intros [[_ ?] ?]. split; [done|lia].
    + destruct mn as [|mn]; cbn [Nat.eqb].
      * split; [by intros []|].
        intros [Hall _]. apply Forall_cons in Hall as [Hc' _]. congruence.
      * split; [by intros []|].
        intros [Hall _]. apply Forall_cons in Hall as [Hc' _]. congruence.
Qed.

End MatcherSteps.

(** ** What the matcher captures *)

Section Captures.
Import Regex.

Variable ic : bool.
Variable G : nat → jsstring → Prop.

Lemma single_inv p k x y :
  single p k x = Some y →
  ∃ c tl, rest x = c :: tl ∧ p c = true ∧ k (advance c tl x) = Some y.
Proof.
  unfold single. destruct (rest x) as [|c tl]; [done|].
  destruct (p c) eqn:Hp; [|done]. eauto.
Qed.

Lemma capturesOK_filter (P : nat * jsstring → Prop) `{∀ e, Decision (P e)} cs :
  capturesOK G cs → capturesOK G (filter P cs).
Proof.
  intros Hcs n w Hin. apply list_elem_of_filter in Hin as [_ Hin]. by apply Hcs.
Qed.

Lemma repeatLoop_sound m A gs :
  sound G m A →
  ∀ fuel mn mx k x y,
    (∀ n, mx = Some n → (mn ≤ n)%nat) →
    capturesOK G (caps x) →
    repeatLoop m gs k fuel mn mx x = Some y →
    ∃ x' ws, k x' = Some y ∧ capturesOK G (caps x')
             ∧ rest x = concat ws ++ rest x'
             ∧ pos x' = (pos x + length (concat ws))%nat
             ∧ Forall A ws ∧ (mn ≤ length ws)%nat
             ∧ ∀ n, mx = Some n → (length ws ≤ n)%nat.
Proof.
  intros Hm. induction fuel as [|fuel IH]; intros mn mx k x y Hbounds Hcaps;
    [done|].
  cbn [repeatLoop].
  destruct (maxReached mx) eqn:Hmax.
  { intros Hk. exists x, []. simpl.
    destruct mx as [[|n]|]; try done. specialize (Hbounds 0%nat eq_refl).
    split_and!; [done..|lia|constructor|lia|].
    intros n [= <-]. lia. }
  set (d := λ y0 : mstate, _).
  assert (∀ x1 w1, d x1 = Some y → capturesOK G (caps x1) →
            rest x = w1 ++ rest x1 → pos x1 = (pos x + length w1)%nat → A w1 →
            ∃ x' ws, k x' = Some y ∧ capturesOK G (caps x')
              ∧ rest x = concat ws ++ rest x'
              ∧ pos x' = (pos x + length (concat ws))%nat
              ∧ Forall A ws ∧ (mn ≤ length ws)%nat
              ∧ ∀ n, mx = Some n → (length ws ≤ n)%nat) as Hnext.
  { intros x1 w1 Hd Hc1 Hrest1 Hpos1 Hw1. unfold d in Hd.
    destruct (Nat.eqb mn 0 && Nat.eqb (pos x1) (pos x)); [done|].
    apply IH in Hd as (x' & ws & Hk & Hc' & Hrest' & Hpos' & Hall & Hmin & Hmaxb);
      [|destruct mx as [[|n]|]; simpl; [done| |done];
        intros ? [= <-]; specialize (Hbounds _ eq_refl); lia|done].
    exists x', (w1 :: ws). simpl.
    split_and!; [done..| | |by constructor|lia|].
    - by rewrite <- app_assoc, <- Hrest'.
    - rewrite length_app. lia.
    - intros n ->. simpl in Hmaxb. destruct n; [done|].
      specialize (Hmaxb n eq_refl). lia. }
  assert (capturesOK G (caps (clearCaps gs x))) as Hclear
    by (by apply capturesOK_filter).
  destruct (Nat.eqb mn 0) eqn:Hmn.
  - apply Nat.eqb_eq in Hmn as ->.
    destruct (m d (clearCaps gs x)) as [z|] eqn:Hiter.
    + intros [= ->].
      apply Hm in Hiter as (x1 & w1 & Hd & Hc1 & Hrest1 & Hpos1 & Hw1); [|done].
      by eapply Hnext.
    + intros Hk. exists x, []. simpl.
      split_and!; [done..|lia|constructor|lia|].
      intros n ->. lia.
  - intros Hiter.
    apply Hm in Hiter as (x1 & w1 & Hd & Hc1 & Hrest1 & Hpos1 & Hw1); [|done].
    by eapply Hnext.
Qed.

Lemma run_sound r :
  capturesWithin ic G r → sound G (run ic r) (consumes ic r).
Proof.
  induction r as [| c | negated rs | | | | r1 IH1 r2 IH2 | r1 IH1 r2 IH2
                  | mn mx r1 IH1 | n r1 IH1 | | | | r1 IH1];
    intros Hwf k x y Hcaps; cbn [run consumes].
  - intros Hk. exists x, []. simpl. split_and!; [done..|lia|done].
  - intros (d & tl & Hrest & Hp & Hk)%single_inv.
    exists (advance d tl x), [d]. simpl. split_and!; [done..|lia|].
    exists d. split; [done|]. by apply N.eqb_eq.
  - intros (d & tl & Hrest & Hp & Hk)%single_inv.
    exists (advance d tl x), [d]. simpl. split_and!; [done..|lia|eauto].
  - intros (d & tl & Hrest & Hp & Hk)%single_inv.
    exists (advance d tl x), [d]. simpl. split_and!; [done..|lia|].
    exists d. split; [done|]. by apply negb_true_iff.
  - intros (d & tl & Hrest & Hp & Hk)%single_inv.
    exists (advance d tl x), [d]. simpl. split_and!; [done..|lia|eauto].
  - intros (d & tl & Hrest & Hp & Hk)%single_inv.
    exists (advance d tl x), [d]. simpl. split_and!; [done..|lia|eauto].
  - destruct Hwf as [Hwf1 Hwf2]. intros Hrun.
    apply (IH1 Hwf1) in Hrun as (x1 & u & Hrun & Hc1 & Hrest1 & Hpos1 & Hu);
      [|done].
    apply (IH2 Hwf2) in Hrun as (x2 & v & Hk & Hc2 & Hrest2 & Hpos2 & Hv);
      [|done].
    exists x2, (u ++ v). split_and!; [done..| | |by exists u, v].
    + by rewrite <- app_assoc, <- Hrest2.
    + rewrite length_app. lia.
  - destruct Hwf as [Hwf1 Hwf2].
    destruct (run ic r1 k x) as [z|] eqn:Hfirst.
    + intros [= ->].
      apply (IH1 Hwf1) in Hfirst as (x1 & w & ? & ? & ? & ? & ?); [|done].
      exists x1, w. split_and!; [done..|by left].
    + intros Hsecond.
      apply (IH2 Hwf2) in Hsecond as (x1 & w & ? & ? & ? & ? & ?); [|done].
      exists x1, w. split_and!; [done..|by right].
  - destruct Hwf as [Hwf1 Hbounds]. intros Hloop.
    eapply (repeatLoop_sound _ _ _ (IH1 Hwf1)) in Hloop
      as (x' & ws & ? & ? & ? & ? & ? & ? & ?); [|done..].
    exists x', (concat ws). split_and!; [done..|]. by exists ws.
  - destruct Hwf as [Hwf1 HG]. intros Hrun.
    apply (IH1 Hwf1) in Hrun as (x1 & w & Hk & Hc1 & Hrest1 & Hpos1 & Hw);
      [|done].
    assert (take (pos x1 - pos x) (rest x) = w) as Htake.
    { rewrite Hrest1, Hpos1.
      replace (pos x + length w - pos x)%nat with (length w) by lia.
      by rewrite take_app_length. }
    rewrite Htake in Hk.
    exists (setCap n w x1), w. split_and!; [done| |done..].
    intros n' w' [[= -> ->]|Hin]%elem_of_cons; [by apply HG|].
    apply list_elem_of_filter in Hin as [_ Hin]. by apply Hc1.
  - destruct (Nat.eqb (pos x) 0); [|done].
    intros Hk. exists x, []. simpl. split_and!; [done..|lia|done].
  - destruct (rest x) eqn:Hrest; [|done].
    intros Hk. exists x, []. simpl. split_and!; [done..|lia|done].
  - destruct (xorb _ _); [|done].
    intros Hk. exists x, []. simpl. split_and!; [done..|lia|done].
  - destruct (run ic r1 Some x); [done|].
    intros Hk. exists x, []. simpl. split_and!; [done..|lia|done].
Qed.

(** The captures of a successful match satisfy what their groups allow. *)
Lemma exec_captures r s m n w :
  capturesWithin ic G r →
  exec ic r s = Some m → capture n m = Some w → G n w.
Proof.
  intros Hwf. unfold exec.
  assert (∀ i p, search ic r i p s = Some m → capturesOK G (groups m)) as Hs.
  { induction s as [|c s IH]; intros i p; rewrite search_unfold;
      unfold matchAt.
    - destruct (run ic r Some _) as [z|] eqn:Hrun; [|done].
      intros [= <-]. simpl.
      apply (run_sound r Hwf) in Hrun as (x' & ? & [= ->] & ? & _);
        [done|by intros ? ? ?%elem_of_nil].
    - destruct (run ic r Some _) as [z|] eqn:Hrun; [|by apply IH].
      intros [= <-]. simpl.
      apply (run_sound r Hwf) in Hrun as (x' & ? & [= ->] & ? & _);
        [done|by intros ? ? ?%elem_of_nil]. }
  intros Hexec Hcap. apply (Hs _ _ Hexec).
  unfold capture, getCap in Hcap.
  destruct (find _ (groups m)) as [[n' w']|] eqn:Hfind; [|done].
  simpl in Hcap. injection Hcap as ->.
  apply find_some in Hfind as [Hin Hn]. simpl in Hn.
  apply Nat.eqb_eq in Hn as ->. by apply list_elem_of_In.
Qed.

End Captures.

(** ** Which groups a match sets *)

Section Defined.
Import Regex.

Variable ic : bool.

Lemma getCap_filter (P : nat * jsstring → Prop) `{∀ e, Decision (P e)} n cs :
  (∀ e, e.1 = n → P e) →
  getCap n (filter P cs) = getCap n cs.
Proof.
  intros HP. unfold getCap. f_equal.
  induction cs as [|e cs IH]; [done|].
  rewrite filter_cons. destruct (decide (P e)) as [Hp|Hp]; simpl.
  - by rewrite IH.
  - destruct (Nat.eqb_spec e.1 n) as [Heq|Hne]; [by destruct Hp; apply HP|].
    done.
Qed.

Lemma getCap_setCap n w x m :
  getCap m (caps (setCap n w x))
  = if decide (m = n) then Some w else getCap m (caps x).
Proof.
  unfold setCap. cbn [caps].
  destruct (decide (m = n)) as [->|Hne].
  - unfold getCap. simpl. by rewrite Nat.eqb_refl.
  - unfold getCap at 1. cbn [find fst].
    destruct (Nat.eqb_spec n m) as [->|_]; [done|].
    apply (getCap_filter (λ e, e.1 ≠ n)). intros e ->. done.
Qed.

Lemma getCap_clearCaps gs x m :
  m ∉ gs → getCap m (caps (clearCaps gs x)) = getCap m (caps x).
Proof.
  intros Hm. unfold clearCaps. cbn [caps].
  apply (getCap_filter (λ e, e.1 ∉ gs)). by intros e ->.
Qed.

Lemma repeatLoop_keeps m gs :
  (∀ k x y, m k x = Some y → ∃ x', k x' = Some y ∧ keeps [] gs x x') →
  ∀ fuel mn mx k x y,
    repeatLoop m gs k fuel mn mx x = Some y →
    ∃ x', k x' = Some y ∧ keeps [] gs x x'.
Proof.
  intros Hm. induction fuel as [|fuel IH]; intros mn mx k x y; [done|].
  cbn [repeatLoop].
  assert (keeps [] gs x x) as Hrefl.
  { intros n [?%elem_of_nil|[_ ?]]; done. }
  destruct (maxReached mx); [by eauto|].
  set (d := λ y0 : mstate, _).
  assert (∀ x1, d x1 = Some y → keeps [] gs x x1 →
            ∃ x', k x' = Some y ∧ keeps [] gs x x') as Hnext.
  { intros x1 Hd H1. unfold d in Hd.
    destruct (Nat.eqb mn 0 && Nat.eqb (pos x1) (pos x)); [done|].
    apply IH in Hd as (x' & Hk & H2). exists x'. split; [done|].
    intros n [?%elem_of_nil|[Hn Hset]]; [done|].
    apply H2. right. split; [done|]. apply H1. by right. }
  assert (∀ x1, keeps [] gs (clearCaps gs x) x1 → keeps [] gs x x1) as Hclear.
  { intros x1 H1 n [?%elem_of_nil|[Hn Hset]]; [done|].
    apply H1. right. split; [done|]. by rewrite getCap_clearCaps. }
  destruct (Nat.eqb mn 0).
  - destruct (m d (clearCaps gs x)) as [z|] eqn:Hiter; [|by eauto].
    intros [= ->]. apply Hm in Hiter as (x1 & Hd & H1). eauto.
  - intros Hiter. apply Hm in Hiter as (x1 & Hd & H1). eauto.
Qed.

Lemma keeps_weaken ds gs x x' :
  keeps ds gs x x' → keeps [] gs x x'.
Proof.
  intros Hk n [?%elem_of_nil|?]; [done|]. apply Hk. by right.
Qed.

Lemma run_keeps r k x y :
  run ic r k x = Some y →
  ∃ x', k x' = Some y ∧ keeps (defines r) (groupsOf r) x x'.
Proof.
  assert (∀ x ds gs, ds = [] → keeps ds gs x x) as Hrefl.
  { intros ? ? ? -> n [?%elem_of_nil|[_ ?]]; done. }
  assert (∀ p k x y, single p k x = Some y →
            ∃ x', k x' = Some y ∧ keeps [] [] x x') as Hsingle.
  { intros p k' x0 y' (c & tl & _ & _ & Hk)%single_inv.
    exists (advance c tl x0). split; [done|].
    intros n [?%elem_of_nil|[_ ?]]; done. }
  revert k x y.
  induction r as [| c | negated rs | | | | r1 IH1 r2 IH2 | r1 IH1 r2 IH2
                  | mn mx r1 IH1 | n r1 IH1 | | | | r1 IH1];
    intros k x y; cbn [run defines groupsOf]; eauto.
  - intros Hrun.
    apply IH1 in Hrun as (x1 & Hrun & H1).
    apply IH2 in Hrun as (x2 & Hk & H2).
    exists x2. split; [done|].
    intros n [[Hn|Hn]%elem_of_app|[Hn Hset]].
    + apply list_elem_of_filter in Hn as [Hn2 Hn1].
      apply H2. right. split; [done|]. apply H1. by left.
    + apply H2. by left.
    + apply not_elem_of_app in Hn as [Hn1 Hn2].
      apply H2. right. split; [done|]. apply H1. by right.
  - destruct (run ic r1 k x) as [z|] eqn:Hfirst.
    + intros [= ->]. apply IH1 in Hfirst as (x1 & Hk & H1).
      exists x1. split; [done|].
      intros n [Hn|[Hn Hset]].
      * apply list_elem_of_filter in Hn as [_ Hn]. apply H1. by left.
      * apply not_elem_of_app in Hn as [Hn1 Hn2]. apply H1. by right.
    + intros Hsecond. apply IH2 in Hsecond as (x1 & Hk & H2).
      exists x1. split; [done|].
      intros n [Hn|[Hn Hset]].
      * apply list_elem_of_filter in Hn as [Hn _]. apply H2. by left.
      * apply not_elem_of_app in Hn as [Hn1 Hn2]. apply H2. by right.
  - apply repeatLoop_keeps. intros k' x0 y' Hrun.
    apply IH1 in Hrun as (x1 & Hk & H1). eauto using keeps_weaken.
  - intros Hrun. apply IH1 in Hrun as (x1 & Hk & H1).
    eexists. split; [exact Hk|].
    intros m Hm. rewrite getCap_setCap.
    destruct (decide (m = n)) as [->|Hne]; [done|].
    apply H1. destruct Hm as [[?|Hm]%elem_of_cons|[Hm Hset]]; [done|by left|].
    apply not_elem_of_cons in Hm as [_ Hm]. by right.
  - destruct (Nat.eqb (pos x) 0); [eauto|done].
  - destruct (rest x); [eauto|done].
  - destruct (xorb _ _); [eauto|done].
  - destruct (run ic r1 Some x); [done|]. eauto.
Qed.

(** The groups that a pattern always sets are present in every match. *)
Lemma exec_defines r s m n :
  exec ic r s = Some m → n ∈ defines r → is_Some (capture n m).
Proof.
  unfold exec. generalize 0%nat (@None N).
  induction s as [|c s IH]; intros i p; rewrite search_unfold; unfold matchAt.
  - destruct (run ic r Some _) as [z|] eqn:Hrun; [|done].
    intros [= <-] Hn. apply run_keeps in Hrun as (x' & [= ->] & Hkeeps).
    apply Hkeeps. by left.
  - destruct (run ic r Some _) as [z|] eqn:Hrun; [|by apply IH].
    intros [= <-] Hn. apply run_keeps in Hrun as (x' & [= ->] & Hkeeps).
    apply Hkeeps. by left.
Qed.

End Defined.

(** ** Two patterns of the EPG decoding step *)

Section EpgPatterns.
Import Regex Xtream.

Lemma inRanges_base64 c :
  classMatches false false
    [(code "A", code "Z"); (code "a", code "z"); (code "0", code "9");
     (code "+", code "+"); (code "/", code "/"); (code "=", code "=")] c
  = base64Alphabet c.
Proof.
  unfold classMatches, inRanges, base64Alphabet, JS.isUpper, JS.isLower,
    JS.isDigit, JS.between. simpl.
  rewrite !orb_false_r.
  assert (∀ n, ((n <=? c) && (c <=? n) = (c =? n))%N) as Heq.
  { intros n. destruct (N.eqb_spec c n) as [->|Hne].
    - by rewrite N.leb_refl.
    - apply andb_false_iff.
      destruct (N.leb_spec n c), (N.leb_spec c n); auto; lia. }
  change (code "+") with 43%N. change (code "/") with 47%N.
  change (code "=") with 61%N. rewrite !Heq.
  change (code "A") with 65%N. change (code "Z") with 90%N.
  change (code "a") with 97%N. change (code "z") with 122%N.
  change (code "0") with 48%N. change (code "9") with 57%N.
  by rewrite !orb_assoc.
Qed.

Lemma test_BASE64_TEXT s :
  test false BASE64_TEXT s = true
  ↔ s ≠ [] ∧ Forall (λ c, base64Alphabet c = true) s.
Proof.
  unfold test. rewrite bool_decide_eq_true.
  unfold exec, BASE64_TEXT. cbn [seqs].
  set (cls := CharSet false _).
  assert (is_Some (search false (Seq InputStart (Seq (plus cls) InputEnd))
                          0 None s)
          ↔ is_Some (repeatLoop (run false cls) [] (run false InputEnd Some)
                                (S (1 + length s)) 1 None (MState 0 None s [])))
    as ->.
  { rewrite search_unfold. unfold matchAt, plus.
    cbn [run pos rest Nat.eqb groupsOf].
    destruct (repeatLoop _ _ _ _ _ _ _) as [z|]; [split; by eexists|].
    destruct s as [|c s]; [done|]. by rewrite search_anchored. }
  unfold cls. rewrite repeat_class_to_end by (simpl; lia).
  change (rest (MState 0 None s [])) with s.
  split.
  - intros [Hall Hlen]. split; [by destruct s; simpl in *; [lia|]|].
    eapply Forall_impl; [exact Hall|].
    intros c Hc. by rewrite <- inRanges_base64.
  - intros [Hne Hall]. split; [|destruct s; simpl; [done|lia]].
    eapply Forall_impl; [exact Hall|].
    intros c Hc. cbv beta. by rewrite inRanges_base64.
Qed.

Lemma test_CONTROL s : test false CONTROL s = existsb isControl s.
Proof.
  unfold test, exec.
  assert (∀ i p, is_Some (search false CONTROL i p s)
                 ↔ existsb isControl s = true) as Hsearch.
  { induction s as [|c s IH]; intros i p;
      rewrite search_unfold; unfold matchAt, CONTROL;
      cbn [run single rest].
    - simpl. split; [by intros []|done].
    - assert (classMatches false false [(0%N, 8%N); (14%N, 31%N)] c = isControl c)
        as ->.
      { unfold classMatches, inRanges, isControl. simpl.
        by rewrite !orb_false_r. }
      cbn [existsb]. destruct (isControl c); cbn [orb].
      + split; [done|by eexists].
      + apply IH. }
  destruct (existsb isControl s) eqn:He.
  - by apply bool_decide_eq_true, Hsearch.
  - apply bool_decide_eq_false. intros Hs. by apply Hsearch in Hs.
Qed.

End EpgPatterns.

(** ** Decoding of EPG titles and descriptions *)

Section EpgDecoding.
Import Regex Xtream.

Lemma existsb_isControl_false s :
  existsb isControl s = false ↔ Forall (λ c, isControl c = false) s.
Proof.
  induction s as [|c s IH]; simpl; [by split; [constructor|]|].
  rewrite orb_false_iff, Forall_cons, IH. done.
Qed.

(** C3 (as the code has it): a fetched title or description is replaced by
    its decoding exactly when it is written in the base64 alphabet, is longer
    than four characters, is accepted by [atob], decodes to a string without
    any of the control characters U+0000-U+0008 and U+000E-U+001F, and that
    string is accepted by [decodeURIComponent(escape(...))]; in every other
    case the raw string is kept as it is. *)
Theorem C3_decoded_exactly_when_all_checks_pass (text : jsstring) :
  (∀ t, decodesTo text t → decodeText text = t)
  ∧ ((∀ t, ¬ decodesTo text t) → decodeText text = text).
Proof.
  unfold decodeText, tryDecode. split.
  - intros t (Halpha & Hlen & decoded & Hatob & Hctl & Hutf).
    assert (text ≠ []) as Hne by (destruct text; [simpl in Hlen; lia|done]).
    assert (nonEmpty text = true) as -> by (by destruct text).
    assert (test false BASE64_TEXT text = true) as ->
      by (by apply test_BASE64_TEXT).
    assert (Nat.ltb 4 (length text) = true) as -> by (by apply Nat.ltb_lt).
    cbn [andb]. rewrite Hatob. cbn [mbind option_bind].
    rewrite test_CONTROL.
    apply existsb_isControl_false in Hctl. rewrite Hctl. cbn [negb].
    by rewrite Hutf.
  - intros Hnone.
    destruct (nonEmpty text && test false BASE64_TEXT text
              && Nat.ltb 4 (length text)) eqn:Hchecks; [|done].
    apply andb_true_iff in Hchecks as [Hchecks Hlen].
    apply andb_true_iff in Hchecks as [_ Halpha].
    apply test_BASE64_TEXT in Halpha as [_ Halpha].
    apply Nat.ltb_lt in Hlen.
    destruct (atob text) as [decoded|] eqn:Hatob; [|done].
    cbn [mbind option_bind]. rewrite test_CONTROL.
    destruct (existsb isControl decoded) eqn:Hctl; [done|]. cbn [negb].
    destruct (decodeURIComponent (escape decoded)) as [t|] eqn:Hutf; [|done].
    exfalso. apply (Hnone t). split_and!; [done..|].
    exists decoded. split_and!; [done| |done].
    by apply existsb_isControl_false.
Qed.

Lemma C3_witness : decodeText (js "Sm91cm5hbA==") = js "Journal".
Proof.
  apply (C3_decoded_exactly_when_all_checks_pass (js "Sm91cm5hbA==")).
  split_and!.
  - vm_compute. repeat constructor.
  - vm_compute. lia.
  - exists (js "Journal"). split_and!.
    + by vm_compute.
    + vm_compute. repeat constructor.
    + by vm_compute.
Defined.

(** C3 fails as stated: the text below is written in the base64 alphabet, is
    longer than four characters and decodes to a string without control
    characters (the Latin-1 octets of "café"), yet it is kept as it is. *)
Lemma C3_counterexample :
  forallb base64Alphabet (js "Y2Fm6Q==") = true
  ∧ (4 < length (js "Y2Fm6Q=="))%nat
  ∧ atob (js "Y2Fm6Q==") = Some [99; 97; 102; 233]%N
  ∧ existsb isControl [99; 97; 102; 233]%N = false
  ∧ decodeText (js "Y2Fm6Q==") = js "Y2Fm6Q==".
Proof.
  split_and!; [by vm_compute|vm_compute; lia|by vm_compute..].
Qed.

End EpgDecoding.

(** ** The fields of the extracted metadata *)

Section Fields.
Import Regex ContentParser.

Ltac fields name :=
  unfold extractFields;
  generalize (exec true COUNTRY_PREFIX name), (firstMatch COUNTRY_PATTERNS name),
    (firstMatch QUALITY_PATTERNS name), (firstMatch LANGUAGE_PATTERNS name),
    (exec false YEAR_PATTERN name), (exec true SEASON_EPISODE_PATTERN name),
    (exec true SEASON_PATTERN name);
  intros o o0 o1 o2 o3 o4 o5;
  destruct o as [?|]; [destruct (bool_decide _)|];
  destruct o0 as [[? ?]|], o1 as [[? ?]|], o2 as [[? ?]|], o3 as [?|],
    o4 as [?|], o5 as [?|]; reflexivity.

Lemma quality_extractFields name :
  quality (extractFields name) = fst <$> firstMatch QUALITY_PATTERNS name.
Proof. fields name. Qed.

Lemma language_extractFields name :
  language (extractFields name) = fst <$> firstMatch LANGUAGE_PATTERNS name.
Proof. fields name. Qed.

Lemma year_extractFields name :
  year (extractFields name) =
  (λ yearMatch, JS.parseInt (replaceAll false PARENS [] (matched yearMatch)))
    <$> exec false YEAR_PATTERN name.
Proof. fields name. Qed.

Lemma season_extractFields name :
  season (extractFields name) =
  match exec true SEASON_EPISODE_PATTERN name with
  | Some seMatch => Some (JS.parseInt (default [] (capture 1 seMatch)))
  | None =>
      (λ sMatch, JS.parseInt (default [] (capture 1 sMatch)))
        <$> exec true SEASON_PATTERN name
  end.
Proof. fields name. Qed.

Lemma episode_extractFields name :
  episode (extractFields name) =
  match exec true SEASON_EPISODE_PATTERN name with
  | Some seMatch =>
      if truthyString (capture 2 seMatch)
      then Some (JS.parseInt (default [] (capture 2 seMatch)))
      else None
  | None => None
  end.
Proof. fields name. Qed.

Lemma country_extractFields name :
  country (extractFields name) =
  let prefix :=
    match exec true COUNTRY_PREFIX name with
    | Some countryPrefixMatch =>
        let prefix := toUpperCase (default [] (capture 1 countryPrefixMatch)) in
        if bool_decide (prefix ∈ COUNTRIES) then Some prefix else None
    | None => None
    end in
  if truthyString prefix then prefix
  else match firstMatch COUNTRY_PATTERNS name with
       | Some (code, _) => Some code
       | None => prefix
       end.
Proof. fields name. Qed.

End Fields.

(** ** Seasons are numbers, countries are not empty *)

Section SeasonAndCountry.
Import Regex ContentParser.

Lemma isDigit_cases a :
  JS.isDigit a = true →
  a ∈ [48; 49; 50; 51; 52; 53; 54; 55; 56; 57]%N.
Proof.
  unfold JS.isDigit, JS.between. rewrite andb_true_iff, !N.leb_le.
  intros [Hlo Hhi].
  assert (a = 48 ∨ a = 49 ∨ a = 50 ∨ a = 51 ∨ a = 52 ∨ a = 53 ∨ a = 54
          ∨ a = 55 ∨ a = 56 ∨ a = 57)%N as Hcases by lia.
  repeat (destruct Hcases as [->|Hcases]; [set_solver|]). set_solver.
Qed.

Lemma parseInt_digits w :
  oneOrTwoDigits w → ∃ n, JS.parseInt w = JS.Int n.
Proof.
  intros [(a & -> & Ha)|(a & b & -> & Ha & Hb)].
  - apply isDigit_cases in Ha.
    repeat (apply elem_of_cons in Ha as [->|Ha]; [by eexists|]).
    by apply elem_of_nil in Ha.
  - apply isDigit_cases in Ha, Hb.
    repeat (apply elem_of_cons in Ha as [->|Ha];
            [repeat (apply elem_of_cons in Hb as [->|Hb]; [by eexists|]);
             by apply elem_of_nil in Hb|]).
    by apply elem_of_nil in Ha.
Qed.

Lemma digits_consumed ic w : consumes ic (digits 1 2) w → oneOrTwoDigits w.
Proof.
  unfold digits. cbn [consumes].
  intros (ws & -> & Hall & Hmin & Hmax). specialize (Hmax 2%nat eq_refl).
  destruct ws as [|u [|v [|? ?]]]; simpl in *; try lia.
  - apply Forall_cons in Hall as [(a & -> & Ha) _]. left. by exists a.
  - apply Forall_cons in Hall as [(a & -> & Ha) Hall].
    apply Forall_cons in Hall as [(b & -> & Hb) _]. right. by exists a, b.
Qed.

Lemma SEASON_EPISODE_captures :
  capturesWithin true (λ _, oneOrTwoDigits) SEASON_EPISODE_PATTERN.
Proof.
  unfold SEASON_EPISODE_PATTERN, opt. cbn [seqs capturesWithin digits].
  split_and!; try done; try (intros ? [= <-]; lia);
    intros w Hw; by eapply digits_consumed.
Qed.

Lemma lit_captures ic G s : capturesWithin ic G (lit s).
Proof.
  unfold lit. induction (js s) as [|c l IH]; simpl; [done|]. by split.
Qed.

Lemma SEASON_captures :
  capturesWithin true (λ _, oneOrTwoDigits) SEASON_PATTERN.
Proof.
  unfold SEASON_PATTERN, opt, star. cbn [seqs capturesWithin digits].
  split_and!; try done; try (intros ? [= <-]; lia);
    try apply lit_captures.
  intros w Hw. by eapply digits_consumed.
Qed.

Lemma season_extracted name :
  season (parseContentMetadata name) = None
  ∨ ∃ n, season (parseContentMetadata name) = Some (JS.Int n).
Proof.
  change (season (parseContentMetadata name)) with (season (extractFields name)).
  rewrite season_extractFields.
  destruct (exec true SEASON_EPISODE_PATTERN name) as [m|] eqn:Hse.
  - right.
    destruct (exec_defines true _ _ _ 1%nat Hse) as [w Hw].
    { unfold SEASON_EPISODE_PATTERN. cbn. set_solver. }
    rewrite Hw. change (default [] (Some w)) with w.
    destruct (parseInt_digits w) as [n ->]; [|by eexists].
    by apply (exec_captures true (λ _, oneOrTwoDigits) _ _ _ _ _
                SEASON_EPISODE_captures Hse Hw).
  - destruct (exec true SEASON_PATTERN name) as [m|] eqn:Hs; [|by left].
    right. cbn [fmap option_fmap option_map].
    destruct (exec_defines true _ _ _ 1%nat Hs) as [w Hw].
    { unfold SEASON_PATTERN. cbn. set_solver. }
    rewrite Hw. change (default [] (Some w)) with w.
    destruct (parseInt_digits w) as [n ->]; [|by eexists].
    by apply (exec_captures true (λ _, oneOrTwoDigits) _ _ _ _ _
                SEASON_captures Hs Hw).
Qed.

Lemma country_extracted name c :
  country (parseContentMetadata name) = Some c → c ≠ [].
Proof.
  change (country (parseContentMetadata name)) with (country (extractFields name)).
  rewrite country_extractFields. cbv zeta.
  assert (∀ p q, (p, q) ∈ COUNTRY_PATTERNS → p ≠ []) as Htable.
  { intros p q Hin. unfold COUNTRY_PATTERNS in Hin.
    apply list_elem_of_fmap in Hin as ([k ws] & [= -> _] & Hin).
    repeat (apply elem_of_cons in Hin as [[= -> _]|Hin]; [done|]).
    by apply elem_of_nil in Hin. }
  destruct (exec true COUNTRY_PREFIX name) as [m|].
  - destruct (bool_decide _) eqn:Hknown.
    + apply bool_decide_eq_true in Hknown.
      assert (toUpperCase (default [] (capture 1 m)) ≠ []) as Hne.
      { intros Hempty. rewrite Hempty in Hknown. unfold COUNTRIES in Hknown.
        apply list_elem_of_fmap in Hknown as (k & Hk & Hin).
        repeat (apply elem_of_cons in Hin as [->|Hin]; [done|]).
        by apply elem_of_nil in Hin. }
      destruct (toUpperCase (default [] (capture 1 m))) eqn:Hp; [done|].
      cbn [truthyString]. by intros [= <-].
    + cbn [truthyString]. destruct (firstMatch _ name) as [[p q]|] eqn:Hf; [|done].
      intros [= <-]. apply find_some in Hf as [Hin _].
      apply list_elem_of_In in Hin. by eapply Htable.
  - cbn [truthyString]. destruct (firstMatch _ name) as [[p q]|] eqn:Hf; [|done].
    intros [= <-]. apply find_some in Hf as [Hin _].
    apply list_elem_of_In in Hin. by eapply Htable.
Qed.

End SeasonAndCountry.

(** ** The country prefix is made of ASCII letters

    [toUpperCase] is modelled on the ASCII range only; this is all its single
    call site needs, since the text it receives is the first group of
    [COUNTRY_PREFIX]. *)

Section CountryPrefix.
Import Regex ContentParser.

Lemma letter_class d :
  classMatches true false [(code "A", code "Z")] d = true →
  asciiLetter d = true.
Proof.
  unfold classMatches, inRanges, asciiLetter. cbn [existsb fst snd xorb andb].
  rewrite !orb_false_r.
  change (JS.between (code "A") (code "Z")) with JS.isUpper.
  unfold JS.swapCase.
  destruct (JS.isLower d) eqn:Hl; [by rewrite orb_true_r|].
  destruct (JS.isUpper d) eqn:Hu; [done|]. by rewrite Hu.
Qed.

Lemma COUNTRY_PREFIX_letters name m w :
  exec true COUNTRY_PREFIX name = Some m →
  capture 1 m = Some w →
  ∃ a b, w = [a; b] ∧ asciiLetter a = true ∧ asciiLetter b = true.
Proof.
  apply (exec_captures true
           (λ _ w, ∃ a b, w = [a; b] ∧ asciiLetter a = true
                          ∧ asciiLetter b = true)).
  unfold COUNTRY_PREFIX, star, separator. cbn [seqs capturesWithin].
  split_and!; try done; try (intros ? [= <-]; lia).
  cbn [consumes]. intros u (ws & -> & Hall & Hmin & Hmax).
  specialize (Hmax 2%nat eq_refl).
  destruct ws as [|x [|y [|? ?]]]; simpl in *; try lia.
  apply Forall_cons in Hall as [(a & -> & Ha) Hall].
  apply Forall_cons in Hall as [(b & -> & Hb) _].
  exists a, b. split_and!; [done|by apply letter_class..].
Qed.

End CountryPrefix.

(** ** The metadata extractor *)

Section Extractor.
Import Regex ContentParser.

Lemma firstMatch_None {A} (ps : list (A * regex)) name :
  firstMatch ps name = None
  ↔ ∀ a p, (a, p) ∈ ps → test true p name = false.
Proof.
  unfold firstMatch. rewrite find_None_all. split.
  - intros Hall a p Hin. by apply (Hall (a, p)).
  - intros Hall [a p] Hin. by apply (Hall a p).
Qed.

Lemma firstMatch_Some {A} (ps : list (A * regex)) name a p :
  firstMatch ps name = Some (a, p)
  ↔ ∃ i, ps !! i = Some (a, p) ∧ test true p name = true
         ∧ ∀ j b q, (j < i)%nat → ps !! j = Some (b, q) →
                    test true q name = false.
Proof.
  unfold firstMatch. rewrite find_Some_first. split.
  - intros (i & Hi & Hp & Hbefore). exists i. split_and!; [done..|].
    intros j b q Hj Hq. by apply (Hbefore j (b, q)).
  - intros (i & Hi & Hp & Hbefore). exists i. split_and!; [done..|].
    intros j [b q] Hj Hq. by apply (Hbefore j b q).
Qed.

(** C5: the language tags are tried in the order MULTI, VFF, VF, TRUEFRENCH,
    VOSTFR, VO, and the language of a title is the first tag of that order
    whose pattern matches it (none when no pattern matches); "VFF Drama"
    yields VFF and "Show VOSTFR" yields VOSTFR. *)
Theorem C5_language_first_match_wins :
  LANGUAGE_PATTERNS.*1
    = map js ["MULTI"; "VFF"; "VF"; "TRUEFRENCH"; "VOSTFR"; "VO"]%string
  ∧ (∀ name i tag pattern,
       LANGUAGE_PATTERNS !! i = Some (tag, pattern) →
       test true pattern name = true →
       (∀ j tag' pattern', (j < i)%nat →
          LANGUAGE_PATTERNS !! j = Some (tag', pattern') →
          test true pattern' name = false) →
       language (parseContentMetadata name) = Some tag)
  ∧ (∀ name,
       (∀ tag pattern, (tag, pattern) ∈ LANGUAGE_PATTERNS →
          test true pattern name = false) →
       language (parseContentMetadata name) = None)
  ∧ language (parseContentMetadata (js "VFF Drama")) = Some (js "VFF")
  ∧ language (parseContentMetadata (js "Show VOSTFR")) = Some (js "VOSTFR").
Proof.
  split_and!.
  - reflexivity.
  - intros name i tag pattern Hi Hp Hbefore.
    change (language (parseContentMetadata name))
      with (language (extractFields name)).
    rewrite language_extractFields.
    assert (firstMatch LANGUAGE_PATTERNS name = Some (tag, pattern)) as ->;
      [|done].
    apply firstMatch_Some. eauto.
  - intros name Hnone.
    change (language (parseContentMetadata name))
      with (language (extractFields name)).
    rewrite language_extractFields.
    by apply firstMatch_None in Hnone as ->.
  - by vm_compute.
  - by vm_compute.
Qed.

Lemma C5_witness :
  language (parseContentMetadata (js "Show VOSTFR")) = Some (js "VOSTFR").
Proof.
  destruct C5_language_first_match_wins as (_ & Hfirst & _).
  apply (Hfirst (js "Show VOSTFR") 4%nat (js "VOSTFR")
           (bounded (oneOf ["VOSTFR"; "STFR"]%string))).
  - reflexivity.
  - by vm_compute.
  - intros [|[|[|[|j]]]] tag' pattern' Hj Hlookup;
      [injection Hlookup as <- <-; by vm_compute..|lia].
Defined.

(** The one method call of the extractor on a capture group always finds
    the group defined: the first group of [COUNTRY_PREFIX] takes part in
    every match of the pattern. *)
Lemma extractFields_returns name :
  Throwing.extractFields name = JS.Returned (extractFields name).
Proof.
  unfold Throwing.extractFields, extractFields.
  destruct (exec true COUNTRY_PREFIX name) as [m|] eqn:Hexec.
  - destruct (exec_defines true _ _ _ 1%nat Hexec) as [w Hw].
    { unfold COUNTRY_PREFIX. cbn. set_solver. }
    rewrite Hw. change (default [] (Some w)) with w.
    unfold JS.method, mbind, JS.outcome_bind, mret, JS.outcome_ret.
    cbn beta iota.
    generalize (firstMatch COUNTRY_PATTERNS name),
      (firstMatch QUALITY_PATTERNS name), (firstMatch LANGUAGE_PATTERNS name),
      (exec false YEAR_PATTERN name), (exec true SEASON_EPISODE_PATTERN name),
      (exec true SEASON_PATTERN name).
    intros o0 o1 o2 o3 o4 o5.
    destruct (bool_decide _);
      destruct o0 as [[? ?]|], o1 as [[? ?]|], o2 as [[? ?]|], o3 as [?|],
        o4 as [?|], o5 as [?|]; reflexivity.
  - unfold mbind, JS.outcome_bind, mret, JS.outcome_ret. cbn beta iota.
    generalize (firstMatch COUNTRY_PATTERNS name),
      (firstMatch QUALITY_PATTERNS name), (firstMatch LANGUAGE_PATTERNS name),
      (exec false YEAR_PATTERN name), (exec true SEASON_EPISODE_PATTERN name),
      (exec true SEASON_PATTERN name).
    intros o0 o1 o2 o3 o4 o5.
    destruct o0 as [[? ?]|], o1 as [[? ?]|], o2 as [[? ?]|], o3 as [?|],
      o4 as [?|], o5 as [?|]; reflexivity.
Qed.

Lemma COUNTRIES_not_empty c : c ∈ COUNTRIES → c ≠ [].
Proof.
  intros Hin ->. unfold COUNTRIES in Hin.
  apply list_elem_of_fmap in Hin as (k & Hk & Hin).
  repeat (apply elem_of_cons in Hin as [->|Hin]; [done|]).
  by apply elem_of_nil in Hin.
Qed.

(** C8: [parseContentMetadata] never throws and returns a metadata record
    for every string: written with its exceptions, it returns the very
    record of the plain function.  A field is absent exactly when its pattern
    (or patterns) finds nothing to extract in the title: no pattern of the
    table matches (quality, language, country, the latter also without a
    known prefix), the pattern does not match (year, season), or it matches
    without its second group (episode).  And when the working name is empty
    after the stripping and the final cleaning, the clean name is the raw
    title itself. *)
Theorem C8_extractor_never_fails (name : jsstring) :
  Throwing.parseContentMetadata name = JS.Returned (parseContentMetadata name)
  ∧ (quality (parseContentMetadata name) = None
     ↔ ∀ q p, (q, p) ∈ QUALITY_PATTERNS → test true p name = false)
  ∧ (language (parseContentMetadata name) = None
     ↔ ∀ l p, (l, p) ∈ LANGUAGE_PATTERNS → test true p name = false)
  ∧ (year (parseContentMetadata name) = None
     ↔ exec false YEAR_PATTERN name = None)
  ∧ (season (parseContentMetadata name) = None
     ↔ exec true SEASON_EPISODE_PATTERN name = None
       ∧ exec true SEASON_PATTERN name = None)
  ∧ (episode (parseContentMetadata name) = None
     ↔ ∀ m, exec true SEASON_EPISODE_PATTERN name = Some m →
            capture 2 m = None)
  ∧ (country (parseContentMetadata name) = None
     ↔ (∀ m w, exec true COUNTRY_PREFIX name = Some m →
               capture 1 m = Some w → toUpperCase w ∉ COUNTRIES)
       ∧ (∀ c p, (c, p) ∈ COUNTRY_PATTERNS → test true p name = false))
  ∧ (finalClean (cleanName (extractFields name)) = [] →
     cleanName (parseContentMetadata name) = name)
  ∧ (finalClean (cleanName (extractFields name)) ≠ [] →
     cleanName (parseContentMetadata name)
     = finalClean (cleanName (extractFields name))).
Proof.
  split_and!.
  - unfold Throwing.parseContentMetadata. by rewrite extractFields_returns.
  - change (quality (parseContentMetadata name))
      with (quality (extractFields name)).
    rewrite quality_extractFields, <- firstMatch_None.
    by destruct (firstMatch QUALITY_PATTERNS name).
  - change (language (parseContentMetadata name))
      with (language (extractFields name)).
    rewrite language_extractFields, <- firstMatch_None.
    by destruct (firstMatch LANGUAGE_PATTERNS name).
  - change (year (parseContentMetadata name)) with (year (extractFields name)).
    rewrite year_extractFields. by destruct (exec false YEAR_PATTERN name).
  - change (season (parseContentMetadata name))
      with (season (extractFields name)).
    rewrite season_extractFields.
    destruct (exec true SEASON_EPISODE_PATTERN name); [by split; [|intros []]|].
    destruct (exec true SEASON_PATTERN name); [by split; [|intros []]|done].
  - change (episode (parseContentMetadata name))
      with (episode (extractFields name)).
    rewrite episode_extractFields.
    destruct (exec true SEASON_EPISODE_PATTERN name) as [m|] eqn:Hse; [|done].
    destruct (capture 2 m) as [w|] eqn:Hw.
    + pose proof (exec_captures true (λ _, oneOrTwoDigits) _ _ _ _ _
                    SEASON_EPISODE_captures Hse Hw) as Hdigits.
      assert (truthyString (Some w) = true) as ->
        by (by destruct Hdigits as [(a & -> & _)|(a & b & -> & _)]).
      split; [done|]. intros Hnone. specialize (Hnone m eq_refl). congruence.
    + split; [|done]. by intros _ m' [= <-].
  - change (country (parseContentMetadata name))
      with (country (extractFields name)).
    rewrite country_extractFields, <- firstMatch_None. cbv zeta.
    destruct (exec true COUNTRY_PREFIX name) as [m|] eqn:Hexec.
    + destruct (exec_defines true _ _ _ 1%nat Hexec) as [w Hw].
      { unfold COUNTRY_PREFIX. cbn. set_solver. }
      rewrite Hw. change (default [] (Some w)) with w.
      case_bool_decide as Hknown.
      * pose proof (COUNTRIES_not_empty _ Hknown) as Hne.
        destruct (toUpperCase w) as [|u us] eqn:Hup; [done|].
        cbn [truthyString]. split; [done|].
        intros [Hprefix _]. destruct (Hprefix m w eq_refl Hw).
        by rewrite Hup.
      * cbn [truthyString].
        destruct (firstMatch COUNTRY_PATTERNS name) as [[c p]|].
        -- split; [done|]. by intros [_ ?].
        -- split; [|done]. intros _. split; [|done].
           intros m' w' [= <-] Hw'. rewrite Hw in Hw'. by injection Hw' as <-.
    + cbn [truthyString].
      destruct (firstMatch COUNTRY_PATTERNS name) as [[c p]|].
      * split; [done|]. by intros [_ ?].
      * by split.
  - intros Hempty. unfold parseContentMetadata. cbn [cleanName].
    by rewrite Hempty.
  - intros Hfull. unfold parseContentMetadata. cbn [cleanName].
    by destruct (finalClean (cleanName (extractFields name))).
Qed.

Lemma C8_witness :
  cleanName (parseContentMetadata (js "4K")) = js "4K"
  ∧ language (parseContentMetadata (js "4K")) = None.
Proof.
  destruct (C8_extractor_never_fails (js "4K"))
    as (_ & _ & Hlang & _ & _ & _ & _ & Hempty & _).
  split.
  - apply Hempty. by vm_compute.
  - apply Hlang. intros l p Hin.
    repeat (apply elem_of_cons in Hin as [[= -> ->]|Hin]; [by vm_compute|]).
    by apply elem_of_nil in Hin.
Defined.

End Extractor.

(** ** Grouping *)

Section Grouping.
Import ContentParser Deduplicator.

Lemma eqb_eq a b : JS.eqb a b = true ↔ a = b.
Proof.
  revert b. induction a as [|x a IH]; intros [|y b]; simpl; try done.
  rewrite andb_true_iff, N.eqb_eq, IH. split; [by intros [-> ->]|].
  by intros [= -> ->].
Qed.

Lemma eqb_refl a : JS.eqb a a = true.
Proof. by apply eqb_eq. Qed.

Lemma eqb_neq a b : JS.eqb a b = false ↔ a ≠ b.
Proof.
  rewrite <- eqb_eq. by destruct (JS.eqb a b).
Qed.

Lemma filter_none {A} (f : A → bool) l :
  (∀ x, x ∈ l → f x = false) → List.filter f l = [].
Proof.
  induction l as [|a l IH]; simpl; [done|]. intros Hall.
  rewrite (Hall a) by (by left). apply IH. intros x Hx. apply Hall. by right.
Qed.

Variable keyOf : Channel → jsstring.

Lemma grouped_snoc l ch :
  grouped keyOf (l ++ [ch]) = addToGroup (keyOf ch) ch (grouped keyOf l).
Proof. unfold grouped. by rewrite foldl_app. Qed.

Lemma addToGroup_absent key ch (gs : list (jsstring * list Channel)) :
  key ∉ gs.*1 → addToGroup key ch gs = gs ++ [(key, [ch])].
Proof.
  induction gs as [|[k g] gs IH]; simpl; [done|].
  intros Hnotin. apply not_elem_of_cons in Hnotin as [Hne Hnotin].
  destruct (JS.eqb k key) eqn:Hk; [by apply eqb_eq in Hk|].
  by rewrite IH.
Qed.

Lemma addToGroup_present key ch (gs : list (jsstring * list Channel)) :
  NoDup gs.*1 → key ∈ gs.*1 →
  addToGroup key ch gs =
  map (λ g, if JS.eqb g.1 key then (g.1, g.2 ++ [ch]) else g) gs.
Proof.
  induction gs as [|[k g] gs IH]; simpl; [by intros _ ?%elem_of_nil|].
  intros [Hk Hnd]%NoDup_cons Hin.
  destruct (JS.eqb k key) eqn:Hkey.
  - apply eqb_eq in Hkey as ->. f_equal.
    clear IH Hin Hnd. induction gs as [|[k' g'] gs IH]; simpl; [done|].
    simpl in Hk. apply not_elem_of_cons in Hk as [Hne Hk].
    destruct (JS.eqb k' key) eqn:Hk'; [by apply eqb_eq in Hk'|].
    by rewrite <- IH.
  - apply eqb_neq in Hkey.
    apply elem_of_cons in Hin as [?|Hin]; [done|]. by rewrite IH.
Qed.

Lemma groupsOf_step l ch gs :
  groupsOf keyOf l gs →
  groupsOf keyOf (l ++ [ch]) (addToGroup (keyOf ch) ch gs).
Proof.
  intros (Hnd & Hkeys & Hgroups). unfold groupsOf.
  destruct (decide (keyOf ch ∈ gs.*1)) as [Hin|Hnotin].
  - rewrite addToGroup_present by done.
    assert ((map (λ g : jsstring * list Channel,
                    if JS.eqb g.1 (keyOf ch) then (g.1, g.2 ++ [ch]) else g) gs).*1
            = gs.*1) as Hsame.
    { clear. induction gs as [|[k g] gs IH]; simpl; [done|].
      f_equal; [by destruct (JS.eqb k (keyOf ch))|exact IH]. }
    split_and!.
    + by rewrite Hsame.
    + rewrite Hsame. intros c [Hc|Hc]%elem_of_app; [by apply Hkeys|].
      by apply list_elem_of_singleton in Hc as ->.
    + apply Forall_fmap. eapply Forall_impl; [exact Hgroups|].
      intros [k g] [Hne Hg]. simpl in *. rewrite List.filter_app. simpl.
      destruct (JS.eqb k (keyOf ch)) eqn:Hk; simpl.
      * apply eqb_eq in Hk as ->. rewrite eqb_refl.
        split; [by destruct g|by rewrite <- Hg].
      * assert (JS.eqb (keyOf ch) k = false) as ->.
        { apply eqb_neq. apply eqb_neq in Hk. congruence. }
        by rewrite app_nil_r.
  - rewrite addToGroup_absent by done.
    split_and!.
    + rewrite fmap_app. simpl. apply NoDup_app. split_and!; [done| |].
      * intros k Hk ->%list_elem_of_singleton. done.
      * apply NoDup_singleton.
    + rewrite fmap_app. simpl.
      intros c [Hc|Hc]%elem_of_app; apply elem_of_app; [left; by apply Hkeys|].
      right. apply list_elem_of_singleton in Hc as ->. by left.
    + apply Forall_app. split.
      * eapply Forall_forall. intros [k g] Hg.
        pose proof (proj1 (Forall_forall _ _) Hgroups _ Hg) as [Hne Heq].
        simpl in *. split; [done|]. rewrite List.filter_app. simpl.
        assert (JS.eqb (keyOf ch) k = false) as ->.
        { apply eqb_neq. intros <-. apply Hnotin.
          apply list_elem_of_fmap. by exists (keyOf ch, g). }
        by rewrite app_nil_r.
      * constructor; [|constructor]. simpl. split; [done|].
        rewrite List.filter_app. simpl. rewrite eqb_refl.
        assert (List.filter (λ c, JS.eqb (keyOf c) (keyOf ch)) l = []) as ->;
          [|done].
        apply filter_none. intros c Hc. apply eqb_neq. intros Heq.
        apply Hnotin. rewrite <- Heq. by apply Hkeys.
Qed.

Lemma grouped_groupsOf l : groupsOf keyOf l (grouped keyOf l).
Proof.
  induction l as [|ch l IH] using rev_ind.
  - split_and!; [constructor|by intros ? ?%elem_of_nil|constructor].
  - rewrite grouped_snoc. by apply groupsOf_step.
Qed.

Lemma addToGroup_size key ch (gs : list (jsstring * list Channel)) :
  sum_list (map (λ g, length g.2) (addToGroup key ch gs))
  = S (sum_list (map (λ g, length g.2) gs)).
Proof.
  induction gs as [|[k g] gs IH]; simpl; [done|].
  destruct (JS.eqb k key); simpl.
  - rewrite length_app. simpl. lia.
  - rewrite IH. lia.
Qed.

Lemma grouped_size l :
  sum_list (map (λ g, length g.2) (grouped keyOf l)) = length l.
Proof.
  induction l as [|ch l IH] using rev_ind; [done|].
  rewrite grouped_snoc, addToGroup_size, IH, length_app. simpl. lia.
Qed.

End Grouping.

(** ** Deduplication *)

Section Deduplication.
Import ContentParser Deduplicator.
Context `{Host}.

Lemma foldl_skip (matching : Channel → bool) (keyOf : Channel → jsstring) l acc :
  foldl (λ groups ch, if negb (matching ch) then groups
                      else addToGroup (keyOf ch) ch groups) acc l
  = foldl (λ groups ch, addToGroup (keyOf ch) ch groups) acc
          (List.filter matching l).
Proof.
  revert acc. induction l as [|ch l IH]; intros acc; simpl; [done|].
  destruct (matching ch); simpl; apply IH.
Qed.

Lemma filter_filter {A} (f g : A → bool) l :
  List.filter f (List.filter g l) = List.filter (λ x, g x && f x) l.
Proof.
  induction l as [|a l IH]; simpl; [done|].
  destruct (g a); simpl; [|done]. destruct (f a); by rewrite IH.
Qed.

Lemma toContent_groups type (gs : list (jsstring * list Channel)) :
  Forall (λ g, g.2 ≠ []) gs →
  Forall2 (λ d g, variants d = map toVariant g.2)
          (omap (λ g, toContent type g.2) gs) gs.
Proof.
  induction 1 as [|[k g] gs Hg _ IH]; simpl; [constructor|].
  destruct g as [|first g]; [done|]. simpl. by constructor.
Qed.

(** The three deduplication functions share their grouping and conversion
    loops: [matching] selects the records and [keyOf] computes their key. *)
Lemma grouped_partitions type matching keyOf channels :
  partitions matching keyOf channels
    (omap (λ g, toContent type g.2)
          (grouped keyOf (List.filter matching channels))).
Proof.
  pose proof (grouped_groupsOf keyOf (List.filter matching channels))
    as (Hnd & Hkeys & Hgroups).
  pose proof (grouped_size keyOf (List.filter matching channels)) as Hsize.
  set (gs := grouped keyOf (List.filter matching channels)) in *.
  assert (Forall (λ g : jsstring * list Channel, g.2 ≠ []) gs) as Hne.
  { eapply Forall_impl; [exact Hgroups|]. by intros g [? _]. }
  pose proof (toContent_groups type gs Hne) as Hresult.
  split_and!.
  - exists gs.*1. split_and!; [done| |].
    + intros ch Hin Hm. apply Hkeys.
      apply list_elem_of_In, List.filter_In. by rewrite <- list_elem_of_In.
    + apply Forall2_fmap_r. clearbody gs. clear -Hresult Hgroups.
      induction Hresult as [|d g ds gs' Hd _ IH]; [constructor|].
      apply Forall_cons in Hgroups as [[_ Hg] Hgroups].
      constructor; [|by apply IH].
      simpl. by rewrite Hd, Hg, filter_filter.
  - clearbody gs. clear -Hresult Hne.
    induction Hresult as [|d g ds gs' Hd _ IH]; [constructor|].
    apply Forall_cons in Hne as [Hg Hne].
    constructor; [|by apply IH]. rewrite Hd. by destruct (g.2).
  - rewrite <- Hsize. clearbody gs. clear -Hresult.
    induction Hresult as [|d g ds gs Hd _ IH]; simpl; [done|].
    by rewrite IH, Hd, length_map.
Qed.

Lemma channels_partitions (channels : list Channel) :
  partitions (λ ch, truthy (isLive ch))
             (λ ch, getContentKey (name ch) TChannel)
             channels (deduplicateChannels channels).
Proof.
  unfold deduplicateChannels.
  rewrite (foldl_skip (λ ch, truthy (isLive ch))
                      (λ ch, getContentKey (name ch) TChannel)).
  apply grouped_partitions.
Qed.

(** C7: each deduplication function partitions the records of its type
    (live records for channels, non-live VOD records for movies, non-live
    series records for series): no returned group is empty, the variants of
    a group are the records with the key of the group in their input order,
    and the sizes of the groups add up to the number of records of that
    type. *)
Theorem C7_deduplication_partitions (channels : list Channel) :
  partitions (λ ch, truthy (isLive ch))
             (λ ch, getContentKey (name ch) TChannel)
             channels (deduplicateChannels channels)
  ∧ partitions isVod (λ ch, getContentKey (name ch) TMovie)
               channels (deduplicateMovies channels)
  ∧ partitions isSeries (λ ch, getContentKey (name ch) TSeries)
               channels (deduplicateSeries channels).
Proof.
  split_and!.
  - apply channels_partitions.
  - apply grouped_partitions.
  - apply grouped_partitions.
Qed.

(** C6: the key of a channel is the lower-cased clean name, an underscore
    and the detected country, or "unknown" when none is detected; the key
    of a series is the lower-cased clean name, "_s" and the detected season,
    or 0 when none is detected; and two live records with the same clean
    name and the same detected country are variants of one and the same
    channel group, wherever they stand in the input. *)
Theorem C6_content_key_groups :
  (∀ raw,
     getContentKey raw TChannel
     = toLowerCase (cleanName (parseContentMetadata raw)) ++ js "_"
       ++ default (js "unknown") (country (parseContentMetadata raw)))
  ∧ (∀ raw,
       getContentKey raw TSeries
       = toLowerCase (cleanName (parseContentMetadata raw)) ++ js "_s"
         ++ JS.numberToString
              (default (JS.Int 0) (season (parseContentMetadata raw))))
  ∧ (∀ channels a b,
       a ∈ channels → b ∈ channels →
       truthy (isLive a) = true → truthy (isLive b) = true →
       cleanName (parseContentMetadata (name a))
         = cleanName (parseContentMetadata (name b)) →
       country (parseContentMetadata (name a))
         = country (parseContentMetadata (name b)) →
       ∃ g, g ∈ deduplicateChannels channels
            ∧ toVariant a ∈ variants g ∧ toVariant b ∈ variants g).
Proof.
  split_and!.
  - intros raw. unfold getContentKey. do 2 f_equal.
    destruct (country (parseContentMetadata raw)) as [c|] eqn:Hc; [|done].
    apply country_extracted in Hc. by destruct c.
  - intros raw. unfold getContentKey. do 3 f_equal.
    destruct (season_extracted raw) as [->|[n ->]]; [done|].
    simpl. by destruct (Z.eqb_spec n 0) as [->|].
  - intros channels a b Ha Hb Hla Hlb Hclean Hcountry.
    destruct (channels_partitions channels)
      as ((keys & _ & Hkeys & Hgroups) & _).
    assert (getContentKey (name b) TChannel = getContentKey (name a) TChannel)
      as Hsame by (unfold getContentKey; by rewrite Hclean, Hcountry).
    pose proof (Hkeys a Ha Hla) as Hkey.
    apply list_elem_of_lookup_1 in Hkey as [i Hi].
    destruct (Forall2_lookup_r _ _ _ _ _ Hgroups Hi) as (g & Hg & Hvariants).
    exists g. split; [by eapply list_elem_of_lookup_2|].
    rewrite Hvariants.
    split; apply list_elem_of_fmap_2, list_elem_of_In, List.filter_In;
      (split; [by apply list_elem_of_In|]).
    + by rewrite Hla, eqb_refl.
    + by rewrite Hlb, Hsame, eqb_refl.
Qed.

End Deduplication.

Lemma C7_witness :
  sum_list (map (λ g, length (variants g))
              (@Deduplicator.deduplicateChannels asciiHost
                 [sampleRecord "1" "FR: TF1" true Live;
                  sampleRecord "2" "Film" false Vod;
                  sampleRecord "3" "fr | TF1" true Live]))
  = length (List.filter (λ ch, Deduplicator.truthy (isLive ch))
              [sampleRecord "1" "FR: TF1" true Live;
               sampleRecord "2" "Film" false Vod;
               sampleRecord "3" "fr | TF1" true Live]).
Proof.
  apply (@C7_deduplication_partitions asciiHost
           [sampleRecord "1" "FR: TF1" true Live;
            sampleRecord "2" "Film" false Vod;
            sampleRecord "3" "fr | TF1" true Live]).
Defined.

Lemma C6_witness :
  ∃ g, g ∈ @Deduplicator.deduplicateChannels asciiHost
             [sampleRecord "1" "FR: TF1" true Live;
              sampleRecord "2" "Arte" true Live;
              sampleRecord "3" "fr | TF1" true Live]
       ∧ Deduplicator.toVariant (sampleRecord "3" "fr | TF1" true Live)
           ∈ variants g
       ∧ Deduplicator.toVariant (sampleRecord "1" "FR: TF1" true Live)
           ∈ variants g.
Proof.
  apply (@C6_content_key_groups asciiHost).
  - apply elem_of_cons. right. apply elem_of_cons. right.
    apply elem_of_cons. by left.
  - apply elem_of_cons. by left.
  - reflexivity.
  - reflexivity.
  - by vm_compute.
  - by vm_compute.
Defined.

(** ** Playlist parsing *)

Section Playlist.
Import M3U.
Context `{Host}.
Variable localeCompare : jsstring → jsstring → Z.

Lemma startsWith_app s p q :
  JS.startsWith s (p ++ q) = true → JS.startsWith s p = true.
Proof.
  revert s. induction p as [|c p IH]; intros [|d s]; simpl; try done.
  rewrite !andb_true_iff. intros [? ?]. eauto.
Qed.

Lemma extinf_not_header line :
  JS.startsWith line (js "#EXTINF:") = true →
  JS.startsWith line (js "#EXTM3U") = false.
Proof.
  destruct line as [|a [|b [|c [|d [|e line]]]]]; vm_compute js;
    cbn [JS.startsWith]; rewrite ?andb_false_r; try done.
  intros Hinf.
  repeat (apply andb_true_iff in Hinf as [?%N.eqb_eq Hinf]). subst.
  done.
Qed.

Lemma directive_prefix line p :
  JS.startsWith line (js "#" ++ p) = true → JS.startsWith line (js "#") = true.
Proof. apply startsWith_app. Qed.

(** What one iteration does, by kind of line. *)
Lemma step_extinf st rawLine :
  isExtinfLine rawLine = true →
  step st rawLine
  = {| header := header st;
       currentData := Some (parseExtinfAttributes (JS.trim rawLine));
       parsed := parsed st |}.
Proof.
  unfold isExtinfLine, step. intros Hinf.
  rewrite (extinf_not_header _ Hinf), Hinf.
  by destruct (JS.trim rawLine).
Qed.

Lemma step_other st rawLine :
  isOtherLine rawLine = true →
  parsed (step st rawLine) = parsed st
  ∧ currentData (step st rawLine) = currentData st
  ∧ ∀ st', header st' = header st →
           header (step st' rawLine) = header (step st rawLine).
Proof.
  unfold isOtherLine, isExtinfLine, isUrlLine, step.
  intros [Hinf Hurl]%andb_true_iff.
  apply negb_true_iff in Hinf, Hurl. rewrite Hinf, Hurl.
  destruct (JS.trim rawLine) as [|c line]; [by split_and!|].
  destruct (JS.startsWith (c :: line) (js "#EXTM3U")); [by split_and!|].
  destruct (JS.startsWith (c :: line) (js "#")); [by split_and!|].
  split_and!; [by destruct (currentData st) eqn:?..|].
  intros st' Hh. by destruct (currentData st), (currentData st').
Qed.

Lemma step_unparsable st rawLine :
  isUnparsableLine rawLine = true → step st rawLine = st.
Proof.
  unfold isUnparsableLine, isUrlLine, step.
  intros [Hdir Hurl]%andb_true_iff.
  apply negb_true_iff in Hdir, Hurl. rewrite Hurl.
  destruct (JS.trim rawLine) as [|c line] eqn:Hline; [done|].
  assert (JS.startsWith (c :: line) (js "#EXTM3U") = false) as ->.
  { destruct (JS.startsWith (c :: line) (js "#EXTM3U")) eqn:Hh; [|done].
    apply (directive_prefix _ (js "EXTM3U")) in Hh. congruence. }
  assert (JS.startsWith (c :: line) (js "#EXTINF:") = false) as ->.
  { destruct (JS.startsWith (c :: line) (js "#EXTINF:")) eqn:Hh; [|done].
    apply (directive_prefix _ (js "EXTINF:")) in Hh. congruence. }
  rewrite Hdir. by destruct (currentData st).
Qed.

Lemma step_count st rawLine :
  (length (parsed (step st rawLine)) + pending (step st rawLine)
   ≤ length (parsed st) + pending st
     + (if isExtinfLine rawLine then 1 else 0))%nat
  ∧ (length (parsed (step st rawLine))
     ≤ length (parsed st) + (if isUrlLine rawLine then 1 else 0))%nat.
Proof.
  destruct (isExtinfLine rawLine) eqn:Hinf.
  - rewrite step_extinf by done. unfold pending. simpl.
    split; [destruct (currentData st)|]; lia.
  - unfold isExtinfLine in Hinf. unfold isUrlLine, step, pending.
    rewrite Hinf.
    destruct (JS.trim rawLine) as [|c line]; [split; simpl; lia|].
    destruct (JS.startsWith (c :: line) (js "#EXTM3U")); [split; simpl; lia|].
    destruct (JS.startsWith (c :: line) (js "#")); [split; simpl; lia|].
    destruct (currentData st) as [data|] eqn:Hdata; [|rewrite Hdata; lia].
    destruct (isStreamUrl (c :: line)); [|rewrite Hdata; lia].
    simpl. rewrite length_app. simpl. lia.
Qed.

Lemma foldl_step_count st lines :
  (length (parsed (foldl step st lines)) + pending (foldl step st lines)
   ≤ length (parsed st) + pending st + count isExtinfLine lines)%nat
  ∧ (length (parsed (foldl step st lines))
     ≤ length (parsed st) + count isUrlLine lines)%nat.
Proof.
  revert st. induction lines as [|l lines IH]; intros st.
  - unfold count. simpl. lia.
  - simpl. destruct (IH (step st l)) as [IH1 IH2].
    destruct (step_count st l) as [H1 H2].
    unfold count in *. simpl.
    destruct (isExtinfLine l), (isUrlLine l); simpl; lia.
Qed.

(** An [#EXTINF] line leaves no trace once the next [#EXTINF] line is read,
    or at the end of the input, when no URL line comes in between. *)
Lemma foldl_step_orphan st extinf mid tail :
  isExtinfLine extinf = true →
  Forall (λ l, isOtherLine l = true) mid →
  tail = [] ∨ (∃ e t, tail = e :: t ∧ isExtinfLine e = true) →
  parsed (foldl step st (extinf :: mid ++ tail))
  = parsed (foldl step st (mid ++ tail)).
Proof.
  intros Hinf Hmid Htail. cbn [foldl].
  assert (∀ a b, header a = header b → parsed a = parsed b →
            header (foldl step a mid) = header (foldl step b mid)
            ∧ parsed (foldl step a mid) = parsed (foldl step b mid)) as Hsame.
  { induction Hmid as [|l mid Hl _ IH]; intros a b Hh Hp; [done|].
    cbn [foldl]. destruct (step_other a l Hl) as (Hpa & _ & Hha).
    destruct (step_other b l Hl) as (Hpb & _ & _).
    apply IH; [by apply eq_sym, Hha|congruence]. }
  rewrite !foldl_app.
  destruct (Hsame (step st extinf) st) as [Hh Hp];
    [by rewrite step_extinf..|].
  destruct Htail as [->|(e & t & -> & He)]; [done|].
  cbn [foldl]. rewrite !(step_extinf _ e He). by rewrite Hh, Hp.
Qed.

Lemma parsed_parseM3U t0 t1 content sourceName :
  pl_channels (parseM3U localeCompare t0 t1 content sourceName)
  = parsed (parseLines (splitLines [] content)).
Proof. done. Qed.

(** C9: [parseM3U] returns a playlist for every text.  An [#EXTINF] line
    with no URL line before the next [#EXTINF] line or the end of the text
    produces no record: the records are those of the text without it.  A
    line that is neither a directive nor a stream URL is skipped in the same
    way, and there are never more records than [#EXTINF] lines, nor than URL
    lines. *)
Theorem C9_parseM3U_never_fails_on_syntax (t0 t1 : Z)
    (content sourceName : jsstring) :
  (∃ playlist, parseM3U localeCompare t0 t1 content sourceName = playlist)
  ∧ (∀ content' before extinf mid tail,
       splitLines [] content = before ++ extinf :: mid ++ tail →
       splitLines [] content' = before ++ mid ++ tail →
       isExtinfLine extinf = true →
       Forall (λ l, isOtherLine l = true) mid →
       tail = [] ∨ (∃ e t, tail = e :: t ∧ isExtinfLine e = true) →
       pl_channels (parseM3U localeCompare t0 t1 content sourceName)
       = pl_channels (parseM3U localeCompare t0 t1 content' sourceName))
  ∧ (∀ content' before line after,
       splitLines [] content = before ++ line :: after →
       splitLines [] content' = before ++ after →
       isUnparsableLine line = true →
       pl_channels (parseM3U localeCompare t0 t1 content sourceName)
       = pl_channels (parseM3U localeCompare t0 t1 content' sourceName))
  ∧ (length (pl_channels (parseM3U localeCompare t0 t1 content sourceName))
     ≤ count isExtinfLine (splitLines [] content))%nat
  ∧ (length (pl_channels (parseM3U localeCompare t0 t1 content sourceName))
     ≤ count isUrlLine (splitLines [] content))%nat.
Proof.
  rewrite !parsed_parseM3U. split_and!.
  - by eexists.
  - intros content' before extinf mid tail Hlines Hlines' Hinf Hmid Htail.
    rewrite !parsed_parseM3U. unfold parseLines.
    rewrite Hlines, Hlines'.
    rewrite (foldl_app _ before (extinf :: mid ++ tail)).
    rewrite (foldl_app _ before (mid ++ tail)).
    by apply foldl_step_orphan.
  - intros content' before line after Hlines Hlines' Hline.
    rewrite !parsed_parseM3U. unfold parseLines.
    rewrite Hlines, Hlines', !foldl_app. cbn [foldl].
    by rewrite step_unparsable.
  - destruct (foldl_step_count initial (splitLines [] content)) as [Hc _].
    unfold parseLines. simpl in Hc. lia.
  - destruct (foldl_step_count initial (splitLines [] content)) as [_ Hc].
    unfold parseLines. simpl in Hc. lia.
Qed.

End Playlist.

Lemma C9_witness :
  M3U.pl_channels
    (@M3U.parseM3U asciiHost (λ _ _, 0%Z) 0 0 (joinLines samplePlaylist) (js "P"))
  = M3U.pl_channels
      (@M3U.parseM3U asciiHost (λ _ _, 0%Z) 0 0
         (joinLines samplePlaylistWithoutOrphan) (js "P")).
Proof.
  apply (@C9_parseM3U_never_fails_on_syntax asciiHost (λ _ _, 0%Z) 0 0
           (joinLines samplePlaylist) (js "P"))
    with (before := [js "#EXTM3U"]) (extinf := js "#EXTINF:-1,Orphan")
         (mid := [js "# a comment"])
         (tail := [js "#EXTINF:-1 group-title=News,FR | TF1";
                   js "http://host/live/1.m3u8"]).
  - by vm_compute.
  - by vm_compute.
  - by vm_compute.
  - repeat constructor.
  - right. eexists _, _. split; [reflexivity|by vm_compute].
Defined.

(** ** The bounds of the model are sufficient

    The repetition loop of the matcher, the global replacement, the URI
    decoding and the base-36 printing recurse on a counter.  The counters
    they are started with are never exhausted: a larger one gives the same
    result. *)

Section Bounds.
Import Regex.

Variable ic : bool.

Lemma reaches_refl x : reaches x x.
Proof. exists []. simpl. split; [done|lia]. Qed.

Lemma reaches_trans x y z : reaches x y → reaches y z → reaches x z.
Proof.
  intros (u & Hu & Hpu) (v & Hv & Hpv). exists (u ++ v).
  rewrite Hu, Hv, length_app, <- app_assoc. split; [done|lia].
Qed.

Lemma reaches_length x y :
  reaches x y →
  (length (rest y) ≤ length (rest x))%nat
  ∧ (pos y ≠ pos x → length (rest y) < length (rest x))%nat.
Proof.
  intros (w & Hw & Hp). rewrite Hw, length_app. split; [lia|].
  intros Hne. destruct w; simpl in *; lia.
Qed.

Lemma single_forward p : forwardOnly (single p).
Proof.
  intros k k' x Hk. unfold single.
  destruct (rest x) as [|c tl] eqn:Hrest; [done|].
  destruct (p c); [|done]. apply Hk.
  exists [c]. simpl. split; [done|lia].
Qed.

Lemma repeatLoop_forward m gs fuel mn mx :
  forwardOnly m → forwardOnly (λ k, repeatLoop m gs k fuel mn mx).
Proof.
  intros Hm. revert mn mx.
  induction fuel as [|fuel IH]; intros mn mx k k' x Hk; [done|].
  cbn [repeatLoop]. rewrite (Hk x (reaches_refl x)).
  destruct (maxReached mx); [done|].
  assert (m (λ y, if Nat.eqb mn 0 && Nat.eqb (pos y) (pos x) then None
                  else repeatLoop m gs k fuel (Nat.pred mn) (Nat.pred <$> mx) y)
            (clearCaps gs x)
          = m (λ y, if Nat.eqb mn 0 && Nat.eqb (pos y) (pos x) then None
                    else repeatLoop m gs k' fuel (Nat.pred mn) (Nat.pred <$> mx) y)
              (clearCaps gs x)) as ->; [|done].
  apply Hm. intros y Hy.
  destruct (Nat.eqb mn 0 && Nat.eqb (pos y) (pos x)); [done|].
  apply IH. intros z Hz. apply Hk. by eapply reaches_trans.
Qed.

Lemma run_forward r : forwardOnly (run ic r).
Proof.
  induction r as [| c | negated rs | | | | r1 IH1 r2 IH2 | r1 IH1 r2 IH2
                  | mn mx r1 IH1 | n r1 IH1 | | | | r1 IH1];
    intros k k' x Hk; cbn [run];
    try (by apply single_forward);
    try (by rewrite (Hk x (reaches_refl x))).
  - apply IH1. intros y Hy. apply IH2. intros z Hz.
    apply Hk. by eapply reaches_trans.
  - by rewrite (IH1 k k' x Hk), (IH2 k k' x Hk).
  - by apply (repeatLoop_forward _ _ _ _ _ IH1).
  - apply IH1. intros y Hy. apply Hk.
    destruct Hy as (w & Hw & Hp). by exists w.
Qed.

Lemma repeatLoop_fuel m gs k :
  forwardOnly m →
  ∀ fuel fuel' mn mx x,
    (mn + length (rest x) < fuel)%nat →
    (mn + length (rest x) < fuel')%nat →
    repeatLoop m gs k fuel mn mx x = repeatLoop m gs k fuel' mn mx x.
Proof.
  intros Hm. induction fuel as [|fuel IH]; intros fuel' mn mx x Hf Hf'; [lia|].
  destruct fuel' as [|fuel']; [lia|]. cbn [repeatLoop].
  destruct (maxReached mx); [done|].
  assert (m (λ y, if Nat.eqb mn 0 && Nat.eqb (pos y) (pos x) then None
                  else repeatLoop m gs k fuel (Nat.pred mn) (Nat.pred <$> mx) y)
            (clearCaps gs x)
          = m (λ y, if Nat.eqb mn 0 && Nat.eqb (pos y) (pos x) then None
                    else repeatLoop m gs k fuel' (Nat.pred mn) (Nat.pred <$> mx) y)
              (clearCaps gs x)) as ->; [|done].
  apply Hm. intros y Hy.
  destruct (Nat.eqb mn 0 && Nat.eqb (pos y) (pos x)) eqn:Hstuck; [done|].
  apply reaches_length in Hy as [Hle Hlt]. cbn [clearCaps rest pos] in *.
  apply andb_false_iff in Hstuck as [Hmn|Hpos].
  - apply Nat.eqb_neq in Hmn. apply IH; lia.
  - apply Nat.eqb_neq in Hpos. specialize (Hlt Hpos). apply IH; lia.
Qed.

(** The repetition loop never runs out of steps: starting it with more than
    [run] gives it changes nothing. *)
Lemma run_Repeat_fuel mn mx r k x extra :
  repeatLoop (run ic r) (groupsOf r) k
             (S (mn + length (rest x)) + extra) mn mx x
  = run ic (Repeat mn mx r) k x.
Proof.
  cbn [run]. apply repeatLoop_fuel; [apply run_forward|lia..].
Qed.

Lemma matchAt_length r i p s m :
  matchAt ic r i p s = Some m → (length (matched m) ≤ length s)%nat.
Proof.
  unfold matchAt. destruct (run ic r Some _); [|done].
  intros [= <-]. simpl. rewrite length_take. lia.
Qed.

(** The global replacement never runs out of steps either. *)
Lemma replaceAllFrom_fuel r by_ fuel fuel' i p s :
  (length s < fuel)%nat → (length s < fuel')%nat →
  replaceAllFrom ic fuel r by_ i p s = replaceAllFrom ic fuel' r by_ i p s.
Proof.
  revert fuel' i p s.
  induction fuel as [|fuel IH]; intros fuel' i p s Hf Hf'; [lia|].
  destruct fuel' as [|fuel']; [lia|]. cbn [replaceAllFrom].
  destruct (matchAt ic r i p s) as [m|] eqn:Hm.
  - apply matchAt_length in Hm.
    destruct (length (matched m)) as [|n] eqn:Hlen.
    + destruct s as [|c s]; [done|]. simpl in *. do 2 f_equal. apply IH; lia.
    + f_equal. apply IH; rewrite length_drop; lia.
  - destruct s as [|c s]; [done|]. simpl in *. f_equal. apply IH; lia.
Qed.

End Bounds.

Section HostBounds.
Import Xtream M3U.

Lemma hexOctet_length s b s1 :
  hexOctet s = Some (b, s1) → length s = (3 + length s1)%nat.
Proof.
  unfold hexOctet. destruct s as [|p [|h [|l s']]]; try done.
  destruct (p =? code "%")%N; [|done].
  destruct (hexValue h); [|done]. destruct (hexValue l); [|done].
  simpl. by intros [= _ <-].
Qed.

Lemma continuationOctets_length n s bs s2 :
  continuationOctets n s = Some (bs, s2) → (length s2 ≤ length s)%nat.
Proof.
  revert s bs s2. induction n as [|n IH]; intros s bs s2; simpl.
  - by intros [= _ <-].
  - destruct (hexOctet s) as [[b s1]|] eqn:Hb; [|done]. simpl.
    destruct (continuationOctets n s1) as [[bs' s2']|] eqn:Hrest; [|done].
    simpl. intros [= _ <-].
    apply hexOctet_length in Hb. apply IH in Hrest. lia.
Qed.

(** [decodeURIComponent] never runs out of steps. *)
Lemma decodeFrom_fuel fuel fuel' s :
  (length s < fuel)%nat → (length s < fuel')%nat →
  decodeFrom fuel s = decodeFrom fuel' s.
Proof.
  revert fuel' s. induction fuel as [|fuel IH]; intros fuel' s Hf Hf'; [lia|].
  destruct fuel' as [|fuel']; [lia|]. cbn [decodeFrom].
  destruct s as [|c s']; [done|].
  destruct (c =? code "%")%N.
  - destruct (hexOctet (c :: s')) as [[b s1]|] eqn:Hb; [|done].
    cbn [mbind option_bind]. apply hexOctet_length in Hb.
    destruct (b <? 128)%N; [f_equal; apply IH; lia|].
    destruct (Nat.eqb (sequenceLength b) 1 || Nat.ltb 4 (sequenceLength b));
      [done|].
    destruct (continuationOctets _ s1) as [[bs s2]|] eqn:Hc; [|done].
    cbn [mbind option_bind]. apply continuationOctets_length in Hc.
    destruct (utf8CodePoint b bs); [|done].
    cbn [mbind option_bind]. f_equal. apply IH; lia.
  - f_equal. simpl in *. apply IH; lia.
Qed.

Lemma toInt32_range z : (-2147483648 ≤ toInt32 z < 2147483648)%Z.
Proof.
  unfold toInt32.
  pose proof (Z.mod_pos_bound (z + 2147483648) 4294967296). lia.
Qed.

Lemma toBase36_fuel fuel extra n acc :
  (0 ≤ n < 36 ^ Z.of_nat fuel)%Z → (0 < fuel)%nat →
  toBase36 (fuel + extra) n acc = toBase36 fuel n acc.
Proof.
  revert n acc. induction fuel as [|fuel IH]; intros n acc Hn Hfuel; [lia|].
  cbn [Nat.add toBase36].
  destruct (Z.ltb_spec n 36) as [Hlt|Hge]; [done|].
  destruct fuel as [|fuel].
  { change (36 ^ Z.of_nat 1)%Z with 36%Z in Hn. lia. }
  apply IH; [|lia].
  rewrite Nat2Z.inj_succ, Z.pow_succ_r in Hn by lia.
  split; [apply Z.div_pos; lia|].
  apply Z.div_lt_upper_bound; lia.
Qed.

(** Seven base-36 digits are enough for the absolute value of a 32-bit
    hash. *)
Lemma generateChannelId_fuel name url extra :
  toBase36 (7 + extra)
    (Z.abs (foldl (λ hash char,
                     toInt32 (toInt32 (hash * 32) - hash + Z.of_N char))
                  0%Z (name ++ js "-" ++ url))) []
  = generateChannelId name url.
Proof.
  unfold generateChannelId. apply toBase36_fuel; [|lia].
  set (str := name ++ js "-" ++ url).
  assert (-2147483648 ≤ foldl (λ hash char,
            toInt32 (toInt32 (hash * 32) - hash + Z.of_N char)) 0 str
          < 2147483648)%Z as Hrange.
  { induction str as [|c str IH] using rev_ind; [done|].
    rewrite foldl_app. simpl. apply toInt32_range. }
  change (36 ^ Z.of_nat 7)%Z with 78364164096%Z. lia.
Qed.

End HostBounds.



(** * Further properties of the code

    The remaining sections cover code that the specification does not speak
    about: the ranges of the extracted fields, the cleaning of titles, the
    listing helpers, the preference filters, the playlist tools and the
    programme guide cache. *)

(** ** The extent of a match *)

Section Extent.
Import Regex.

Variable ic : bool.

Lemma matchAt_consumes r i p s m :
  boundsInOrder ic r →
  matchAt ic r i p s = Some m →
  index m = i ∧ consumes ic r (matched m) ∧ ∃ post, s = matched m ++ post.
Proof.
  intros Hwf. unfold matchAt.
  destruct (run ic r Some _) as [y|] eqn:Hrun; [|done].
  intros [= <-]. cbn [index matched].
  apply (run_sound ic (λ _ _, True) r Hwf) in Hrun
    as (x' & w & [= ->] & _ & Hrest & Hpos & Hw); [|done].
  cbn [rest pos] in Hrest, Hpos. rewrite Hrest, Hpos.
  replace (i + length w - i)%nat with (length w) by lia.
  rewrite take_app_length. eauto.
Qed.

Lemma search_consumes r s : ∀ i p m,
  boundsInOrder ic r →
  search ic r i p s = Some m →
  consumes ic r (matched m)
  ∧ ∃ pre post, s = pre ++ matched m ++ post ∧ index m = (i + length pre)%nat.
Proof.
  induction s as [|c s IH]; intros i p m Hwf; rewrite search_unfold.
  - destruct (matchAt ic r i p []) as [m'|] eqn:Hm; [|done].
    intros [= ->]. apply matchAt_consumes in Hm as (Hi & Hw & post & Hs); [|done].
    split; [done|]. exists [], post. simpl. split; [done|lia].
  - destruct (matchAt ic r i p (c :: s)) as [m'|] eqn:Hm.
    + intros [= ->].
      apply matchAt_consumes in Hm as (Hi & Hw & post & Hs); [|done].
      split; [done|]. exists [], post. simpl. split; [done|lia].
    + intros Hsearch.
      apply IH in Hsearch as (Hw & pre & post & Hs & Hi); [|done].
      split; [done|]. exists (c :: pre), post. simpl. split; [by f_equal|lia].
Qed.

(** The text of a match is a piece of the subject that the pattern can
    consume, and the index of the match is where that piece starts. *)
Lemma exec_consumes r s m :
  boundsInOrder ic r →
  exec ic r s = Some m →
  consumes ic r (matched m)
  ∧ ∃ pre post, s = pre ++ matched m ++ post ∧ index m = length pre.
Proof.
  intros Hwf Hexec. by apply search_consumes in Hexec.
Qed.

End Extent.

(** ** The ranges of the extracted numbers *)

Section ExtractedNumbers.
Import Regex ContentParser.

Lemma parseInt_digits_range w :
  oneOrTwoDigits w → ∃ n, JS.parseInt w = JS.Int n ∧ (0 ≤ n ≤ 99)%Z.
Proof.
  intros [(a & -> & Ha)|(a & b & -> & Ha & Hb)].
  - apply isDigit_cases in Ha.
    repeat (apply elem_of_cons in Ha as [->|Ha];
            [eexists; split; [reflexivity|by vm_compute]|]).
    by apply elem_of_nil in Ha.
  - apply isDigit_cases in Ha, Hb.
    repeat (apply elem_of_cons in Ha as [->|Ha];
            [repeat (apply elem_of_cons in Hb as [->|Hb];
                     [eexists; split; [reflexivity|by vm_compute]|]);
             by apply elem_of_nil in Hb|]).
    by apply elem_of_nil in Ha.
Qed.

Lemma optional_char_consumed c w :
  consumes false (opt (Char c)) w → w = [] ∨ w = [c].
Proof.
  unfold opt. cbn [consumes].
  intros (ws & -> & Hall & _ & Hmax). specialize (Hmax 1%nat eq_refl).
  destruct ws as [|u [|? ?]]; simpl in *; [by left| |lia].
  apply Forall_cons in Hall as [(d & -> & Hd) _]. unfold canon in Hd.
  right. by rewrite Hd.
Qed.

Lemma lit_consumed s w : consumes false (lit s) w → w = js s.
Proof.
  unfold lit. revert w. induction (js s) as [|c l IH]; intros w; simpl.
  - done.
  - intros (u & v & -> & (d & -> & Hd) & Hv). unfold canon in Hd.
    rewrite (IH v Hv). by rewrite Hd.
Qed.

Lemma YEAR_consumed w :
  consumes false YEAR_PATTERN w →
  ∃ pre y a b post,
    w = pre ++ y ++ [a; b] ++ post
    ∧ (pre = [] ∨ pre = [code "("])
    ∧ (y = js "19" ∨ y = js "20")
    ∧ JS.isDigit a = true ∧ JS.isDigit b = true
    ∧ (post = [] ∨ post = [code ")"]).
Proof.
  unfold YEAR_PATTERN. cbn [seqs]. cbn [consumes].
  intros (pre & w1 & -> & Hpre & y & w2 & -> & Hy & dd & post & -> & Hdd & Hpost).
  apply optional_char_consumed in Hpre, Hpost.
  assert (y = js "19" ∨ y = js "20") as Hy'.
  { destruct Hy as [Hy|Hy]; [left|right]; by apply lit_consumed. }
  unfold digits in Hdd. cbn [consumes] in Hdd.
  destruct Hdd as (ws & -> & Hall & Hmin & Hmax).
  specialize (Hmax 2%nat eq_refl).
  destruct ws as [|u [|v [|? ?]]]; simpl in *; try lia.
  apply Forall_cons in Hall as [(a & -> & Ha) Hall].
  apply Forall_cons in Hall as [(b & -> & Hb) _].
  exists pre, y, a, b, post. simpl. by split_and!.
Qed.

Lemma YEAR_bounds : boundsInOrder false YEAR_PATTERN.
Proof.
  unfold boundsInOrder, YEAR_PATTERN, opt, digits.
  cbn [seqs capturesWithin].
  split_and!; try done; try (intros ? [= <-]; lia); apply lit_captures.
Qed.

Lemma year_value w :
  consumes false YEAR_PATTERN w →
  ∃ n, JS.parseInt (replaceAll false PARENS [] w) = JS.Int n
       ∧ (1900 ≤ n ≤ 2099)%Z.
Proof.
  intros (pre & y & a & b & post & -> & Hpre & Hy & Ha & Hb & Hpost)%YEAR_consumed.
  apply isDigit_cases in Ha, Hb.
  destruct Hpre as [->| ->], Hy as [->| ->], Hpost as [->| ->];
    repeat (apply elem_of_cons in Ha as [->|Ha];
            [repeat (apply elem_of_cons in Hb as [->|Hb];
                     [eexists; split; [reflexivity|by vm_compute]|]);
             by apply elem_of_nil in Hb|]);
    by apply elem_of_nil in Ha.
Qed.

Lemma year_extracted name y :
  year (parseContentMetadata name) = Some y →
  ∃ n, y = JS.Int n ∧ (1900 ≤ n ≤ 2099)%Z.
Proof.
  change (year (parseContentMetadata name)) with (year (extractFields name)).
  rewrite year_extractFields.
  destruct (exec false YEAR_PATTERN name) as [m|] eqn:Hm; [|done].
  cbn [fmap option_fmap option_map]. intros [= <-].
  apply exec_consumes in Hm as [Hw _]; [|apply YEAR_bounds].
  destruct (year_value _ Hw) as (n & -> & Hn). eauto.
Qed.

Lemma season_in_range name s :
  season (parseContentMetadata name) = Some s →
  ∃ n, s = JS.Int n ∧ (0 ≤ n ≤ 99)%Z.
Proof.
  change (season (parseContentMetadata name)) with (season (extractFields name)).
  rewrite season_extractFields.
  destruct (exec true SEASON_EPISODE_PATTERN name) as [m|] eqn:Hse.
  - destruct (exec_defines true _ _ _ 1%nat Hse) as [w Hw].
    { unfold SEASON_EPISODE_PATTERN. cbn. set_solver. }
    rewrite Hw. change (default [] (Some w)) with w.
    destruct (parseInt_digits_range w) as (n & -> & Hn); [|intros [= <-]; eauto].
    by apply (exec_captures true (λ _, oneOrTwoDigits) _ _ _ _ _
                SEASON_EPISODE_captures Hse Hw).
  - destruct (exec true SEASON_PATTERN name) as [m|] eqn:Hs; [|done].
    cbn [fmap option_fmap option_map].
    destruct (exec_defines true _ _ _ 1%nat Hs) as [w Hw].
    { unfold SEASON_PATTERN. cbn. set_solver. }
    rewrite Hw. change (default [] (Some w)) with w.
    destruct (parseInt_digits_range w) as (n & -> & Hn); [|intros [= <-]; eauto].
    by apply (exec_captures true (λ _, oneOrTwoDigits) _ _ _ _ _
                SEASON_captures Hs Hw).
Qed.

Lemma episode_in_range name e :
  episode (parseContentMetadata name) = Some e →
  ∃ n, e = JS.Int n ∧ (0 ≤ n ≤ 99)%Z.
Proof.
  change (episode (parseContentMetadata name))
    with (episode (extractFields name)).
  rewrite episode_extractFields.
  destruct (exec true SEASON_EPISODE_PATTERN name) as [m|] eqn:Hse; [|done].
  destruct (capture 2 m) as [w|] eqn:Hw; [|done].
  destruct (truthyString (Some w)); [|done].
  change (default [] (Some w)) with w.
  destruct (parseInt_digits_range w) as (n & -> & Hn); [|intros [= <-]; eauto].
  by apply (exec_captures true (λ _, oneOrTwoDigits) _ _ _ _ _
              SEASON_EPISODE_captures Hse Hw).
Qed.

(** X1. The numbers that [parseContentMetadata] extracts are never [NaN]:
    a year is an integer from 1900 to 2099, a season and an episode are
    integers from 0 to 99. *)
Theorem X1_extracted_numbers_in_range (name : jsstring) :
  (∀ y, year (parseContentMetadata name) = Some y →
        ∃ n, y = JS.Int n ∧ (1900 ≤ n ≤ 2099)%Z)
  ∧ (∀ s, season (parseContentMetadata name) = Some s →
          ∃ n, s = JS.Int n ∧ (0 ≤ n ≤ 99)%Z)
  ∧ (∀ e, episode (parseContentMetadata name) = Some e →
          ∃ n, e = JS.Int n ∧ (0 ≤ n ≤ 99)%Z).
Proof.
  split_and!.
  - apply year_extracted.
  - apply season_in_range.
  - apply episode_in_range.
Qed.

End ExtractedNumbers.

Lemma X1_witness :
  ∃ n, JS.Int 2010 = JS.Int n ∧ (1900 ≤ n ≤ 2099)%Z.
Proof.
  apply (proj1 (X1_extracted_numbers_in_range (js "Inception (2010) S02E07"))).
  by vm_compute.
Defined.

(** ** The extracted tags come from the tables *)

Section KnownTags.
Import Regex ContentParser.

Lemma country_known name c :
  country (parseContentMetadata name) = Some c → c ∈ COUNTRIES.
Proof.
  change (country (parseContentMetadata name)) with (country (extractFields name)).
  rewrite country_extractFields. cbv zeta.
  assert (∀ p q, (p, q) ∈ COUNTRY_PATTERNS → p ∈ COUNTRIES) as Htable.
  { intros p q Hin. unfold COUNTRY_PATTERNS in Hin.
    apply list_elem_of_fmap in Hin as ([k ws] & [= -> _] & Hin).
    apply (list_elem_of_fmap_2 (λ e, js e.1)) in Hin. exact Hin. }
  assert (∀ (o : option (jsstring * regex)) fallback,
            (∀ f, fallback = Some f → f ∈ COUNTRIES) →
            match o with Some (code, _) => Some code | None => fallback end
              = Some c →
            o = firstMatch COUNTRY_PATTERNS name → c ∈ COUNTRIES) as Hfirst.
  { intros [[p q]|] fallback Hfallback; [|by intros ?%Hfallback].
    intros [= <-] Hf. symmetry in Hf.
    apply find_some in Hf as [Hin _]. apply list_elem_of_In in Hin.
    by eapply Htable. }
  destruct (exec true COUNTRY_PREFIX name) as [m|].
  - destruct (bool_decide _) eqn:Hknown.
    + apply bool_decide_eq_true in Hknown.
      destruct (toUpperCase (default [] (capture 1 m))) eqn:Hp.
      * cbn [truthyString]. intros Hc.
        eapply Hfirst; [|exact Hc|done]. by intros f [= <-].
      * cbn [truthyString]. by intros [= <-].
    + cbn [truthyString]. intros Hc.
      by eapply (Hfirst _ None); [|exact Hc|].
  - cbn [truthyString]. intros Hc.
    by eapply (Hfirst _ None); [|exact Hc|].
Qed.

Lemma quality_known name q :
  quality (parseContentMetadata name) = Some q →
  q ∈ QualitySelection.qualityOrder.
Proof.
  change (quality (parseContentMetadata name)) with (quality (extractFields name)).
  rewrite quality_extractFields.
  destruct (firstMatch QUALITY_PATTERNS name) as [[q' p]|] eqn:Hf; [|done].
  intros [= <-]. apply find_some in Hf as [Hin _].
  apply list_elem_of_In in Hin.
  apply (list_elem_of_fmap_2 fst) in Hin. exact Hin.
Qed.

Lemma language_known name l :
  language (parseContentMetadata name) = Some l →
  l ∈ map js ["MULTI"; "VFF"; "VF"; "TRUEFRENCH"; "VOSTFR"; "VO"]%string.
Proof.
  change (language (parseContentMetadata name))
    with (language (extractFields name)).
  rewrite language_extractFields.
  destruct (firstMatch LANGUAGE_PATTERNS name) as [[l' p]|] eqn:Hf; [|done].
  intros [= <-]. apply find_some in Hf as [Hin _].
  apply list_elem_of_In in Hin.
  apply (list_elem_of_fmap_2 fst) in Hin. exact Hin.
Qed.

(** X2. Whatever the title, a detected country is one of the 22 keys of the
    [COUNTRIES] table, a detected quality is one of the four tiers (never
    [auto]), and a detected language is one of the six tags of the language
    table. *)
Theorem X2_extracted_tags_are_known (name : jsstring) :
  (∀ c, country (parseContentMetadata name) = Some c → c ∈ COUNTRIES)
  ∧ (∀ q, quality (parseContentMetadata name) = Some q →
          q ∈ [Q4K; FHD; HD; SD])
  ∧ (∀ l, language (parseContentMetadata name) = Some l →
          l ∈ map js ["MULTI"; "VFF"; "VF"; "TRUEFRENCH"; "VOSTFR"; "VO"]%string).
Proof.
  split_and!.
  - apply country_known.
  - apply quality_known.
  - apply language_known.
Qed.

End KnownTags.

Lemma X2_witness : js "FR" ∈ COUNTRIES.
Proof.
  apply (proj1 (X2_extracted_tags_are_known (js "fr | TF1 HD"))).
  by vm_compute.
Defined.

(** ** Trimming *)

Section Trimming.

Lemma trimStart_suffix s :
  ∃ pre, s = pre ++ JS.trimStart s ∧ Forall (λ c, JS.isSpace c = true) pre.
Proof.
  induction s as [|c s (pre & Hs & Hpre)]; simpl.
  - by exists [].
  - destruct (JS.isSpace c) eqn:Hc.
    + exists (c :: pre). split; [simpl; by f_equal|by constructor].
    + by exists [].
Qed.

Lemma trimStart_head s c :
  head (JS.trimStart s) = Some c → JS.isSpace c = false.
Proof.
  induction s as [|d s IH]; simpl; [done|].
  destruct (JS.isSpace d) eqn:Hd; [done|]. simpl. by intros [= <-].
Qed.

Lemma trimEnd_prefix s :
  ∃ post, s = JS.trimEnd s ++ post ∧ Forall (λ c, JS.isSpace c = true) post.
Proof.
  unfold JS.trimEnd. destruct (trimStart_suffix (rev s)) as (pre & Hs & Hpre).
  exists (rev pre). split.
  - rewrite <- rev_app_distr, <- Hs. by rewrite rev_involutive.
  - apply Forall_forall. intros c Hc. rewrite Forall_forall in Hpre.
    apply Hpre. apply list_elem_of_In. apply in_rev. by apply list_elem_of_In.
Qed.

Lemma last_rev {A} (l : list A) : last (rev l) = head l.
Proof. destruct l; simpl; [done|]. by rewrite last_snoc. Qed.

Lemma trimEnd_last s c :
  last (JS.trimEnd s) = Some c → JS.isSpace c = false.
Proof.
  unfold JS.trimEnd. rewrite last_rev. apply trimStart_head.
Qed.

Lemma trim_elem s c : c ∈ JS.trim s → c ∈ s.
Proof.
  unfold JS.trim. intros Hc.
  destruct (trimEnd_prefix (JS.trimStart s)) as (post & Hs & _).
  destruct (trimStart_suffix s) as (pre & Hs' & _).
  rewrite Hs', Hs. set_solver.
Qed.

Lemma trim_trimmed s : trimmed (JS.trim s).
Proof.
  unfold JS.trim. split; [|apply trimEnd_last].
  intros c Hc.
  destruct (trimEnd_prefix (JS.trimStart s)) as (post & Hs & _).
  apply (trimStart_head s). rewrite Hs.
  destruct (JS.trimEnd (JS.trimStart s)); [done|]. exact Hc.
Qed.

End Trimming.

(** ** Replacing every match *)

Section Replacing.
Import Regex.

Variable ic : bool.

(** A global replacement only writes characters of the subject or of the
    replacement text. *)
Lemma replaceAllFrom_elem r by_ c : ∀ fuel i p s,
  c ∈ replaceAllFrom ic fuel r by_ i p s → c ∈ by_ ∨ c ∈ s.
Proof.
  induction fuel as [|fuel IH]; intros i p s; cbn [replaceAllFrom]; [by right|].
  destruct (matchAt ic r i p s) as [m|].
  - destruct (length (matched m)) as [|n].
    + destruct s as [|d s]; [by left|].
      rewrite elem_of_app, elem_of_cons.
      intros [?|[->|[?|?]%IH]]; set_solver.
    + rewrite elem_of_app. intros [?|[?|Hc]%IH]; [by left..|right].
      rewrite <- (take_drop (S n) s). set_solver.
  - destruct s as [|d s]; [by intros ?%elem_of_nil|].
    rewrite elem_of_cons. intros [->|[?|?]%IH]; set_solver.
Qed.

Lemma replaceAll_elem r by_ s c :
  c ∈ replaceAll ic r by_ s → c ∈ by_ ∨ c ∈ s.
Proof. apply replaceAllFrom_elem. Qed.

Lemma repeatLoop_optional m gs k fuel mx x :
  (∀ y, is_Some (k y)) →
  is_Some (repeatLoop m gs k (S fuel) 0 mx x).
Proof.
  intros Hk. cbn [repeatLoop]. destruct (maxReached mx); [done|].
  cbn [Nat.eqb]. destruct (m _ _); eauto.
Qed.

Lemma repeatLoop_required m gs k fuel mn x :
  repeatLoop m gs k (S fuel) (S mn) None x
  = m (λ y, repeatLoop m gs k fuel mn None y) (clearCaps gs x).
Proof. reflexivity. Qed.

Lemma readsOne_class neg rs :
  readsOne ic (CharSet neg rs) (classMatches ic neg rs).
Proof.
  split_and!; [done|done|]. cbn [consumes]. intros w (d & -> & _). eauto.
Qed.

Lemma readsOne_space : readsOne ic Space JS.isSpace.
Proof.
  split_and!; [done|done|]. cbn [consumes]. intros w (d & -> & _). eauto.
Qed.

(** One or more characters of a kind match wherever a character of the
    kind stands. *)
Lemma plus_matches r p i q c tl :
  readsOne ic r p → p c = true →
  is_Some (matchAt ic (plus r) i q (c :: tl)).
Proof.
  intros (Hrun & _ & _) Hc. unfold matchAt.
  assert (is_Some (run ic (plus r) Some (MState i q (c :: tl) [])))
    as [y Hy]; [|by rewrite Hy].
  unfold plus. cbn [run rest Nat.add length].
  rewrite repeatLoop_required, Hrun. unfold single.
  cbn [rest clearCaps]. rewrite Hc. by apply repeatLoop_optional.
Qed.

(** After every run of characters of a kind has been replaced, none of
    them is left, unless the replacement text brings one. *)
Lemma replaceAllFrom_plus r p by_ c : readsOne ic r p → ∀ fuel i q s,
  (length s < fuel)%nat →
  c ∈ replaceAllFrom ic fuel (plus r) by_ i q s →
  c ∈ by_ ∨ p c = false.
Proof.
  intros Hr. pose proof Hr as (_ & Hbounds & Hone).
  assert (boundsInOrder ic (plus r)) as Hwf.
  { unfold boundsInOrder, plus. cbn. split; [done|]. by intros ? [=]. }
  induction fuel as [|fuel IH]; intros i q s Hfuel; [lia|].
  cbn [replaceAllFrom].
  destruct (matchAt ic _ i q s) as [m|] eqn:Hm.
  - apply matchAt_consumes in Hm as (_ & Hw & post & Hs); [|done].
    destruct (length (matched m)) as [|n] eqn:Hlen.
    + exfalso. unfold plus in Hw. cbn [consumes] in Hw.
      destruct Hw as (ws & Hws & Hall & Hmin & _).
      rewrite Hws in Hlen. destruct ws as [|w ws]; simpl in *; [lia|].
      apply Forall_cons in Hall as [(d & -> )%Hone _]. done.
    + rewrite elem_of_app. intros [?|Hc]; [by left|].
      apply IH in Hc; [done|]. rewrite length_drop.
      apply (f_equal length) in Hs. rewrite length_app in Hs. lia.
  - destruct s as [|d s]; [by intros ?%elem_of_nil|].
    rewrite elem_of_cons. intros [->|Hc].
    + right. destruct (p d) eqn:Hd; [|done].
      destruct (plus_matches r p i q d s Hr Hd) as [m' Hm'].
      by rewrite Hm' in Hm.
    + apply IH in Hc; [done|]. simpl in Hfuel. lia.
Qed.

Lemma replaceAllFrom_plus_class neg rs by_ c fuel i q s :
  (length s < fuel)%nat →
  c ∈ replaceAllFrom ic fuel (plus (CharSet neg rs)) by_ i q s →
  c ∈ by_ ∨ classMatches ic neg rs c = false.
Proof. apply replaceAllFrom_plus, readsOne_class. Qed.

Lemma replaceAll_plus_space by_ c s :
  c ∈ replaceAll ic (plus Space) by_ s → c ∈ by_ ∨ JS.isSpace c = false.
Proof.
  apply (replaceAllFrom_plus Space JS.isSpace); [apply readsOne_space|lia].
Qed.

End Replacing.

(** ** The cleaning of a title *)

Section CleanName.
Import Regex ContentParser.

Lemma separator_class c :
  classMatches false false
    [(code ":", code ":"); (code "-", code "-"); (code "|", code "|")] c
  = isSeparator c.
Proof.
  unfold classMatches, inRanges, isSeparator, JS.between.
  cbn [existsb fst snd xorb andb orb]. rewrite !orb_false_r.
  rewrite !(N.eqb_sym c).
  repeat match goal with
  | |- context [(?a <=? c)%N && (c <=? ?a)%N] =>
      replace ((a <=? c)%N && (c <=? a)%N) with (a =? c)%N
        by (destruct (N.eqb_spec a c) as [->|];
            [by rewrite N.leb_refl|];
            destruct (N.leb_spec a c), (N.leb_spec c a); simpl; try done; lia)
  end.
  by rewrite orb_assoc.
Qed.

Lemma finalClean_no_separator s c :
  c ∈ finalClean s → isSeparator c = false.
Proof.
  unfold finalClean. intros Hc%trim_elem.
  apply replaceAll_elem in Hc as [Hc|Hc]; [by apply elem_of_nil in Hc|].
  apply replaceAll_elem in Hc as [Hc|Hc]; [by apply elem_of_nil in Hc|].
  apply replaceAll_elem in Hc as [Hc|Hc].
  { apply list_elem_of_singleton in Hc as ->. done. }
  apply replaceAllFrom_plus_class in Hc as [Hc|Hc]; [| |lia].
  - apply list_elem_of_singleton in Hc as ->. done.
  - by rewrite <- separator_class.
Qed.

Lemma finalClean_trimmed s : trimmed (finalClean s).
Proof. apply trim_trimmed. Qed.

(** X3. The clean name of a title is empty only for the empty title, and it
    is either the title as it stands (the fallback taken when cleaning
    leaves nothing) or a text without any of the separators colon, hyphen
    and vertical bar and without white space at either end. *)
Theorem X3_clean_name_is_clean (name : jsstring) :
  (name ≠ [] → cleanName (parseContentMetadata name) ≠ [])
  ∧ (cleanName (parseContentMetadata name) = name
     ∨ (Forall (λ c, isSeparator c = false)
               (cleanName (parseContentMetadata name))
        ∧ trimmed (cleanName (parseContentMetadata name)))).
Proof.
  cbn [parseContentMetadata cleanName]. unfold orName.
  destruct (finalClean (cleanName (extractFields name))) as [|c s] eqn:Hclean.
  - split; [done|by left].
  - split; [done|]. right. rewrite <- Hclean. split.
    + apply Forall_forall. intros d. apply finalClean_no_separator.
    + apply finalClean_trimmed.
Qed.

End CleanName.

Lemma X3_witness :
  cleanName (ContentParser.parseContentMetadata (js "FR | TF1 - HD")) ≠ [].
Proof.
  apply (proj1 (X3_clean_name_is_clean (js "FR | TF1 - HD"))).
  by vm_compute.
Defined.

(** ** Sets of strings and their sorting *)

Section StringSets.
Import ContentParser.

Lemma ltb_irrefl a : JS.ltb a a = false.
Proof.
  induction a as [|x a IH]; simpl; [done|].
  by rewrite N.ltb_irrefl, N.eqb_refl, IH.
Qed.

Lemma ltb_trans a b c :
  JS.ltb a b = true → JS.ltb b c = true → JS.ltb a c = true.
Proof.
  revert b c. induction a as [|x a IH]; intros [|y b] [|z c]; simpl; try done.
  rewrite !orb_true_iff, !andb_true_iff, !N.ltb_lt, !N.eqb_eq.
  intros [Hxy|[-> Hab]] [Hyz|[-> Hbc]].
  - left. lia.
  - by left.
  - by left.
  - right. split; [done|]. by eapply IH.
Qed.

Lemma ltb_total a b :
  JS.ltb a b = false → JS.ltb b a = false → a = b.
Proof.
  revert b. induction a as [|x a IH]; intros [|y b]; simpl; try done.
  rewrite !orb_false_iff, !andb_false_iff, !N.ltb_ge, !N.eqb_neq.
  intros [Hxy Hab] [Hyx Hba].
  assert (x = y) as -> by lia. f_equal. apply IH.
  - by destruct Hab.
  - by destruct Hba.
Qed.

Lemma elem_of_setAdd x y s : y ∈ setAdd x s ↔ y = x ∨ y ∈ s.
Proof.
  unfold setAdd. case_bool_decide as Hx.
  - split; [by right|]. by intros [->|?].
  - rewrite elem_of_app, list_elem_of_singleton. tauto.
Qed.

Lemma NoDup_setAdd x s : NoDup s → NoDup (setAdd x s).
Proof.
  unfold setAdd. case_bool_decide; [done|]. intros Hs.
  apply NoDup_app. split_and!; [done| |apply NoDup_singleton].
  intros y Hy ->%list_elem_of_singleton. done.
Qed.

Lemma insertString_perm a l : insertString a l ≡ₚ a :: l.
Proof.
  induction l as [|b l IH]; simpl; [done|].
  destruct (JS.ltb b a); [|done]. rewrite IH. apply Permutation_swap.
Qed.

Lemma sortStrings_perm l : sortStrings l ≡ₚ l.
Proof.
  induction l as [|a l IH]; simpl; [done|].
  by rewrite insertString_perm, IH.
Qed.

Lemma insertString_ascending a l :
  a ∉ l → ascending l → ascending (insertString a l).
Proof.
  unfold ascending. intros Ha Hl.
  induction Hl as [|b l Hl IH Hb]; simpl.
  - repeat constructor.
  - apply not_elem_of_cons in Ha as [Hab Ha].
    destruct (JS.ltb b a) eqn:Hba.
    + constructor; [by apply IH|].
      rewrite insertString_perm. by constructor.
    + assert (JS.ltb a b = true) as Hlt.
      { destruct (JS.ltb a b) eqn:Hlt; [done|].
        by apply ltb_total in Hlt. }
      constructor; [by constructor|].
      constructor; [done|].
      eapply Forall_impl; [exact Hb|]. intros c Hc. simpl in Hc.
      by eapply ltb_trans.
Qed.

Lemma sortStrings_ascending l : NoDup l → ascending (sortStrings l).
Proof.
  induction 1 as [|a l Ha Hl IH]; simpl; [constructor|].
  apply insertString_ascending; [|done]. by rewrite sortStrings_perm.
Qed.

Lemma ascending_NoDup l : ascending l → NoDup l.
Proof.
  induction 1 as [|a l Hl IH Ha]; constructor; [|done].
  intros Hin. rewrite Forall_forall in Ha. specialize (Ha a Hin). simpl in Ha.
  by rewrite ltb_irrefl in Ha.
Qed.

Lemma firstOccurrences_elem l x : x ∈ firstOccurrences l ↔ x ∈ l.
Proof.
  induction l as [|y l IH]; simpl; [done|].
  rewrite !elem_of_cons, <- IH. split.
  - intros [->|Hin]; [by left|]. right.
    apply list_elem_of_In, List.filter_In in Hin as [Hin _].
    by apply list_elem_of_In.
  - intros [->|Hin]; [by left|].
    destruct (decide (x = y)) as [->|Hne]; [by left|]. right.
    apply list_elem_of_In, List.filter_In. split; [by apply list_elem_of_In|].
    apply negb_true_iff. by apply eqb_neq.
Qed.

Lemma NoDup_List_filter {A} (f : A → bool) l : NoDup l → NoDup (List.filter f l).
Proof.
  induction 1 as [|a l Ha Hl IH]; simpl; [constructor|].
  destruct (f a); [|done]. constructor; [|done].
  intros Hin. apply Ha.
  apply list_elem_of_In, List.filter_In in Hin as [Hin _].
  by apply list_elem_of_In.
Qed.

Lemma firstOccurrences_NoDup l : NoDup (firstOccurrences l).
Proof.
  induction l as [|y l IH]; simpl; constructor.
  - intros Hin. apply list_elem_of_In, List.filter_In in Hin as [_ Hne].
    by rewrite eqb_refl in Hne.
  - by apply NoDup_List_filter.
Qed.

Lemma filter_ext_elem {A} (f g : A → bool) l :
  (∀ x, x ∈ l → f x = g x) → List.filter f l = List.filter g l.
Proof.
  induction l as [|a l IH]; simpl; [done|]. intros Hfg.
  rewrite (Hfg a) by (by left). rewrite IH; [done|].
  intros x Hx. apply Hfg. by right.
Qed.

(** The set built by successive [add] calls lists the elements in the order
    of their first occurrence. *)
Lemma foldl_setAdd l : ∀ acc,
  foldl (λ s x, setAdd x s) acc l
  = acc ++ List.filter (λ y, negb (bool_decide (y ∈ acc))) (firstOccurrences l).
Proof.
  induction l as [|x l IH]; intros acc; simpl; [by rewrite app_nil_r|].
  rewrite IH. unfold setAdd. case_bool_decide as Hx; simpl.
  - f_equal. rewrite filter_filter. apply filter_ext_elem.
    intros y _. destruct (JS.eqb y x) eqn:Hyx; simpl; [|done].
    apply eqb_eq in Hyx as ->. by rewrite bool_decide_eq_true_2.
  - rewrite <- app_assoc. simpl. do 2 f_equal.
    rewrite filter_filter. apply filter_ext_elem.
    intros y _. destruct (JS.eqb y x) eqn:Hyx; simpl.
    + apply eqb_eq in Hyx as ->. rewrite bool_decide_eq_true_2; [done|].
      apply elem_of_app. right. by apply list_elem_of_singleton.
    + apply eqb_neq in Hyx. apply (f_equal negb).
      apply bool_decide_ext. rewrite elem_of_app, list_elem_of_singleton.
      tauto.
Qed.

Lemma foldl_setAdd_empty l :
  foldl (λ s x, setAdd x s) [] l = firstOccurrences l.
Proof.
  rewrite foldl_setAdd. simpl. induction (firstOccurrences l) as [|y t IH];
    simpl; [done|]. by rewrite IH.
Qed.

(** A loop that adds the truthy tags of the titles to a set. *)
Lemma foldl_tags (tag : jsstring → option jsstring) names : ∀ acc,
  (∀ name t, tag name = Some t → t ≠ []) →
  foldl (λ s name, if truthyString (tag name)
                   then setAdd (default [] (tag name)) s else s) acc names
  = foldl (λ s x, setAdd x s) acc (omap tag names).
Proof.
  intros acc Htag. revert acc.
  induction names as [|name names IH]; intros acc; simpl; [done|].
  destruct (tag name) as [t|] eqn:Ht; simpl; [|apply IH].
  destruct t as [|c t]; [by apply Htag in Ht|]. simpl. apply IH.
Qed.

End StringSets.

(** ** The listing helpers *)

Section Listings.
Import Regex ContentParser.

Lemma language_extracted name l :
  language (parseContentMetadata name) = Some l → l ≠ [].
Proof.
  intros Hl%language_known Hempty. subst l.
  apply list_elem_of_fmap in Hl as (k & Hk & Hin).
  repeat (apply elem_of_cons in Hin as [->|Hin]; [done|]).
  by apply elem_of_nil in Hin.
Qed.

(** X5. [extractUniqueCountries] lists exactly the countries detected in
    the titles, each once, in strictly ascending order of the code units;
    all of them are keys of the [COUNTRIES] table. *)
Theorem X5_unique_countries_sorted (names : list jsstring) :
  ascending (extractUniqueCountries names)
  ∧ NoDup (extractUniqueCountries names)
  ∧ (∀ c, c ∈ extractUniqueCountries names ↔
          ∃ name, name ∈ names ∧ country (parseContentMetadata name) = Some c)
  ∧ (∀ c, c ∈ extractUniqueCountries names → c ∈ COUNTRIES).
Proof.
  unfold extractUniqueCountries. cbv zeta.
  rewrite (foldl_tags (λ name, country (parseContentMetadata name)))
    by apply country_extracted.
  rewrite foldl_setAdd_empty.
  assert (ascending (sortStrings (firstOccurrences
            (omap (λ name, country (parseContentMetadata name)) names))))
    as Hasc by apply sortStrings_ascending, firstOccurrences_NoDup.
  assert (∀ c, c ∈ sortStrings (firstOccurrences
                 (omap (λ name, country (parseContentMetadata name)) names))
               ↔ ∃ name, name ∈ names
                         ∧ country (parseContentMetadata name) = Some c)
    as Hmem.
  { intros c. rewrite sortStrings_perm, firstOccurrences_elem.
    apply list_elem_of_omap. }
  split_and!; [done|by apply ascending_NoDup|done|].
  intros c (name & _ & Hc)%Hmem. by eapply country_known.
Qed.

(** X6. [extractUniqueLanguages] lists the languages detected in the titles
    in the order in which they first occur, each once. *)
Theorem X6_unique_languages_in_order (names : list jsstring) :
  extractUniqueLanguages names
  = firstOccurrences (omap (λ name, language (parseContentMetadata name)) names)
  ∧ NoDup (extractUniqueLanguages names)
  ∧ (∀ l, l ∈ extractUniqueLanguages names ↔
          ∃ name, name ∈ names ∧ language (parseContentMetadata name) = Some l).
Proof.
  unfold extractUniqueLanguages.
  rewrite (foldl_tags (λ name, language (parseContentMetadata name)))
    by apply language_extracted.
  rewrite foldl_setAdd_empty.
  split_and!; [done|apply firstOccurrences_NoDup|].
  intros l. rewrite firstOccurrences_elem. apply list_elem_of_omap.
Qed.

End Listings.

(** ** The cleaning of a category name *)

Section Categories.
Import Regex ContentParser.

Lemma search_matchAt ic r s : ∀ i p m,
  search ic r i p s = Some m →
  ∃ pre s' p', s = pre ++ s'
               ∧ matchAt ic r (i + length pre) p' s' = Some m.
Proof.
  induction s as [|c s IH]; intros i p m; rewrite search_unfold.
  - destruct (matchAt ic r i p []) as [m'|] eqn:Hm; [|done].
    intros [= ->]. exists [], [], p. simpl. by rewrite Nat.add_0_r.
  - destruct (matchAt ic r i p (c :: s)) as [m'|] eqn:Hm.
    + intros [= ->]. exists [], (c :: s), p. simpl. by rewrite Nat.add_0_r.
    + intros (pre & s' & p' & -> & Hm')%IH.
      exists (c :: pre), s', p'. simpl. split; [done|].
      by rewrite <- Nat.add_succ_comm.
Qed.

Lemma trim_bare s : bare s → JS.trim s = s.
Proof.
  intros Hs. unfold JS.trim.
  assert (∀ t : jsstring, (∀ c, head t = Some c → JS.isSpace c = false) →
            JS.trimStart t = t) as Hstart.
  { intros [|c t] Ht; simpl; [done|]. by rewrite (Ht c). }
  rewrite Hstart by (intros c Hc; apply Hs; by left).
  unfold JS.trimEnd. rewrite Hstart; [apply rev_involutive|].
  intros c Hc. rewrite <- last_rev, rev_involutive in Hc. apply Hs. by right.
Qed.

Lemma spaces_consumed ic w :
  consumes ic (star Space) w → Forall (λ c, JS.isSpace c = true) w.
Proof.
  unfold star. cbn [consumes]. intros (ws & -> & Hall & _).
  induction Hall as [|u ws (d & -> & Hd) _ IH]; simpl; [constructor|].
  by constructor.
Qed.

Lemma LEADING_BAR_bare c tl :
  JS.isSpace c = false → c ≠ code "|" →
  replace false LEADING_BAR [] (c :: tl) = c :: tl.
Proof.
  intros Hspace Hbar.
  assert (exec false LEADING_BAR (c :: tl)
          = Some (Result 0 [] [])) as Hexec; [|unfold replace; by rewrite Hexec].
  unfold exec. rewrite search_unfold. unfold matchAt, LEADING_BAR, opt, star.
  cbn [seqs run pos Nat.eqb rest Nat.add length].
  cbn [repeatLoop maxReached Nat.eqb run]. unfold single. cbn [rest clearCaps].
  unfold canon. rewrite Hspace.
  destruct (N.eqb_spec (code "|") c) as [<-|_]; [done|]. done.
Qed.

Lemma TRAILING_BAR_whole i p s m :
  matchAt false TRAILING_BAR i p s = Some m →
  matched m = s
  ∧ ∃ u v w, s = u ++ v ++ w
             ∧ Forall (λ c, JS.isSpace c = true) u
             ∧ (v = [] ∨ v = [code "|"])
             ∧ Forall (λ c, JS.isSpace c = true) w.
Proof.
  unfold matchAt, TRAILING_BAR. cbn [seqs run].
  destruct (run false (star Space) _ _) as [y|] eqn:Hrun; [|done].
  intros [= <-]. cbn [matched].
  apply (run_sound false (λ _ _, True) (star Space)) in Hrun
    as (x1 & u & Hrun & _ & Hrest1 & Hpos1 & Hu); [|by split|done].
  apply (run_sound false (λ _ _, True) (opt (Char (code "|")))) in Hrun
    as (x2 & v & Hrun & _ & Hrest2 & Hpos2 & Hv);
    [|split; [done|intros ? [= <-]; lia]|done].
  apply (run_sound false (λ _ _, True) (star Space)) in Hrun
    as (x3 & w & Hrun & _ & Hrest3 & Hpos3 & Hw); [|by split|done].
  destruct (rest x3) eqn:Hend; [|done]. injection Hrun as <-.
  cbn [rest pos] in *. rewrite app_nil_r in Hrest3.
  rewrite Hrest3 in Hrest2. rewrite Hrest2 in Hrest1.
  split.
  - rewrite Hpos3, Hpos2, Hpos1, Hrest1.
    replace (i + length u + length v + length w - i)%nat
      with (length (u ++ v ++ w)) by (rewrite !length_app; lia).
    by rewrite firstn_all.
  - exists u, v, w.
    split_and!; [done|by apply (spaces_consumed false)| |
                 by apply (spaces_consumed false)].
    by apply optional_char_consumed.
Qed.

Lemma TRAILING_BAR_bare s :
  bare s → replace false TRAILING_BAR [] s = s.
Proof.
  intros Hs. unfold replace.
  destruct (exec false TRAILING_BAR s) as [m|] eqn:Hexec; [|done].
  pose proof Hexec as Hextent.
  apply exec_consumes in Hextent as (_ & pre & post & Hsplit & Hindex).
  2:{ unfold boundsInOrder, TRAILING_BAR, opt, star. cbn.
      split_and!; try done. intros ? [= <-]. lia. }
  apply search_matchAt in Hexec as (pre' & s' & p' & Hs' & Hm).
  apply TRAILING_BAR_whole in Hm as (Hwhole & u & v & w & Huvw & Hu & Hv & Hw).
  assert (matched m = []) as Hempty.
  { rewrite Hwhole. destruct s' as [|c s'] using rev_ind; [done|]. exfalso.
    destruct (Hs c) as [Hspace Hbar].
    { right. by rewrite Hs', app_assoc, last_snoc. }
    assert (last (u ++ v ++ w) = Some c) as Hlast
      by (by rewrite <- Huvw, last_snoc).
    clear -Hu Hv Hw Hlast Hspace Hbar.
    assert (∀ t, Forall (λ c, JS.isSpace c = true) t → last t ≠ Some c) as Hsp.
    { intros t Ht Hc. apply last_Some_elem_of in Hc.
      rewrite Forall_forall in Ht. apply Ht in Hc. congruence. }
    destruct w as [|d w] using rev_ind.
    - rewrite app_nil_r in Hlast. destruct Hv as [->| ->].
      + rewrite app_nil_r in Hlast. by apply (Hsp u).
      + rewrite last_snoc in Hlast. congruence.
    - rewrite !app_assoc, last_snoc in Hlast. injection Hlast as ->.
      apply Forall_app in Hw as [_ Hd]. apply Forall_cons in Hd as [Hd _].
      congruence. }
  rewrite Hempty in *. simpl in *. rewrite Nat.add_0_r, Hindex.
  by rewrite take_drop.
Qed.

Lemma cleanCategory_bare s : s ≠ [] → bare s → cleanCategory s = s.
Proof.
  intros Hne Hs. unfold cleanCategory. destruct s as [|c tl]; [done|].
  destruct (Hs c) as [Hspace Hbar]; [by left|].
  rewrite LEADING_BAR_bare by done.
  rewrite TRAILING_BAR_bare by done. by apply trim_bare.
Qed.

(** The truthy, cleaned name of a group, when cleaning leaves something. *)
Lemma foldl_categories groups : ∀ acc,
  foldl (λ categories group,
           if truthyString group then
             match cleanCategory (default [] group) with
             | _ :: _ => setAdd (cleanCategory (default [] group)) categories
             | [] => categories
             end
           else categories) acc groups
  = foldl (λ s x, setAdd x s) acc
      (omap (λ group, raw ← group;
                      match cleanCategory raw with
                      | [] => None
                      | clean => Some clean
                      end) groups).
Proof.
  induction groups as [|group groups IH]; intros acc; simpl; [done|].
  destruct group as [[|c raw]|]; simpl.
  - apply IH.
  - destruct (cleanCategory (c :: raw)); simpl; apply IH.
  - apply IH.
Qed.

(** X7. [extractUniqueCategories] lists, each once and in strictly ascending
    order of the code units, the cleaned names of the groups that are not
    empty after cleaning; a listed name has no white space at either end,
    and a group name that has neither white space nor a vertical bar at
    either end is listed as it stands. *)
Theorem X7_unique_categories_sorted (groups : list (option jsstring)) :
  ascending (extractUniqueCategories groups)
  ∧ NoDup (extractUniqueCategories groups)
  ∧ (∀ c, c ∈ extractUniqueCategories groups ↔
          c ≠ [] ∧ ∃ raw, Some raw ∈ groups ∧ cleanCategory raw = c)
  ∧ (∀ c, c ∈ extractUniqueCategories groups → trimmed c)
  ∧ (∀ raw, Some raw ∈ groups → raw ≠ [] → bare raw →
            raw ∈ extractUniqueCategories groups).
Proof.
  unfold extractUniqueCategories. cbv zeta.
  rewrite foldl_categories, foldl_setAdd_empty.
  set (tags := omap _ groups).
  assert (∀ c, c ∈ sortStrings (firstOccurrences tags) ↔
               c ≠ [] ∧ ∃ raw, Some raw ∈ groups ∧ cleanCategory raw = c)
    as Hmem.
  { intros c. rewrite sortStrings_perm, firstOccurrences_elem.
    unfold tags. rewrite list_elem_of_omap. split.
    - intros ([raw|] & Hin & Hc); [|done]. simpl in Hc.
      destruct (cleanCategory raw) eqn:Hclean; [done|].
      injection Hc as <-. split; [done|]. eauto.
    - intros (Hne & raw & Hin & Hc). exists (Some raw). split; [done|].
      simpl. rewrite Hc. by destruct c. }
  assert (ascending (sortStrings (firstOccurrences tags))) as Hasc
    by apply sortStrings_ascending, firstOccurrences_NoDup.
  split_and!; [done|by apply ascending_NoDup|done| |].
  - intros c (_ & raw & _ & <-)%Hmem. apply trim_trimmed.
  - intros raw Hin Hne Hbare. apply Hmem. split; [done|].
    exists raw. split; [done|]. by apply cleanCategory_bare.
Qed.

End Categories.

(** ** Decimal numerals *)

Section Numerals.

Lemma js_inj a b : js a = js b → a = b.
Proof.
  unfold js. intros Hab.
  rewrite <- (String.string_of_list_ascii_of_string a),
          <- (String.string_of_list_ascii_of_string b).
  f_equal. revert Hab.
  generalize (String.list_ascii_of_string a) (String.list_ascii_of_string b).
  induction l as [|x l IH]; intros [|y l']; simpl; try done.
  intros [= Hxy Hl]. f_equal; [|by apply IH].
  by rewrite <- (Ascii.ascii_N_embedding x), <- (Ascii.ascii_N_embedding y), Hxy.
Qed.

Lemma to_int_proper z :
  Z.to_int z ≠ Decimal.Pos Decimal.Nil ∧ Z.to_int z ≠ Decimal.Neg Decimal.Nil.
Proof.
  destruct z as [|p|p]; simpl; split; try done; intros [= Hp];
    by apply DecimalPos.Unsigned.to_uint_nonnil in Hp.
Qed.

(** Two integers with the same decimal numeral are equal. *)
Lemma decimal_inj a b : JS.decimal a = JS.decimal b → a = b.
Proof.
  unfold JS.decimal. intros Hab%js_inj.
  apply DecimalZ.to_int_inj.
  destruct (to_int_proper a) as [Ha1 Ha2], (to_int_proper b) as [Hb1 Hb2].
  pose proof (NilZero.isi _ Ha1 Ha2) as Ha.
  pose proof (NilZero.isi _ Hb1 Hb2) as Hb.
  rewrite Hab in Ha. rewrite Ha in Hb. by injection Hb.
Qed.

(** Below [2^53] a number is printed as its decimal numeral. *)
Lemma numberToString_small z :
  (Z.abs z < 9007199254740992)%Z →
  JS.numberToString (JS.Int z) = JS.decimal z.
Proof.
  intros Hz. unfold JS.numberToString. cbv zeta.
  by rewrite (proj2 (Z.ltb_lt _ _) Hz).
Qed.

Lemma numberToString_inj a b :
  (Z.abs a < 9007199254740992)%Z → (Z.abs b < 9007199254740992)%Z →
  JS.numberToString (JS.Int a) = JS.numberToString (JS.Int b) → a = b.
Proof.
  intros Ha Hb. rewrite !numberToString_small by done. apply decimal_inj.
Qed.

End Numerals.

(** ** The key of a film *)

Section MovieKey.
Import ContentParser Deduplicator.
Context `{Host}.

Lemma orZero_year raw :
  orZero (year (parseContentMetadata raw))
  = default (JS.Int 0) (year (parseContentMetadata raw)).
Proof.
  destruct (year (parseContentMetadata raw)) as [y|] eqn:Hy; [|done].
  apply year_extracted in Hy as (n & -> & Hn). simpl.
  destruct (Z.eqb_spec n 0) as [->|]; [lia|done].
Qed.

Lemma movie_key raw :
  getContentKey raw TMovie
  = toLowerCase (cleanName (parseContentMetadata raw)) ++ js "_"
    ++ JS.numberToString (default (JS.Int 0) (year (parseContentMetadata raw))).
Proof. unfold getContentKey. by rewrite orZero_year. Qed.

(** X4. The key of a film is its lower-cased clean name, an underscore and
    the detected year, or 0 when none is detected.  Two titles with the
    same clean name have the same key exactly when they have the same year,
    and two VOD records with the same clean name and year are variants of
    one and the same film. *)
Theorem X4_movie_key_separates_years :
  (∀ raw,
     getContentKey raw TMovie
     = toLowerCase (cleanName (parseContentMetadata raw)) ++ js "_"
       ++ JS.numberToString
            (default (JS.Int 0) (year (parseContentMetadata raw))))
  ∧ (∀ a b,
       cleanName (parseContentMetadata a) = cleanName (parseContentMetadata b) →
       (getContentKey a TMovie = getContentKey b TMovie
        ↔ year (parseContentMetadata a) = year (parseContentMetadata b)))
  ∧ (∀ channels a b,
       a ∈ channels → b ∈ channels →
       isVod a = true → isVod b = true →
       cleanName (parseContentMetadata (name a))
         = cleanName (parseContentMetadata (name b)) →
       year (parseContentMetadata (name a))
         = year (parseContentMetadata (name b)) →
       ∃ g, g ∈ deduplicateMovies channels
            ∧ toVariant a ∈ variants g ∧ toVariant b ∈ variants g).
Proof.
  split_and!.
  - apply movie_key.
  - intros a b Hclean. rewrite !movie_key, Hclean. split.
    + intros Hkey. do 2 apply app_inv_head in Hkey.
      destruct (year (parseContentMetadata a)) as [ya|] eqn:Ha,
               (year (parseContentMetadata b)) as [yb|] eqn:Hb; [| | |done].
      * apply year_extracted in Ha as (n & -> & Hn).
        apply year_extracted in Hb as (m & -> & Hm).
        by apply numberToString_inj in Hkey as ->; [|lia..].
      * apply year_extracted in Ha as (n & -> & Hn).
        apply numberToString_inj in Hkey; simpl in *; lia.
      * apply year_extracted in Hb as (m & -> & Hm).
        apply numberToString_inj in Hkey; simpl in *; lia.
    + by intros ->.
  - intros channels a b Ha Hb Hva Hvb Hclean Hyear.
    destruct (grouped_partitions TMovie isVod
                (λ ch, getContentKey (name ch) TMovie) channels)
      as ((keys & _ & Hkeys & Hgroups) & _).
    assert (getContentKey (name b) TMovie = getContentKey (name a) TMovie)
      as Hsame by (unfold getContentKey; by rewrite Hclean, Hyear).
    pose proof (Hkeys a Ha Hva) as Hkey.
    apply list_elem_of_lookup_1 in Hkey as [i Hi].
    destruct (Forall2_lookup_r _ _ _ _ _ Hgroups Hi) as (g & Hg & Hvariants).
    exists g. split; [by eapply list_elem_of_lookup_2|].
    rewrite Hvariants.
    split; apply list_elem_of_fmap_2, list_elem_of_In, List.filter_In;
      (split; [by apply list_elem_of_In|]).
    + by rewrite Hva, eqb_refl.
    + by rewrite Hvb, Hsame, eqb_refl.
Qed.

End MovieKey.

(** ** The order of the groups and their representatives *)

Section Representatives.
Import ContentParser Deduplicator.

Lemma addToGroup_keys key ch (gs : list (jsstring * list Channel)) :
  (addToGroup key ch gs).*1 = setAdd key gs.*1.
Proof.
  unfold setAdd. case_bool_decide as Hkey.
  - induction gs as [|[k g] gs IH]; simpl; [by apply elem_of_nil in Hkey|].
    destruct (JS.eqb k key) eqn:Hk; [done|]. simpl. f_equal. apply IH.
    apply eqb_neq in Hk. simpl in Hkey.
    apply elem_of_cons in Hkey as [?|?]; [congruence|done].
  - rewrite addToGroup_absent by done. by rewrite fmap_app.
Qed.

Lemma grouped_keys keyOf l :
  (grouped keyOf l).*1 = firstOccurrences (map keyOf l).
Proof.
  rewrite <- foldl_setAdd_empty. unfold grouped.
  assert (∀ acc : list (jsstring * list Channel),
            (foldl (λ groups ch, addToGroup (keyOf ch) ch groups) acc l).*1
            = foldl (λ s x, setAdd x s) acc.*1 (map keyOf l)) as Hacc;
    [|apply Hacc].
  induction l as [|ch l IH]; intros acc; simpl; [done|].
  by rewrite IH, addToGroup_keys.
Qed.

Lemma grouped_represented type matching keyOf channels :
  inOrderOfFirstOccurrence type matching keyOf channels
    (omap (λ g, toContent type g.2)
          (grouped keyOf (List.filter matching channels))).
Proof.
  unfold inOrderOfFirstOccurrence. rewrite <- grouped_keys.
  pose proof (grouped_groupsOf keyOf (List.filter matching channels))
    as (_ & _ & Hgroups).
  apply Forall2_fmap_r.
  induction Hgroups as [|[k g] gs [Hne Hg] _ IH]; simpl; [constructor|].
  simpl in Hne, Hg. destruct g as [|first others]; [done|]. simpl.
  constructor; [|exact IH].
  exists first, others. simpl. rewrite <- filter_filter, <- Hg. by split_and!.
Qed.

Context `{Host}.

Lemma channels_represented (channels : list Channel) :
  inOrderOfFirstOccurrence TChannel (λ ch, truthy (isLive ch))
    (λ ch, getContentKey (name ch) TChannel)
    channels (deduplicateChannels channels).
Proof.
  unfold deduplicateChannels.
  rewrite (foldl_skip (λ ch, truthy (isLive ch))
                      (λ ch, getContentKey (name ch) TChannel)).
  apply grouped_represented.
Qed.

(** X8. Each deduplication function returns its groups in the order in
    which their keys first occur in the input, and every group takes its
    id, name, logo, group name and metadata from the first record that has
    its key. *)
Theorem X8_groups_in_input_order (channels : list Channel) :
  inOrderOfFirstOccurrence TChannel (λ ch, truthy (isLive ch))
    (λ ch, getContentKey (name ch) TChannel)
    channels (deduplicateChannels channels)
  ∧ inOrderOfFirstOccurrence TMovie isVod
      (λ ch, getContentKey (name ch) TMovie)
      channels (deduplicateMovies channels)
  ∧ inOrderOfFirstOccurrence TSeries isSeries
      (λ ch, getContentKey (name ch) TSeries)
      channels (deduplicateSeries channels).
Proof.
  split_and!.
  - apply channels_represented.
  - apply grouped_represented.
  - apply grouped_represented.
Qed.

End Representatives.

(** ** Filtering by preferences *)

Section Filtering.
Import ContentParser Deduplicator.
Context `{Host}.

Lemma keptByPreferences_language preferences preferences' item :
  channels preferences = channels preferences' →
  languageCategories (movies preferences)
    = languageCategories (movies preferences') →
  languageCategories (series preferences)
    = languageCategories (series preferences') →
  keptByPreferences preferences item = keptByPreferences preferences' item.
Proof.
  intros Hc Hm Hs. unfold keptByPreferences. rewrite Hc, Hm, Hs.
  by destruct (d_type item).
Qed.

Lemma keptByPreferences_all preferences item :
  countries (channels preferences) = [] →
  categories (channels preferences) = [] →
  languageCategories (movies preferences) = [] →
  languageCategories (series preferences) = [] →
  keptByPreferences preferences item = true.
Proof.
  intros Hc Hg Hm Hs. unfold keptByPreferences. rewrite Hc, Hg, Hm, Hs.
  by destruct (d_type item).
Qed.

Lemma keptByPreferences_country preferences item :
  d_type item = TChannel →
  countries (channels preferences) ≠ [] →
  keptByPreferences preferences item = true →
  ∃ c, country (d_metadata item) = Some c
       ∧ c ∈ countries (channels preferences).
Proof.
  intros Htype Hne. unfold keptByPreferences. rewrite Htype.
  destruct (countries (channels preferences)) as [|c0 cs] eqn:Hcs; [done|].
  cbn [nonEmptyList andb]. unfold outsideCountries.
  destruct (country (d_metadata item)) as [[|c v]|]; simpl; try done.
  case_bool_decide as Hin; simpl; [|done]. eauto.
Qed.

Lemma keptByPreferences_category preferences item :
  match d_type item with
  | TChannel => categories (channels preferences)
  | TMovie => languageCategories (movies preferences)
  | TSeries => languageCategories (series preferences)
  end ≠ [] →
  keptByPreferences preferences item = true →
  ∃ g cat, d_group item = Some g
           ∧ cat ∈ match d_type item with
                   | TChannel => categories (channels preferences)
                   | TMovie => languageCategories (movies preferences)
                   | TSeries => languageCategories (series preferences)
                   end
           ∧ JS.includes (toLowerCase g) (toLowerCase cat) = true.
Proof.
  assert (∀ cats : list jsstring, cats ≠ [] →
            (nonEmptyList cats && outsideCategories (d_group item) cats) = false →
            ∃ g cat, d_group item = Some g ∧ cat ∈ cats
                     ∧ JS.includes (toLowerCase g) (toLowerCase cat) = true)
    as Hcats.
  { intros cats Hne. destruct cats as [|c0 cs] eqn:Hcs; [done|].
    rewrite <- Hcs. replace (nonEmptyList cats) with true by by rewrite Hcs.
    unfold outsideCategories. simpl.
    destruct (d_group item) as [[|c v]|]; simpl; try done.
    intros Hex%negb_false_iff. apply existsb_exists in Hex as (cat & Hin & Hcat).
    exists (c :: v), cat. by rewrite list_elem_of_In. }
  unfold keptByPreferences. destruct (d_type item); intros Hne.
  - destruct (nonEmptyList (countries _) && _); [done|].
    destruct (nonEmptyList (categories _) && _) eqn:Hout; [done|].
    intros _. by apply Hcats.
  - cbv zeta.
    destruct (nonEmptyList (languageCategories _) && _) eqn:Hout; [done|].
    intros _. by apply Hcats.
  - cbv zeta.
    destruct (nonEmptyList (languageCategories _) && _) eqn:Hout; [done|].
    intros _. by apply Hcats.
Qed.

(** X9. [filterContentByPreferences] keeps the items in their order and
    never removes an item because of a language: its result only depends on
    the channel preferences and on the two category lists.  With no country
    and no category selected it returns its input; a channel kept under a
    country selection has one of the selected countries; an item kept under
    a category selection has a group name that contains one of the selected
    categories, case aside. *)
Theorem X9_filter_by_preferences (content : list DeduplicatedContent)
    (preferences : UserPreferences) :
  sublist (filterContentByPreferences content preferences) content
  ∧ (∀ preferences',
       channels preferences = channels preferences' →
       languageCategories (movies preferences)
         = languageCategories (movies preferences') →
       languageCategories (series preferences)
         = languageCategories (series preferences') →
       filterContentByPreferences content preferences
       = filterContentByPreferences content preferences')
  ∧ (countries (channels preferences) = [] →
     categories (channels preferences) = [] →
     languageCategories (movies preferences) = [] →
     languageCategories (series preferences) = [] →
     filterContentByPreferences content preferences = content)
  ∧ (∀ item, item ∈ filterContentByPreferences content preferences →
       d_type item = TChannel →
       countries (channels preferences) ≠ [] →
       ∃ c, country (d_metadata item) = Some c
            ∧ c ∈ countries (channels preferences))
  ∧ (∀ item, item ∈ filterContentByPreferences content preferences →
       match d_type item with
       | TChannel => categories (channels preferences)
       | TMovie => languageCategories (movies preferences)
       | TSeries => languageCategories (series preferences)
       end ≠ [] →
       ∃ g cat, d_group item = Some g
                ∧ cat ∈ match d_type item with
                        | TChannel => categories (channels preferences)
                        | TMovie => languageCategories (movies preferences)
                        | TSeries => languageCategories (series preferences)
                        end
                ∧ JS.includes (toLowerCase g) (toLowerCase cat) = true).
Proof.
  unfold filterContentByPreferences. split_and!.
  - induction content as [|item content IH]; simpl; [constructor|].
    destruct (keptByPreferences preferences item); by constructor.
  - intros preferences' Hc Hm Hs. apply filter_ext_elem. intros item _.
    by apply keptByPreferences_language.
  - intros Hc Hg Hm Hs.
    induction content as [|item content IH]; simpl; [done|].
    by rewrite keptByPreferences_all, IH.
  - intros item [_ Hkept]%list_elem_of_In%List.filter_In Htype Hne.
    by apply keptByPreferences_country.
  - intros item [_ Hkept]%list_elem_of_In%List.filter_In Hne.
    by apply keptByPreferences_category.
Qed.

End Filtering.

(** ** Counting by preferences *)

Section Counting.
Import ContentParser Deduplicator.
Context `{Host}.

Lemma partitions_length matching keyOf channels result :
  partitions matching keyOf channels result →
  (length result ≤ length (List.filter matching channels))%nat.
Proof.
  intros (_ & Hne & <-).
  induction Hne as [|g result Hg _ IH]; simpl; [done|].
  destruct (variants g); [done|]. simpl. lia.
Qed.

Lemma inOrder_length type matching keyOf channels result :
  inOrderOfFirstOccurrence type matching keyOf channels result →
  length result
  = length (firstOccurrences (map keyOf (List.filter matching channels))).
Proof. apply Forall2_length. Qed.

Lemma filter_length_le {A} (f : A → bool) l :
  (length (List.filter f l) ≤ length l)%nat.
Proof.
  induction l as [|a l IH]; simpl; [done|]. destruct (f a); simpl; lia.
Qed.

Lemma types_disjoint (channels : list Channel) :
  (length (List.filter (λ ch, truthy (isLive ch)) channels)
   + length (List.filter isVod channels)
   + length (List.filter isSeries channels) ≤ length channels)%nat.
Proof.
  induction channels as [|ch channels IH]; simpl; [done|].
  destruct (truthy (isLive ch)) eqn:Hlive.
  - assert (isVod ch = false) as -> by (unfold isVod; by rewrite Hlive).
    assert (isSeries ch = false) as -> by (unfold isSeries; by rewrite Hlive).
    simpl. lia.
  - destruct (isVod ch) eqn:Hvod, (isSeries ch) eqn:Hseries; simpl; try lia.
    unfold isVod, isSeries in Hvod, Hseries.
    apply andb_true_iff in Hvod as [_ Hvod%bool_decide_eq_true].
    apply andb_true_iff in Hseries as [_ Hseries%bool_decide_eq_true].
    congruence.
Qed.

(** X10. [countContentByPreferences] counts groups, not records: the number
    of films and of series is the number of distinct keys among the VOD and
    the series records, and so is the number of channels when no country is
    selected.  No count exceeds the number of records of its type, and the
    three counts together never exceed the number of records. *)
Theorem X10_counts_are_bounded (channels : list Channel)
    (preferences : PartialUserPreferences) :
  let counts := countContentByPreferences channels preferences in
  (channelTotal counts
   ≤ length (firstOccurrences
               (map (λ ch, getContentKey (name ch) TChannel)
                    (List.filter (λ ch, truthy (isLive ch)) channels))))%nat
  ∧ ((∀ prefs, partialChannels preferences = Some prefs →
               countries prefs = []) →
     channelTotal counts
     = length (firstOccurrences
                 (map (λ ch, getContentKey (name ch) TChannel)
                      (List.filter (λ ch, truthy (isLive ch)) channels))))
  ∧ movieTotal counts
    = length (firstOccurrences
                (map (λ ch, getContentKey (name ch) TMovie)
                     (List.filter isVod channels)))
  ∧ seriesTotal counts
    = length (firstOccurrences
                (map (λ ch, getContentKey (name ch) TSeries)
                     (List.filter isSeries channels)))
  ∧ (channelTotal counts
     ≤ length (List.filter (λ ch, truthy (isLive ch)) channels))%nat
  ∧ (movieTotal counts ≤ length (List.filter isVod channels))%nat
  ∧ (seriesTotal counts ≤ length (List.filter isSeries channels))%nat
  ∧ (channelTotal counts + movieTotal counts + seriesTotal counts
     ≤ length channels)%nat.
Proof.
  intros counts.
  pose proof (inOrder_length TChannel _ _ _ _
                (channels_represented channels)) as Hc.
  assert (length (deduplicateMovies channels)
          = length (firstOccurrences
                      (map (λ ch, getContentKey (name ch) TMovie)
                           (List.filter isVod channels)))) as Hm
    by apply (inOrder_length TMovie), grouped_represented.
  assert (length (deduplicateSeries channels)
          = length (firstOccurrences
                      (map (λ ch, getContentKey (name ch) TSeries)
                           (List.filter isSeries channels)))) as Hs
    by apply (inOrder_length TSeries), grouped_represented.
  pose proof (partitions_length _ _ _ _ (channels_partitions channels)) as Hcb.
  assert (length (deduplicateMovies channels)
          ≤ length (List.filter isVod channels))%nat as Hmb
    by apply (partitions_length isVod (λ ch, getContentKey (name ch) TMovie)),
             grouped_partitions.
  assert (length (deduplicateSeries channels)
          ≤ length (List.filter isSeries channels))%nat as Hsb
    by apply (partitions_length isSeries
                (λ ch, getContentKey (name ch) TSeries)),
             grouped_partitions.
  pose proof (types_disjoint channels) as Hdisjoint.
  assert (channelTotal counts ≤ length (deduplicateChannels channels))%nat
    as Hle.
  { unfold counts, countContentByPreferences. cbn [channelTotal].
    destruct (partialChannels preferences); [apply filter_length_le|done]. }
  assert (movieTotal counts = length (deduplicateMovies channels)) as Hmovies
    by done.
  assert (seriesTotal counts = length (deduplicateSeries channels)) as Hseries
    by done.
  split_and!; try lia.
  intros Hnone. rewrite <- Hc.
  unfold counts, countContentByPreferences. cbn [channelTotal].
  destruct (partialChannels preferences) as [prefs|]; [|done].
  rewrite (Hnone prefs eq_refl). simpl. f_equal.
  clear. induction (deduplicateChannels channels) as [|g gs IH]; simpl; [done|].
  by rewrite IH.
Qed.

End Counting.

(** ** The language comes before the quality *)

Section LanguageSelection.
Import QualitySelection Deduplicator.

(** X11. For a film or a series with several variants, the first variant in
    the preferred language is selected, whatever its quality; when no
    variant has that language, the selection falls back to the quality
    ranking with FHD as the preference. *)
Theorem X11_language_before_quality (content : DeduplicatedContent)
    (preferences : UserPreferences) (lang : jsstring) :
  (2 ≤ length (variants content))%nat →
  (d_type content = TMovie ∧ lang = preferredLanguage (movies preferences))
  ∨ (d_type content = TSeries ∧ lang = preferredLanguage (series preferences)) →
  (∀ i v,
     variants content !! i = Some v → v_language v = Some lang →
     (∀ j w, (j < i)%nat → variants content !! j = Some w →
             v_language w ≠ Some lang) →
     selectBestVariant content preferences = Some v)
  ∧ ((∀ w, w ∈ variants content → v_language w ≠ Some lang) →
     ∃ v, selectBestVariant content preferences = Some v
          ∧ chosen (indexOf FHD) (variants content)
                   (selectBestQuality (variants content) FHD) v).
Proof.
  intros Hlen Htype.
  assert (selectBestVariant content preferences
          = byLanguageThenQuality (variants content) lang) as ->.
  { unfold selectBestVariant.
    destruct (variants content) as [|a [|b vs]]; simpl in Hlen; try lia.
    by destruct Htype as [[-> ->]|[-> ->]]. }
  unfold byLanguageThenQuality. split.
  - intros i v Hi Hv Hfirst.
    assert (find (λ v, bool_decide (v_language v = Some lang)) (variants content)
            = Some v) as ->; [|done].
    apply find_Some_first. exists i. split_and!; [done|by apply bool_decide_eq_true|].
    intros j w Hj Hw. apply bool_decide_eq_false. by eapply Hfirst.
  - intros Hnone.
    assert (find (λ v, bool_decide (v_language v = Some lang)) (variants content)
            = None) as ->.
    { apply find_None_all. intros w Hw. apply bool_decide_eq_false. by apply Hnone. }
    apply atOrFirst_chosen. destruct (variants content); simpl in Hlen; [lia|done].
Qed.

End LanguageSelection.

Lemma X11_witness :
  Deduplicator.selectBestVariant
    (sampleFilm [sampleVariant "a" (Some Q4K); sampleDub "b" (Some SD) "MULTI"])
    (samplePreferences FHD)
  = Some (sampleDub "b" (Some SD) "MULTI").
Proof.
  apply (proj1 (X11_language_before_quality
                  (sampleFilm [sampleVariant "a" (Some Q4K);
                               sampleDub "b" (Some SD) "MULTI"])
                  (samplePreferences FHD) (js "MULTI")
                  ltac:(simpl; lia) ltac:(by left)) 1%nat).
  - reflexivity.
  - reflexivity.
  - intros [|j] w Hj; [|lia]. by intros [= <-].
Defined.

(** ** The ids of the records *)

Section ChannelIds.
Import M3U.

Lemma base36Digit_ok d :
  (0 ≤ d < 36)%Z →
  isBase36 (base36Digit d) = true
  ∧ (if JS.isDigit (base36Digit d)
     then Z.of_N (base36Digit d) - 48 else Z.of_N (base36Digit d) - 87)%Z = d.
Proof.
  intros Hd. unfold isBase36, base36Digit, JS.isDigit, JS.isLower, JS.between.
  destruct (Z.ltb_spec d 10).
  - assert ((48 <=? Z.to_N (48 + d))%N = true) as -> by (apply N.leb_le; lia).
    assert ((Z.to_N (48 + d) <=? 57)%N = true) as -> by (apply N.leb_le; lia).
    simpl. split; [done|lia].
  - assert ((Z.to_N (87 + d) <=? 57)%N = false) as -> by (apply N.leb_gt; lia).
    assert ((97 <=? Z.to_N (87 + d))%N = true) as -> by (apply N.leb_le; lia).
    assert ((Z.to_N (87 + d) <=? 122)%N = true) as -> by (apply N.leb_le; lia).
    rewrite andb_false_r. simpl. split; [done|lia].
Qed.

Lemma toBase36_app fuel : ∀ n acc,
  toBase36 fuel n acc = toBase36 fuel n [] ++ acc.
Proof.
  induction fuel as [|fuel IH]; intros n acc; cbn [toBase36]; [done|].
  destruct (n <? 36)%Z; [done|].
  rewrite IH, (IH _ [_]). by rewrite <- app_assoc.
Qed.

Lemma toBase36_chars fuel : ∀ n,
  (0 ≤ n)%Z → Forall (λ c, isBase36 c = true) (toBase36 fuel n []).
Proof.
  induction fuel as [|fuel IH]; intros n Hn; cbn [toBase36]; [constructor|].
  assert (isBase36 (base36Digit (n mod 36)) = true) as Hd.
  { apply base36Digit_ok. apply Z.mod_pos_bound. lia. }
  destruct (n <? 36)%Z; [by repeat constructor|].
  rewrite toBase36_app. apply Forall_app. split; [|by repeat constructor].
  apply IH. apply Z.div_pos; lia.
Qed.

Lemma toBase36_length k : ∀ fuel n,
  (0 ≤ n < 36 ^ Z.of_nat k)%Z → (1 ≤ k ≤ fuel)%nat →
  (1 ≤ length (toBase36 fuel n []) ≤ k)%nat.
Proof.
  induction k as [|k IH]; intros fuel n Hn Hk; [lia|].
  destruct fuel as [|fuel]; [lia|]. cbn [toBase36].
  destruct (Z.ltb_spec n 36) as [Hlt|Hge]; [simpl; lia|].
  destruct k as [|k].
  { change (36 ^ Z.of_nat 1)%Z with 36%Z in Hn. lia. }
  rewrite toBase36_app, length_app. simpl.
  assert (1 ≤ length (toBase36 fuel (n / 36) []) ≤ S k)%nat; [|lia].
  apply IH; [|lia].
  rewrite (Nat2Z.inj_succ (S k)), Z.pow_succ_r in Hn by lia.
  split; [apply Z.div_pos; lia|].
  apply Z.div_lt_upper_bound; lia.
Qed.

Lemma base36Value_snoc s c :
  base36Value (s ++ [c])
  = (36 * base36Value s
     + (if JS.isDigit c then Z.of_N c - 48 else Z.of_N c - 87))%Z.
Proof. unfold base36Value. by rewrite foldl_app. Qed.

Lemma toBase36_value fuel : ∀ n,
  (0 ≤ n < 36 ^ Z.of_nat fuel)%Z →
  base36Value (toBase36 fuel n []) = n.
Proof.
  induction fuel as [|fuel IH]; intros n Hn.
  { change (36 ^ Z.of_nat 0)%Z with 1%Z in Hn.
    assert (n = 0)%Z as -> by lia. done. }
  cbn [toBase36].
  destruct (base36Digit_ok (n mod 36)) as [_ Hd].
  { apply Z.mod_pos_bound. lia. }
  destruct (Z.ltb_spec n 36) as [Hlt|Hge].
  - change [base36Digit (n mod 36)] with ([] ++ [base36Digit (n mod 36)]).
    rewrite base36Value_snoc, Hd. change (base36Value []) with 0%Z.
    rewrite Z.mod_small by lia. lia.
  - rewrite toBase36_app, base36Value_snoc, Hd, IH.
    + pose proof (Z.div_mod n 36). lia.
    + rewrite Nat2Z.inj_succ, Z.pow_succ_r in Hn by lia.
      split; [apply Z.div_pos; lia|].
      apply Z.div_lt_upper_bound; lia.
Qed.

Lemma channelHash_range name url :
  (-2147483648 ≤ channelHash name url < 2147483648)%Z.
Proof.
  unfold channelHash.
  induction (name ++ js "-" ++ url) as [|c str IH] using rev_ind; [done|].
  rewrite foldl_app. simpl. apply toInt32_range.
Qed.

Lemma generateChannelId_hash name url :
  generateChannelId name url = toBase36 7 (Z.abs (channelHash name url)) [].
Proof. reflexivity. Qed.

Lemma channelHash_collision tail url :
  channelHash (js "Aa" ++ tail) url = channelHash (js "BB" ++ tail) url.
Proof.
  unfold channelHash. rewrite <- !app_assoc, !(foldl_app _ (js _)).
  f_equal.
Qed.

(** X12. The id of a record is the numeral in base 36 of the absolute value
    of a 32-bit hash of its name and URL: one to six characters among the
    digits and the lower-case letters.  It is not unique: any two names
    that only differ by starting with Aa and BB get the same id for the
    same URL. *)
Theorem X12_channel_id_is_a_short_numeral (name url : jsstring) :
  Forall (λ c, isBase36 c = true) (generateChannelId name url)
  ∧ (1 ≤ length (generateChannelId name url) ≤ 6)%nat
  ∧ base36Value (generateChannelId name url) = Z.abs (channelHash name url)
  ∧ (-2147483648 ≤ channelHash name url < 2147483648)%Z
  ∧ (∀ tail, generateChannelId (js "Aa" ++ tail) url
             = generateChannelId (js "BB" ++ tail) url).
Proof.
  pose proof (channelHash_range name url) as Hrange.
  rewrite generateChannelId_hash.
  assert (1 ≤ length (toBase36 7 (Z.abs (channelHash name url)) []) ≤ 6)%nat
    as Hlen.
  { apply toBase36_length; [|lia].
    change (36 ^ Z.of_nat 6)%Z with 2176782336%Z. lia. }
  split_and!; try lia.
  - apply toBase36_chars. lia.
  - apply toBase36_value. change (36 ^ Z.of_nat 7)%Z with 78364164096%Z. lia.
  - intros tail. by rewrite !generateChannelId_hash, channelHash_collision.
Qed.

End ChannelIds.

(** ** The [#EXTINF] line *)

Section Extinf.
Import Regex M3U.







Lemma EXTINF_bounds G : capturesWithin false G (lit "#EXTINF:").
Proof. apply lit_captures. Qed.





Context `{Host}.


End Extinf.


(** ** The records of a parsed playlist *)

Section ParsedRecords.
Import M3U Deduplicator.
Context `{Host}.
Variable localeCompare : jsstring → jsstring → Z.

Lemma orElse_nonempty a b : b ≠ [] → orElse a b ≠ [].
Proof. intros Hb. by destruct a as [[|c v]|]. Qed.

Lemma parseChannel_wellFormed data line epgUrl :
  isStreamUrl line = true → trimmed line →
  wellFormedRecord (parseChannel data line epgUrl).
Proof.
  intros Hurl Htrim. unfold wellFormedRecord, parseChannel.
  cbn [url name group streamType isLive]. split_and!; [done|done| | |].
  - apply orElse_nonempty, orElse_nonempty. done.
  - eexists. split; [done|]. apply orElse_nonempty. done.
  - eexists. split; done.
Qed.

Lemma step_wellFormed st rawLine :
  Forall wellFormedRecord (parsed st) →
  Forall wellFormedRecord (parsed (step st rawLine)).
Proof.
  intros Hst. unfold step.
  pose proof (trim_trimmed rawLine) as Htrim.
  destruct (JS.trim rawLine) as [|c line] eqn:Hline; [done|].
  destruct (JS.startsWith _ (js "#EXTM3U")); [done|].
  destruct (JS.startsWith _ (js "#EXTINF:")); [done|].
  destruct (JS.startsWith _ (js "#")); [done|].
  destruct (currentData st) as [data|]; [|done].
  destruct (isStreamUrl (c :: line)) eqn:Hurl; [|done].
  cbn [parsed]. apply Forall_app. split; [done|].
  constructor; [|constructor]. by apply parseChannel_wellFormed.
Qed.

Lemma parseLines_wellFormed lines :
  Forall wellFormedRecord (parsed (parseLines lines)).
Proof.
  unfold parseLines.
  assert (Forall wellFormedRecord (parsed initial)) as Hinit by constructor.
  revert Hinit. generalize initial.
  induction lines as [|l lines IH]; intros st Hst; simpl; [done|].
  apply IH. by apply step_wellFormed.
Qed.

Lemma wellFormed_types (channels : list Channel) :
  Forall wellFormedRecord channels →
  (length (List.filter (λ ch, truthy (isLive ch)) channels)
   + length (List.filter isVod channels)
   + length (List.filter isSeries channels))%nat = length channels.
Proof.
  induction 1 as [|ch channels Hch _ IH]; simpl; [done|].
  destruct Hch as (_ & _ & _ & _ & t & Ht & Hlive).
  assert (truthy (isLive ch) = bool_decide (t = Live)
          ∧ isVod ch = bool_decide (t = Vod)
          ∧ isSeries ch = bool_decide (t = Series)) as (-> & -> & ->).
  { unfold isVod, isSeries. rewrite Ht, Hlive. by destruct t. }
  destruct t; simpl; lia.
Qed.

(** X14. Every record that [parseM3U] returns has a stream URL (it starts
    with http, rtmp or rtsp and has no white space at either end), a name
    and a group name that are not empty, and a live flag that is set exactly
    when the stream type is live. *)
Theorem X14_parsed_records_are_well_formed (t0 t1 : Z)
    (content sourceName : jsstring) :
  Forall wellFormedRecord
         (pl_channels (parseM3U localeCompare t0 t1 content sourceName)).
Proof. apply parseLines_wellFormed. Qed.

(** X15. Deduplicating a parsed playlist loses no record: every record is a
    variant of exactly one channel, film or series, so the variants of the
    three results add up to the number of records of the playlist. *)
Theorem X15_deduplication_covers_a_playlist (t0 t1 : Z)
    (content sourceName : jsstring) :
  let records := pl_channels (parseM3U localeCompare t0 t1 content sourceName) in
  (sum_list (map (λ g, length (variants g)) (deduplicateChannels records))
   + sum_list (map (λ g, length (variants g)) (deduplicateMovies records))
   + sum_list (map (λ g, length (variants g)) (deduplicateSeries records)))%nat
  = length records.
Proof.
  intros records.
  destruct (channels_partitions records) as (_ & _ & ->).
  destruct (grouped_partitions TMovie isVod
              (λ ch, ContentParser.getContentKey (name ch) TMovie) records)
    as (_ & _ & Hm).
  destruct (grouped_partitions TSeries isSeries
              (λ ch, ContentParser.getContentKey (name ch) TSeries) records)
    as (_ & _ & Hs).
  unfold deduplicateMovies, deduplicateSeries. unfold grouped in Hm, Hs.
  rewrite Hm, Hs. apply wellFormed_types, parseLines_wellFormed.
Qed.

End ParsedRecords.

(** ** The categories of a playlist *)

Section PlaylistCategories.
Import Regex M3U Deduplicator.
Context `{Host}.
Variable localeCompare : jsstring → jsstring → Z.

Lemma countGroup_addToGroup g ch (gs : list (jsstring * list Channel)) :
  countGroup g (map (λ e, (e.1, length e.2)) gs)
  = map (λ e, (e.1, length e.2)) (addToGroup g ch gs).
Proof.
  induction gs as [|[k existing] gs IH]; simpl; [done|].
  destruct (JS.eqb k g); simpl.
  - by rewrite length_app, Nat.add_1_r.
  - by rewrite IH.
Qed.

(** The map of [extractCategories] holds the sizes of the groups that the
    grouping loop would build for the group names. *)
Lemma categoryMap_grouped (channels : list Channel) :
  foldl (λ m channel, countGroup (orElse (group channel) unclassified) m)
        [] channels
  = map (λ e, (e.1, length e.2)) (grouped groupName channels).
Proof.
  unfold grouped.
  change (@nil (jsstring * nat))
    with (map (λ e : jsstring * list Channel, (e.1, length e.2)) []).
  generalize (@nil (jsstring * list Channel)).
  induction channels as [|ch channels IH]; intros acc; simpl; [done|].
  by rewrite (countGroup_addToGroup _ ch), IH.
Qed.

Lemma insertCategory_perm a l : insertCategory localeCompare a l ≡ₚ a :: l.
Proof.
  induction l as [|b l IH]; simpl; [done|].
  destruct (_ <=? 0)%Z; [done|]. rewrite IH. apply Permutation_swap.
Qed.

Lemma sortCategories_perm l : foldr (insertCategory localeCompare) [] l ≡ₚ l.
Proof.
  induction l as [|a l IH]; simpl; [done|].
  by rewrite insertCategory_perm, IH.
Qed.

Lemma insertCategory_sorted a l :
  consistentComparator localeCompare →
  StronglySorted (λ x y, (localeCompare (c_name x) (c_name y) ≤ 0)%Z) l →
  StronglySorted (λ x y, (localeCompare (c_name x) (c_name y) ≤ 0)%Z)
                 (insertCategory localeCompare a l).
Proof.
  intros [Htotal Htrans] Hl.
  induction Hl as [|b l Hl IH Hb]; simpl; [repeat constructor|].
  destruct (Z.leb_spec (localeCompare (c_name a) (c_name b)) 0) as [Hab|Hab].
  - constructor; [by constructor|]. constructor; [done|].
    eapply Forall_impl; [exact Hb|]. intros c Hc. simpl in Hc.
    by eapply Htrans.
  - constructor; [done|]. rewrite insertCategory_perm. constructor; [|done].
    destruct (Htotal (c_name a) (c_name b)); [lia|done].
Qed.

Lemma sortCategories_sorted l :
  consistentComparator localeCompare →
  StronglySorted (λ x y, (localeCompare (c_name x) (c_name y) ≤ 0)%Z)
                 (foldr (insertCategory localeCompare) [] l).
Proof.
  intros Hcmp. induction l as [|a l IH]; simpl; [constructor|].
  by apply insertCategory_sorted.
Qed.

Lemma extractCategories_grouped (channels : list Channel) :
  extractCategories localeCompare channels
  ≡ₚ map (λ e, {| c_id := replaceAll false (plus Space) (js "-")
                              (toLowerCase e.1);
                  c_name := e.1;
                  channelCount := length e.2 |})
         (grouped groupName channels).
Proof.
  unfold extractCategories. cbv zeta.
  rewrite sortCategories_perm, categoryMap_grouped, map_map. done.
Qed.

(** X16. [extractCategories] returns one category per group name, the
    records without a group being counted under Non classé.  The count of a
    category is the number of records with its name, so no count is zero
    and the counts add up to the number of records; the id of a category
    is its lower-cased name with every run of white space replaced by a
    hyphen, so it contains no white space; and the categories are in
    ascending order whenever the comparison of the host is a total
    preorder. *)
Theorem X16_categories_count_every_record (channels : list Channel) :
  map c_name (extractCategories localeCompare channels)
    ≡ₚ firstOccurrences (map groupName channels)
  ∧ NoDup (map c_name (extractCategories localeCompare channels))
  ∧ Forall (λ c,
       channelCount c
         = length (List.filter (λ ch, JS.eqb (groupName ch) (c_name c)) channels)
       ∧ (1 ≤ channelCount c)%nat
       ∧ c_id c = replaceAll false (plus Space) (js "-") (toLowerCase (c_name c))
       ∧ Forall (λ x, JS.isSpace x = false) (c_id c))
      (extractCategories localeCompare channels)
  ∧ sum_list (map channelCount (extractCategories localeCompare channels))
    = length channels
  ∧ (consistentComparator localeCompare →
     StronglySorted (λ x y, (localeCompare (c_name x) (c_name y) ≤ 0)%Z)
                    (extractCategories localeCompare channels)).
Proof.
  pose proof (extractCategories_grouped channels) as Hperm.
  pose proof (grouped_groupsOf groupName channels) as (Hnd & _ & Hgroups).
  pose proof (grouped_size groupName channels) as Hsize.
  pose proof (grouped_keys groupName channels) as Hkeys.
  set (gs := grouped groupName channels) in *.
  assert (map c_name
            (map (λ e : jsstring * list Channel,
                    {| c_id := replaceAll false (plus Space) (js "-")
                                 (toLowerCase e.1);
                       c_name := e.1;
                       channelCount := length e.2 |}) gs) = gs.*1) as Hnames.
  { rewrite map_map. done. }
  split_and!.
  - by rewrite Hperm, Hnames, Hkeys.
  - by rewrite Hperm, Hnames.
  - rewrite Hperm. apply Forall_fmap.
    eapply Forall_impl; [exact Hgroups|]. intros [k g] [Hne Hg]. simpl in *.
    split_and!; [by rewrite Hg at 1| |done|].
    + destruct g; [done|]. simpl. lia.
    + apply Forall_forall. intros x [Hx|Hx]%replaceAll_plus_space; [|done].
      apply list_elem_of_singleton in Hx as ->. done.
  - rewrite Hperm, map_map. simpl. exact Hsize.
  - intros Hcmp. by apply sortCategories_sorted.
Qed.

End PlaylistCategories.

Lemma ltb_asym a b : JS.ltb a b = true → JS.ltb b a = false.
Proof.
  intros Hab. destruct (JS.ltb b a) eqn:Hba; [|done].
  by rewrite <- (ltb_irrefl a), (ltb_trans a b a).
Qed.

Lemma compareCodeUnits_le a b :
  (compareCodeUnits a b ≤ 0)%Z ↔ JS.ltb b a = false.
Proof.
  unfold compareCodeUnits. destruct (JS.ltb a b) eqn:Hab.
  - rewrite (ltb_asym a b Hab). split; [done|lia].
  - destruct (JS.ltb b a); split; try done; lia.
Qed.

Lemma compareCodeUnits_consistent : consistentComparator compareCodeUnits.
Proof.
  split.
  - intros a b. rewrite !compareCodeUnits_le.
    destruct (JS.ltb b a) eqn:Hba; [right; by apply ltb_asym|by left].
  - intros a b c. rewrite !compareCodeUnits_le. intros Hba Hcb.
    destruct (JS.ltb c a) eqn:Hca; [|done].
    destruct (JS.ltb a b) eqn:Hab.
    + by rewrite <- Hcb, (ltb_trans c a b).
    + apply ltb_total in Hab as ->; [|done]. by rewrite <- Hcb.
Qed.

Lemma X16_witness :
  StronglySorted
    (λ x y, (compareCodeUnits (M3U.c_name x) (M3U.c_name y) ≤ 0)%Z)
    (@M3U.extractCategories asciiHost compareCodeUnits
       [sampleRecord "1" "TF1" true Live; sampleRecord "2" "Film" false Vod]).
Proof.
  apply (proj2 (proj2 (proj2 (proj2
           (@X16_categories_count_every_record asciiHost compareCodeUnits
              [sampleRecord "1" "TF1" true Live;
               sampleRecord "2" "Film" false Vod]))))).
  apply compareCodeUnits_consistent.
Defined.

(** ** Pieces of a text *)

Section Pieces.

Lemma startsWith_spec s p :
  JS.startsWith s p = true ↔ ∃ post, s = p ++ post.
Proof.
  revert s. induction p as [|c p IH]; intros s.
  - destruct s; simpl; split; eauto.
  - destruct s as [|d s]; simpl.
    + split; [done|]. by intros (post & ?).
    + rewrite andb_true_iff, N.eqb_eq, IH. split.
      * intros (-> & post & ->). eauto.
      * intros (post & [= -> ->]). eauto.
Qed.

Lemma includes_spec s p :
  JS.includes s p = true ↔ ∃ pre post, s = pre ++ p ++ post.
Proof.
  induction s as [|d s IH]; cbn [JS.includes].
  - rewrite orb_false_r, startsWith_spec. split.
    + intros (post & Hs). by exists [], post.
    + intros (pre & post & Hs). symmetry in Hs.
      apply app_eq_nil in Hs as [-> Hs]. eauto.
  - rewrite orb_true_iff, startsWith_spec, IH. split.
    + intros [(post & ->)|(pre & post & ->)]; [by exists [], post|].
      by exists (d :: pre), post.
    + intros ([|e pre] & post & Hs); simpl in Hs; [left; eauto|].
      injection Hs as -> ->. right. eauto.
Qed.

Lemma includes_trimStart s p c :
  head p = Some c → JS.isSpace c = false →
  JS.includes s p = true → JS.includes (JS.trimStart s) p = true.
Proof.
  intros Hp Hc. induction s as [|d s IH]; [done|].
  cbn [JS.trimStart]. destruct (JS.isSpace d) eqn:Hd; [|done].
  cbn [JS.includes]. intros [Hstart|Hs]%orb_true_iff; [|by apply IH].
  destruct p as [|e p]; [done|]. injection Hp as ->.
  simpl in Hstart. apply andb_true_iff in Hstart as [->%N.eqb_eq _]. congruence.
Qed.

Lemma includes_rev s p :
  JS.includes s p = true → JS.includes (rev s) (rev p) = true.
Proof.
  rewrite !includes_spec. intros (pre & post & ->).
  exists (rev post), (rev pre). by rewrite !rev_app_distr, app_assoc.
Qed.

Lemma includes_trim s p c d :
  head p = Some c → JS.isSpace c = false →
  last p = Some d → JS.isSpace d = false →
  JS.includes s p = true → JS.includes (JS.trim s) p = true.
Proof.
  intros Hc Hcs Hd Hds Hs. unfold JS.trim, JS.trimEnd.
  rewrite <- (rev_involutive p). apply includes_rev.
  apply (includes_trimStart _ _ d); [by rewrite <- last_rev, rev_involutive|done|].
  apply includes_rev. by apply (includes_trimStart _ _ c).
Qed.

Lemma includes_trim_inv s p :
  JS.includes (JS.trim s) p = true → JS.includes s p = true.
Proof.
  rewrite !includes_spec. intros (pre & post & Hs). unfold JS.trim in Hs.
  destruct (trimEnd_prefix (JS.trimStart s)) as (b & Hb & _).
  destruct (trimStart_suffix s) as (a & Ha & _).
  exists (a ++ pre), (post ++ b).
  rewrite Ha, Hb, Hs. by rewrite <- !app_assoc.
Qed.

End Pieces.

(** ** Validation of a playlist *)

Section Validation.
Import M3U.
Context `{Host}.
Variable localeCompare : jsstring → jsstring → Z.

Lemma splitLines_elem line : ∀ n s cur,
  (length s ≤ n)%nat →
  line ∈ splitLines cur s →
  ∃ pre post, rev cur ++ s = pre ++ line ++ post.
Proof.
  induction n as [|n IH]; intros s cur Hn.
  - destruct s; [|simpl in Hn; lia]. simpl.
    intros ->%list_elem_of_singleton. exists [], []. by rewrite !app_nil_r.
  - destruct s as [|c s]; simpl.
    { intros ->%list_elem_of_singleton. exists [], []. by rewrite !app_nil_r. }
    simpl in Hn.
    assert (line ∈ splitLines (c :: cur) s →
            ∃ pre post, rev cur ++ c :: s = pre ++ line ++ post) as Hnext.
    { intros (pre & post & Hs)%IH; [|lia]. exists pre, post.
      rewrite <- Hs. simpl. by rewrite <- app_assoc. }
    destruct (c =? 10)%N.
    + intros [->|Hin]%elem_of_cons; [by exists [], (c :: s)|].
      apply IH in Hin as (pre & post & Hs); [|lia]. simpl in Hs.
      exists (rev cur ++ c :: pre), post. rewrite Hs.
      by rewrite <- app_assoc.
    + destruct s as [|d s]; [done|].
      destruct ((c =? 13)%N && (d =? 10)%N); [|done].
      intros [->|Hin]%elem_of_cons; [by exists [], (c :: d :: s)|].
      apply IH in Hin as (pre & post & Hs); [|simpl in Hn; lia]. simpl in Hs.
      exists (rev cur ++ c :: d :: pre), post. rewrite Hs.
      by rewrite <- app_assoc.
Qed.

Lemma count_positive f lines :
  (0 < count f lines)%nat → ∃ l, l ∈ lines ∧ f l = true.
Proof.
  unfold count. induction lines as [|l lines IH]; simpl; [lia|].
  destruct (f l) eqn:Hl.
  - intros _. exists l. split; [by left|done].
  - intros (l' & Hin & Hl')%IH. exists l'. split; [by right|done].
Qed.

(** X17. A text in which [parseM3U] finds at least one record is accepted
    by [isValidM3U]; in other words, a text that [isValidM3U] rejects
    parses to a playlist without records. *)
Theorem X17_parsed_content_is_valid (t0 t1 : Z)
    (content sourceName : jsstring) :
  pl_channels (parseM3U localeCompare t0 t1 content sourceName) ≠ [] →
  isValidM3U content = true.
Proof.
  intros Hne.
  destruct (foldl_step_count initial (splitLines [] content)) as [Hcount _].
  cbn [parsed initial length] in Hcount.
  change (foldl step initial (splitLines [] content))
    with (parseLines (splitLines [] content)) in Hcount.
  assert (0 < count isExtinfLine (splitLines [] content))%nat as Hpos.
  { change (pl_channels (parseM3U localeCompare t0 t1 content sourceName))
      with (parsed (parseLines (splitLines [] content))) in Hne.
    destruct (parsed (parseLines (splitLines [] content))); [done|].
    simpl in Hcount. unfold pending in Hcount. simpl in Hcount. lia. }
  apply count_positive in Hpos as (l & Hin & Hl).
  apply (splitLines_elem l (length content)) in Hin as (pre & post & Hc); [|done].
  simpl in Hc. unfold isExtinfLine in Hl.
  apply startsWith_spec in Hl as (rest & Hl).
  unfold isValidM3U. cbv zeta. apply orb_true_iff. right.
  apply (includes_trim _ _ (code "#") (code ":")); [done..|].
  rewrite Hc. apply includes_spec.
  assert (JS.includes l (js "#EXTINF:") = true) as Hl'.
  { apply includes_trim_inv. rewrite Hl. apply includes_spec. by exists [], rest. }
  apply includes_spec in Hl' as (a & b & ->).
  exists (pre ++ a), (b ++ post). by rewrite <- !app_assoc.
Qed.

End Validation.

Lemma X17_witness : M3U.isValidM3U (joinLines samplePlaylist) = true.
Proof.
  apply (@X17_parsed_content_is_valid asciiHost (λ _ _, 0%Z) 0 0
           (joinLines samplePlaylist) (js "P")).
  by vm_compute.
Defined.

(** ** Merging playlists *)

Section Merging.
Import M3U.
Context `{Host}.
Variable localeCompare : jsstring → jsstring → Z.

Lemma firstOccurrences_snoc l x :
  firstOccurrences (l ++ [x]) = ContentParser.setAdd x (firstOccurrences l).
Proof. by rewrite <- !foldl_setAdd_empty, foldl_app. Qed.

Lemma firstOccurrences_NoDup_id l : NoDup l → firstOccurrences l = l.
Proof.
  induction 1 as [|x l Hx Hl IH]; simpl; [done|]. rewrite IH. f_equal.
  clear IH Hl. induction l as [|y l IH]; simpl; [done|].
  apply not_elem_of_cons in Hx as [Hxy Hx].
  assert (JS.eqb y x = false) as -> by (apply eqb_neq; congruence).
  simpl. f_equal. by apply IH.
Qed.

Lemma foldl_concat {A B} (f : A → B → A) (ls : list (list B)) : ∀ acc,
  foldl (λ acc l, foldl f acc l) acc ls = foldl f acc (concat ls).
Proof.
  induction ls as [|l ls IH]; intros acc; simpl; [done|].
  by rewrite IH, foldl_app.
Qed.

Lemma sublist_same_length {A} (l k : list A) :
  sublist l k → length l = length k → l = k.
Proof.
  induction 1 as [|x l k Hlk IH|x l k Hlk IH]; simpl; [done| |].
  - intros [= Hlen]. f_equal. by apply IH.
  - intros Hlen. apply sublist_length in Hlk. lia.
Qed.

Lemma find_app {A} (f : A → bool) l k :
  find f (l ++ k) = match find f l with Some x => Some x | None => find f k end.
Proof.
  induction l as [|a l IH]; simpl; [done|]. by destruct (f a).
Qed.

(** What the two accumulators of the merging loops hold after the records
    [l]. *)
Lemma merge_invariant (l : list Channel) :
  let '(seenUrls, allChannels) := foldl mergeChannel ([], []) l in
  seenUrls = map url allChannels
  ∧ map url allChannels = firstOccurrences (map url l)
  ∧ sublist allChannels l
  ∧ ∀ ch, ch ∈ allChannels →
          find (λ c, JS.eqb (url c) (url ch)) l = Some ch.
Proof.
  induction l as [|ch l IH] using rev_ind.
  { simpl. split_and!; [done|done|constructor|]. by intros ? ?%elem_of_nil. }
  rewrite foldl_app. cbn [foldl].
  destruct (foldl mergeChannel ([], []) l) as [seenUrls allChannels].
  destruct IH as (Hseen & Hurls & Hsub & Hfirst).
  assert (firstOccurrences (map url (l ++ [ch]))
          = if bool_decide (url ch ∈ seenUrls) then map url allChannels
            else map url allChannels ++ [url ch]) as Hsnoc.
  { rewrite map_app. cbn [map]. rewrite firstOccurrences_snoc.
    unfold ContentParser.setAdd. by rewrite <- Hurls, <- Hseen. }
  unfold mergeChannel. case_bool_decide as Hin.
  - split_and!; [done|done|by apply sublist_inserts_r|].
    intros c Hc. rewrite find_app, (Hfirst c Hc). done.
  - split_and!.
    + by rewrite map_app, Hseen.
    + by rewrite map_app, Hsnoc.
    + by apply sublist_app.
    + intros c [Hc|Hc]%elem_of_app.
      * rewrite find_app, (Hfirst c Hc). done.
      * apply list_elem_of_singleton in Hc as ->. rewrite find_app.
        assert (find (λ c, JS.eqb (url c) (url ch)) l = None) as ->.
        { apply find_None_all. intros c Hc. apply eqb_neq. intros Heq.
          apply Hin. rewrite Hseen, Hurls, firstOccurrences_elem, <- Heq.
          by apply list_elem_of_fmap_2. }
        simpl. by rewrite eqb_refl.
Qed.

(** X18. [mergePlaylists] keeps, for every URL, the first record that has
    it, and keeps the records in their order: the URLs of the result are the
    URLs of the inputs in the order of their first occurrence, so no URL is
    lost and none occurs twice.  Playlists without a common URL are merely
    concatenated. *)
Theorem X18_merge_keeps_first_of_each_url (t0 t1 : Z)
    (playlists : list Playlist) (name : jsstring) :
  let merged := pl_channels (mergePlaylists localeCompare t0 t1 playlists name) in
  map url merged = firstOccurrences (map url (allRecords playlists))
  ∧ NoDup (map url merged)
  ∧ sublist merged (allRecords playlists)
  ∧ (∀ ch, ch ∈ allRecords playlists → url ch ∈ map url merged)
  ∧ (∀ ch, ch ∈ merged →
           find (λ c, JS.eqb (url c) (url ch)) (allRecords playlists) = Some ch)
  ∧ (NoDup (map url (allRecords playlists)) → merged = allRecords playlists).
Proof.
  intros merged.
  assert (merged = (foldl mergeChannel ([], []) (allRecords playlists)).2)
    as Hmerged.
  { unfold merged, mergePlaylists, allRecords. cbn [pl_channels].
    by rewrite <- foldl_concat, (foldl_fmap _ _ _ pl_channels). }
  pose proof (merge_invariant (allRecords playlists)) as Hinv.
  destruct (foldl mergeChannel ([], []) (allRecords playlists))
    as [seenUrls allChannels].
  simpl in Hmerged. rewrite <- Hmerged in Hinv.
  destruct Hinv as (_ & Hurls & Hsub & Hfirst).
  split_and!; [done| |done| |done|].
  - rewrite Hurls. apply firstOccurrences_NoDup.
  - intros ch Hch. rewrite Hurls, firstOccurrences_elem.
    by apply list_elem_of_fmap_2.
  - intros Hnd. apply sublist_same_length; [done|].
    rewrite <- (length_map url merged), Hurls, firstOccurrences_NoDup_id by done.
    by rewrite length_map.
Qed.

End Merging.

Lemma X18_witness :
  M3U.pl_channels
    (@M3U.mergePlaylists asciiHost (λ _ _, 0%Z) 0 0 samplePlaylists (js "M"))
  = allRecords samplePlaylists.
Proof.
  apply (@X18_merge_keeps_first_of_each_url asciiHost (λ _ _, 0%Z) 0 0
           samplePlaylists (js "M")).
  apply (bool_decide_unpack _). by vm_compute.
Defined.

(** ** The next programme *)

Section NextProgram.
Import Epg.

Lemma startsAfter_startsLater now p :
  startsAfter now p = true ↔ startsLater now p.
Proof.
  unfold startsAfter, gt, startsLater.
  destruct (startTimestamp p) as [|s]; simpl.
  - split; [done|]. by intros (s & ? & _).
  - rewrite Z.ltb_lt. split; [eauto|]. by intros (s' & [= <-] & ?).
Qed.

(** X19. [getNextProgram] returns the first cached programme of the channel
    that starts strictly after the current time, and nothing when the
    channel has no cached programme or none starts later.  It never returns
    the programme that [getCurrentProgram] returns for the same time: the
    current one has started, the next one has not. *)
Theorem X19_next_program_starts_later
    (epgData : gmap jsstring (list EpgProgram)) (now : Z) (channelId : jsstring) :
  (∀ q, getNextProgram epgData now channelId = Some q ↔
        ∃ programs i,
          epgData !! channelId = Some programs
          ∧ programs !! i = Some q
          ∧ startsLater now q
          ∧ ∀ j r, (j < i)%nat → programs !! j = Some r → ¬ startsLater now r)
  ∧ (getNextProgram epgData now channelId = None ↔
       epgData !! channelId = None
       ∨ ∃ programs,
           epgData !! channelId = Some programs
           ∧ ∀ r, r ∈ programs → ¬ startsLater now r)
  ∧ (∀ p q,
       getCurrentProgram epgData now channelId = Some p →
       getNextProgram epgData now channelId = Some q →
       p ≠ q
       ∧ ∃ s s', startTimestamp p = JS.Int s ∧ startTimestamp q = JS.Int s'
                 ∧ (s ≤ now < s')%Z).
Proof.
  assert (getNextProgram epgData now channelId
          = programs ← epgData !! channelId; find (startsAfter now) programs)
    as Hnext.
  { unfold getNextProgram. by destruct (epgData !! channelId) as [[|? ?]|]. }
  split_and!.
  - intros q. rewrite Hnext. destruct (epgData !! channelId) as [programs|]; simpl.
    + rewrite find_Some_first. split.
      * intros (i & Hi & Hq & Hfirst). exists programs, i.
        split_and!; [done|done|by apply startsAfter_startsLater|].
        intros j r Hj Hr Hlater%startsAfter_startsLater.
        by rewrite (Hfirst j r Hj Hr) in Hlater.
      * intros (programs' & i & [= <-] & Hi & Hq & Hfirst). exists i.
        split_and!; [done|by apply startsAfter_startsLater|].
        intros j r Hj Hr. destruct (startsAfter now r) eqn:Hlater; [|done].
        apply startsAfter_startsLater in Hlater. by destruct (Hfirst j r Hj Hr).
    + split; [done|]. by intros (? & ? & ? & _).
  - rewrite Hnext. destruct (epgData !! channelId) as [programs|]; simpl.
    + rewrite find_None_all. split.
      * intros Hnone. right. exists programs. split; [done|].
        intros r Hr Hlater%startsAfter_startsLater.
        by rewrite (Hnone r Hr) in Hlater.
      * intros [?|(programs' & [= <-] & Hnone)]; [done|].
        intros r Hr. destruct (startsAfter now r) eqn:Hlater; [|done].
        apply startsAfter_startsLater in Hlater. by destruct (Hnone r Hr).
    + split; [by left|done].
  - intros p q Hp Hq.
    assert (airsAt now p = true) as Hair.
    { unfold getCurrentProgram in Hp.
      destruct (epgData !! channelId) as [[|p0 ps]|]; try done.
      by apply find_some in Hp as [_ Hp]. }
    assert (startsAfter now q = true) as Hlater.
    { rewrite Hnext in Hq. destruct (epgData !! channelId); [|done].
      by apply find_some in Hq as [_ Hq]. }
    apply airsAt_onAirClosed in Hair as (s & e & Hs & _ & Hnow).
    apply startsAfter_startsLater in Hlater as (s' & Hs' & Hnow').
    split; [|exists s, s'; split_and!; try done; lia].
    intros ->. rewrite Hs in Hs'. injection Hs' as ->. lia.
Qed.

End NextProgram.

Lemma X19_witness :
  sampleProgram ≠ sampleNextProgram
  ∧ ∃ s s', Epg.startTimestamp sampleProgram = JS.Int s
            ∧ Epg.startTimestamp sampleNextProgram = JS.Int s'
            ∧ (s ≤ 1700000000000 < s')%Z.
Proof.
  apply (proj2 (proj2 (X19_next_program_starts_later
                         {[ js "tf1" := [sampleProgram; sampleNextProgram] ]}
                         1700000000000 (js "tf1")))).
  - by vm_compute.
  - by vm_compute.
Defined.

(** ** Greedy runs *)

Section Greedy.
Import Regex.

Variable ic : bool.

Lemma clearCaps_nil x : clearCaps [] x = x.
Proof.
  destruct x as [i q s cs]. unfold clearCaps. cbn [pos prev rest caps]. f_equal.
  induction cs as [|e cs IH]; [done|].
  rewrite filter_cons_True by apply not_elem_of_nil. by rewrite IH.
Qed.

Lemma run_Group n r k x :
  run ic (Group n r) k x
  = run ic r (λ y, k (setCap n (take (pos y - pos x) (rest x)) y)) x.
Proof. reflexivity. Qed.

Lemma run_Repeat mn mx r k x :
  run ic (Repeat mn mx r) k x
  = repeatLoop (run ic r) (groupsOf r) k (S (mn + length (rest x))) mn mx x.
Proof. reflexivity. Qed.

Lemma readsOne_digit : readsOne ic Digit JS.isDigit.
Proof.
  split_and!; [done|done|]. cbn [consumes]. intros w (d & -> & _). eauto.
Qed.

(** A literal reads its own text. *)
Lemma run_lit s k : ∀ x tl,
  rest x = js s ++ tl →
  ∃ y, run false (lit s) k x = k y
       ∧ pos y = (pos x + length (js s))%nat ∧ rest y = tl ∧ caps y = caps x.
Proof.
  unfold lit. induction (js s) as [|c l IH]; intros x tl Hrest; simpl.
  - exists x. split_and!; [done|lia|done|done].
  - unfold single. rewrite Hrest. simpl. rewrite N.eqb_refl.
    destruct (IH (advance c (l ++ tl) x) tl eq_refl) as (y & -> & Hpos & ? & ?).
    exists y. split_and!; [done| |done|done]. simpl in Hpos. lia.
Qed.

(** A greedy repetition of a pattern that reads one character takes every
    character of the kind that stands at the current position, when what
    follows the repetition accepts there. *)
Lemma greedy_run r p k tl :
  readsOne ic r p → groupsOf r = [] →
  match tl with [] => True | c :: _ => p c = false end →
  ∀ ds fuel mn x,
    rest x = ds ++ tl → Forall (λ d, p d = true) ds →
    (mn + length (rest x) < fuel)%nat → (mn ≤ length ds)%nat →
    ∃ y, pos y = (pos x + length ds)%nat ∧ rest y = tl ∧ caps y = caps x
         ∧ (is_Some (k y) →
            repeatLoop (run ic r) [] k fuel mn None x = k y).
Proof.
  intros (Hrun & _ & _) Hgs Htl.
  induction ds as [|d ds IH]; intros fuel mn x Hrest Hds Hfuel Hmn.
  - simpl in Hmn. assert (mn = 0%nat) as -> by lia.
    destruct fuel as [|fuel]; [lia|]. cbn [repeatLoop maxReached Nat.eqb].
    rewrite Hrun. unfold single. rewrite clearCaps_nil, Hrest. cbn [app].
    exists x. split_and!; [simpl; lia|done|done|]. intros _.
    destruct tl as [|c tl]; [done|]. by rewrite Htl.
  - apply Forall_cons in Hds as [Hd Hds].
    destruct fuel as [|fuel]; [lia|]. cbn [repeatLoop maxReached].
    rewrite Hrun. unfold single. rewrite clearCaps_nil, Hrest.
    cbn [app advance pos]. rewrite Hd.
    assert (Nat.eqb mn 0 && Nat.eqb (S (pos x)) (pos x) = false) as ->.
    { apply andb_false_iff. right. apply Nat.eqb_neq. lia. }
    destruct (IH fuel (Nat.pred mn) (advance d (ds ++ tl) x))
      as (y & Hpos & Hresty & Hcaps & Hy);
      [done|done|rewrite Hrest in Hfuel; simpl in *; lia|simpl in *; lia|].
    change (Nat.pred <$> None) with (@None nat).
    exists y. simpl in Hpos. split_and!; [simpl; lia|done|done|].
    intros Hk. rewrite (Hy Hk).
    destruct (Nat.eqb mn 0); [by destruct Hk as [z ->]|done].
Qed.

End Greedy.

(** ** The ids of the live streams and the cache of guides *)

Section StreamIds.
Import Regex Epg Xtream.

Lemma uint_digits d :
  Forall (λ c, JS.isDigit c = true) (js (NilEmpty.string_of_uint d)).
Proof.
  induction d; simpl; [constructor|by constructor..].
Qed.

Lemma numberToString_digits n :
  (0 ≤ n < 9007199254740992)%Z →
  JS.numberToString (JS.Int n) ≠ []
  ∧ Forall (λ c, JS.isDigit c = true) (JS.numberToString (JS.Int n)).
Proof.
  intros Hn. rewrite numberToString_small by lia.
  unfold JS.decimal. destruct n as [|q|q]; [| |lia].
  - split; [done|]. by repeat constructor.
  - change (Z.to_int (Z.pos q)) with (Decimal.Pos (Pos.to_uint q)).
    pose proof (DecimalPos.Unsigned.to_uint_nonnil q) as Hq.
    cbn [NilZero.string_of_int].
    assert (NilZero.string_of_uint (Pos.to_uint q)
            = NilEmpty.string_of_uint (Pos.to_uint q)) as ->
      by (by destruct (Pos.to_uint q)).
    split; [by destruct (Pos.to_uint q)|apply uint_digits].
Qed.

Lemma STREAM_ID_live_id ds :
  ds ≠ [] → Forall (λ c, JS.isDigit c = true) ds →
  ∃ m, exec false STREAM_ID (js "xtream-live-" ++ ds) = Some m
       ∧ capture 1 m = Some ds.
Proof.
  intros Hne Hds. unfold exec. rewrite search_unfold. unfold matchAt, STREAM_ID.
  change (run false (Seq (lit "xtream-live-") (Group 1 (plus Digit))) Some)
    with (run false (lit "xtream-live-") (run false (Group 1 (plus Digit)) Some)).
  destruct (run_lit "xtream-live-"
              (run false (Group 1 (plus Digit)) Some)
              (MState 0 None (js "xtream-live-" ++ ds) []) ds eq_refl)
    as (y & -> & Hpos & Hrest & Hcaps).
  unfold plus. rewrite run_Group, run_Repeat.
  change (groupsOf Digit) with (@nil nat).
  destruct (greedy_run false Digit JS.isDigit
              (λ y0, Some (setCap 1 (take (pos y0 - pos y) (rest y)) y0)) []
              (readsOne_digit false) eq_refl I
              ds (S (1 + length (rest y))) 1%nat y)
    as (z & Hposz & Hrestz & Hcapsz & ->).
  { by rewrite Hrest, app_nil_r. }
  { done. }
  { lia. }
  { destruct ds; [done|]. simpl. lia. }
  2:{ done. }
  eexists. split; [done|]. unfold capture. cbn [groups].
  rewrite getCap_setCap. rewrite decide_True by done.
  rewrite Hposz, Hrest. replace (pos y + length ds - pos y)%nat
    with (length ds) by lia. by rewrite firstn_all.
Qed.

Lemma fetch_request api cache t0 t1 channel m sid :
  default false (isLive channel) = true →
  exec false STREAM_ID (id channel) = Some m →
  capture 1 m = Some sid →
  (∀ e, cache !! (js "epg-" ++ sid) = Some e →
        (CACHE_DURATION ≤ t0 - fetchedAt e)%Z) →
  fetchEpgForChannel (Some api) cache t0 t1 channel
  = match api sid with
    | Some ps =>
        {| resolved := Some {| resultChannelId := id channel;
                               resultPrograms := ps |};
           stored := Some (js "epg-" ++ sid,
                           {| programs := ps; fetchedAt := t1 |}) |}
    | None => {| resolved := None; stored := None |}
    end.
Proof.
  intros Hlive Hexec Hsid Hcache. unfold fetchEpgForChannel.
  rewrite Hlive, Hexec, Hsid. cbn [negb]. change (default [] (Some sid)) with sid.
  cbv zeta. destruct (cache !! (js "epg-" ++ sid)) as [e|] eqn:He; [|done].
  specialize (Hcache e eq_refl).
  destruct (Z.ltb_spec (t0 - fetchedAt e) CACHE_DURATION); [lia|done].
Qed.


Variable encodeURIComponent : jsstring → option jsstring.



Lemma baseUrl_http credentials :
  ∃ tl, baseUrl credentials = js "http" ++ tl.
Proof.
  unfold baseUrl. cbv zeta.
  destruct (JS.startsWith _ (js "http")) eqn:Hhttp; cbn [negb].
  - by apply startsWith_spec in Hhttp.
  - by eexists (js "://" ++ _).
Qed.

(** X21. The channel that the Xtream client builds for a live stream is
    one whose guide the hook can fetch: it is live, its URL starts with
    http, and for a stream id that is a natural number below [2^53] the
    pattern of the hook finds that number in the id of the channel, so that
    the guide is requested and cached under the decimal numeral of the
    stream id.  Some bound is needed: from [10^21] on a number is written
    with an exponent, and for the stream id [10^21] the hook reads the
    stream id 1 in the id of the channel. *)
Theorem X21_live_stream_id_round_trip (credentials : XtreamCredentials)
    (stream : XtreamLiveStream) (categoryName : jsstring)
    (channel : Channel) (n : Z) :
  liveStreamToChannel encodeURIComponent credentials stream categoryName
    = Some channel →
  stream_id stream = JS.Int n → (0 ≤ n < 2 ^ 53)%Z →
  isLive channel = Some true
  ∧ streamType channel = Some Live
  ∧ JS.startsWith (url channel) (js "http") = true
  ∧ (∃ m, exec false STREAM_ID (id channel) = Some m
          ∧ capture 1 m = Some (JS.numberToString (JS.Int n)))
  ∧ (∀ api t0 t1,
      fetchEpgForChannel (Some api) ∅ t0 t1 channel
      = match api (JS.numberToString (JS.Int n)) with
        | Some ps =>
            {| resolved := Some {| resultChannelId := id channel;
                                   resultPrograms := ps |};
               stored := Some (js "epg-" ++ JS.numberToString (JS.Int n),
                               {| programs := ps; fetchedAt := t1 |}) |}
        | None => {| resolved := None; stored := None |}
        end)
  ∧ ∀ stream' channel',
      stream_id stream' = JS.Int (10 ^ 21) →
      liveStreamToChannel encodeURIComponent credentials stream' categoryName
        = Some channel' →
      id channel' = js "xtream-live-1e+21"
      ∧ ∃ m, exec false STREAM_ID (id channel') = Some m
             ∧ capture 1 m = Some (js "1").
Proof.
  intros Hch Hid Hn. change (2 ^ 53)%Z with 9007199254740992%Z in Hn.
  assert (∀ stream0 channel0 k,
            liveStreamToChannel encodeURIComponent credentials stream0
              categoryName = Some channel0 →
            stream_id stream0 = JS.Int k →
            id channel0 = js "xtream-live-" ++ JS.numberToString (JS.Int k)
            ∧ isLive channel0 = Some true ∧ streamType channel0 = Some Live
            ∧ ∃ tl, url channel0 = baseUrl credentials ++ tl) as Hbuilt.
  { intros stream0 channel0 k Hch0 Hid0.
    unfold liveStreamToChannel, buildLiveStreamUrl in Hch0.
    destruct (encodeURIComponent (username credentials)) as [user|]; [|done].
    destruct (encodeURIComponent (password credentials)) as [pass|]; [|done].
    cbn [mbind option_bind] in Hch0. apply (inj Some) in Hch0. subst channel0.
    cbn [isLive streamType url id]. rewrite Hid0. split_and!; eauto. }
  destruct (Hbuilt _ _ _ Hch Hid) as (Hcid & Hlive & Htype & tl & Hurl).
  destruct (numberToString_digits n Hn) as [Hne Hds].
  destruct (STREAM_ID_live_id _ Hne Hds) as (m & Hm & Hcap).
  rewrite <- Hcid in Hm.
  split_and!; [done|done| |by exists m| |].
  - rewrite Hurl. destruct (baseUrl_http credentials) as (tl' & ->).
    apply startsWith_spec. rewrite <- app_assoc. eauto.
  - intros api t0 t1. apply (fetch_request api ∅ t0 t1 channel m); [|done..].
    by rewrite Hlive.
  - intros stream' channel' Hid' Hch'.
    destruct (Hbuilt _ _ _ Hch' Hid') as (-> & _).
    assert (JS.numberToString (JS.Int (10 ^ 21)) = js "1e+21") as ->
      by (by vm_compute).
    split; [done|]. eexists. split; by vm_compute.
Qed.

End StreamIds.


Lemma X21_witness :
  ∃ m, Regex.exec false Epg.STREAM_ID (js "xtream-live-1042") = Some m
       ∧ Regex.capture 1 m = Some (js "1042").
Proof.
  apply (X21_live_stream_id_round_trip Some sampleCredentials sampleStream
           (js "News") _ 1042 eq_refl eq_refl ltac:(lia)).
Defined.

(** ** The preference auto *)

Section AutoPreference.
Import QualitySelection.

Lemma rank_lower_bound q :
  (-1 ≤ rank q)%Z ∧ (q ≠ Some QAuto → 0 ≤ rank q)%Z.
Proof. destruct q as [[]|]; cbv; split; intros; congruence. Qed.

Lemma top_of_ranking p (vs : list ContentVariant) i v :
  (∀ w, w ∈ vs → (p ≤ rank (v_quality w))%Z) →
  chosen p vs i v →
  vs !! i = Some v
  ∧ ∀ j w, vs !! j = Some w →
           j = i ∨ ranksBefore (i, v_quality v) (j, v_quality w).
Proof.
  intros Hall (Hi & Hsome & _). split; [done|].
  intros j w Hj. apply (Hsome j w Hj), Hall. by eapply list_elem_of_lookup_2.
Qed.

Lemma top_unique (vs : list ContentVariant) i v i' v' :
  vs !! i = Some v → vs !! i' = Some v' →
  (∀ j w, vs !! j = Some w →
          j = i ∨ ranksBefore (i, v_quality v) (j, v_quality w)) →
  (∀ j w, vs !! j = Some w →
          j = i' ∨ ranksBefore (i', v_quality v') (j, v_quality w)) →
  i = i'.
Proof.
  intros Hi Hi' Htop Htop'.
  destruct (Htop i' v' Hi') as [?|Hlt]; [done|].
  destruct (Htop' i v Hi) as [?|Hlt']; [done|].
  unfold ranksBefore in Hlt, Hlt'. simpl in Hlt, Hlt'. lia.
Qed.

Lemma auto_selects_top (vs : list ContentVariant) :
  vs ≠ [] →
  ∃ v, vs !! selectBestQuality vs QAuto = Some v
       ∧ ∀ j w, vs !! j = Some w →
                j = selectBestQuality vs QAuto
                ∨ ranksBefore (selectBestQuality vs QAuto, v_quality v)
                              (j, v_quality w).
Proof.
  intros Hne. destruct (selectBestQuality_chosen vs QAuto Hne) as [v Hv].
  apply top_of_ranking in Hv; [by exists v|].
  intros w _. apply rank_lower_bound.
Qed.

Lemma best_and_auto_agree (vs : list ContentVariant) :
  vs ≠ [] →
  (∀ w, w ∈ vs → v_quality w ≠ Some QAuto) →
  selectBestQuality vs Q4K = selectBestQuality vs QAuto.
Proof.
  intros Hne Hauto.
  destruct (auto_selects_top vs Hne) as (v & Hi & Htop).
  destruct (selectBestQuality_chosen vs Q4K Hne) as [v' Hv'].
  apply top_of_ranking in Hv' as [Hi' Htop'].
  2:{ intros w Hw. by apply rank_lower_bound, Hauto. }
  by eapply top_unique.
Qed.

(** X22. With the preference auto, [selectBestQuality] returns the top of
    its ranking: the variant of the best quality present, and the earliest
    one among several of that quality.  The preference 4K makes the same
    choice as long as no variant is itself tagged auto. *)
Theorem X22_auto_selects_the_best_available (vs : list ContentVariant) :
  vs ≠ [] →
  (∃ v, vs !! selectBestQuality vs QAuto = Some v
        ∧ ∀ j w, vs !! j = Some w →
            (rank (v_quality v) < rank (v_quality w))%Z
            ∨ (rank (v_quality v) = rank (v_quality w)
               ∧ (selectBestQuality vs QAuto ≤ j)%nat))
  ∧ ((∀ w, w ∈ vs → v_quality w ≠ Some QAuto) →
     selectBestQuality vs Q4K = selectBestQuality vs QAuto).
Proof.
  intros Hne. split; [|by apply best_and_auto_agree].
  destruct (auto_selects_top vs Hne) as (v & Hi & Htop).
  exists v. split; [done|]. intros j w Hj.
  destruct (Htop j w Hj) as [->|[Hlt|[Heq Hlt]]]; simpl in *.
  - right. split; [|done]. rewrite Hi in Hj. by injection Hj as ->.
  - by left.
  - right. split; [done|lia].
Qed.

End AutoPreference.

Lemma X22_witness :
  QualitySelection.selectBestQuality
    [sampleVariant "a" (Some SD); sampleVariant "b" (Some FHD)] Q4K
  = QualitySelection.selectBestQuality
      [sampleVariant "a" (Some SD); sampleVariant "b" (Some FHD)] QAuto.
Proof.
  apply (proj2 (X22_auto_selects_the_best_available
                  [sampleVariant "a" (Some SD); sampleVariant "b" (Some FHD)]
                  ltac:(done))).
  intros w Hw.
  apply elem_of_cons in Hw as [->|Hw]; [done|].
  apply elem_of_cons in Hw as [->|Hw]; [done|].
  by apply elem_of_nil in Hw.
Defined.

(** ** The quality HD at the end of a title *)

Section TrailingHD.
Import Regex ContentParser.

Lemma lit_consumed_ignoring_case s w :
  consumes true (lit s) w → toUpperCase w = toUpperCase (js s).
Proof.
  unfold lit, toUpperCase. revert w.
  induction (js s) as [|c l IH]; intros w; simpl.
  - by intros ->.
  - intros (u & v & -> & (d & -> & Hd) & Hv). unfold canon in Hd. simpl.
    by rewrite (IH v Hv), Hd.
Qed.

Lemma spaces_to_end x :
  Forall (λ c, JS.isSpace c = true) (rest x) →
  is_Some (run true (Seq (star Space) InputEnd) Some x).
Proof.
  intros Hx.
  change (run true (Seq (star Space) InputEnd) Some x)
    with (run true (star Space) (run true InputEnd Some) x).
  unfold star. rewrite run_Repeat.
  change (groupsOf Space) with (@nil nat).
  destruct (greedy_run true Space JS.isSpace (run true InputEnd Some) []
              (readsOne_space true) eq_refl I
              (rest x) (S (0 + length (rest x))) 0%nat x)
    as (y & _ & Hrest & _ & Hy);
    [by rewrite app_nil_r|done|lia|lia|].
  assert (run true InputEnd Some y = Some y) as Hend.
  { cbn [run]. by rewrite Hrest. }
  rewrite Hy by (by rewrite Hend). by rewrite Hend.
Qed.

Lemma HD_pattern_extent name :
  test true (Seq (bounded (oneOf ["HD"; "720p"]%string))
                 (NotFollowedBy (Seq (star Space) InputEnd))) name = true →
  ∃ pre w post,
    name = pre ++ w ++ post
    ∧ (toUpperCase w = js "HD" ∨ toUpperCase w = js "720P")
    ∧ ∃ c, c ∈ post ∧ JS.isSpace c = false.
Proof.
  unfold test. intros [m Hexec]%bool_decide_eq_true.
  apply search_matchAt in Hexec as (pre & s & q & -> & Hm).
  unfold matchAt in Hm.
  destruct (run true _ Some _) as [y|] eqn:Hrun; [|done]. clear Hm.
  change (run true (Seq ?a ?b) Some) with (run true a (run true b Some)) in Hrun.
  apply (run_sound true (λ _ _, True)
           (bounded (oneOf ["HD"; "720p"]%string))) in Hrun
    as (x' & w & Hnot & _ & Hrest & _ & Hw); [| |done].
  2:{ unfold bounded, oneOf. cbn [map alts capturesWithin].
      split_and!; try done; apply lit_captures. }
  cbn [rest] in Hrest. exists pre, w, (rest x'). split_and!.
  - by rewrite Hrest.
  - unfold bounded, oneOf in Hw. cbn [map alts consumes] in Hw.
    destruct Hw as (u0 & v0 & -> & -> & u & v1 & -> & Hu & ->).
    simpl. rewrite app_nil_r.
    destruct Hu as [Hu|Hu]; apply lit_consumed_ignoring_case in Hu;
      [by left|by right].
  - cbn [run] in Hnot.
    destruct (existsb (λ c, negb (JS.isSpace c)) (rest x')) eqn:Hex.
    + apply existsb_exists in Hex as (c & Hc%list_elem_of_In & Hspace).
      exists c. split; [done|]. by apply negb_true_iff.
    + assert (Forall (λ c, JS.isSpace c = true) (rest x')) as Hall.
      { apply Forall_forall. intros c Hc.
        destruct (JS.isSpace c) eqn:Hspace; [done|].
        assert (existsb (λ c, negb (JS.isSpace c)) (rest x') = true) as Hyes;
          [|congruence].
        apply existsb_exists. exists c. rewrite <- list_elem_of_In.
        by rewrite Hspace. }
      apply spaces_to_end in Hall as [z Hz]. cbn [run] in Hz.
      by rewrite Hz in Hnot.
Qed.

(** X23. The quality HD is only detected where the mark HD or 720p is
    followed by something else than white space: a mark that ends the title
    is not taken as the quality. *)
Theorem X23_trailing_HD_is_not_a_quality (name : jsstring) :
  quality (parseContentMetadata name) = Some HD →
  ∃ pre w post,
    name = pre ++ w ++ post
    ∧ (toUpperCase w = js "HD" ∨ toUpperCase w = js "720P")
    ∧ ∃ c, c ∈ post ∧ JS.isSpace c = false.
Proof.
  change (quality (parseContentMetadata name)) with (quality (extractFields name)).
  rewrite quality_extractFields.
  destruct (firstMatch QUALITY_PATTERNS name) as [[q p]|] eqn:Hfirst; [|done].
  intros [= ->]. apply firstMatch_Some in Hfirst as (i & Hi & Htest & _).
  apply HD_pattern_extent.
  destruct i as [|[|[|[|i]]]]; simpl in Hi; try done.
  by injection Hi as <-.
Qed.

End TrailingHD.

Lemma X23_witness :
  ∃ pre w post,
    js "TF1 HD (FR)" = pre ++ w ++ post
    ∧ (ContentParser.toUpperCase w = js "HD"
       ∨ ContentParser.toUpperCase w = js "720P")
    ∧ ∃ c, c ∈ post ∧ JS.isSpace c = false.
Proof.
  apply (X23_trailing_HD_is_not_a_quality (js "TF1 HD (FR)")).
  by vm_compute.
Defined.

(** ** The values of the attributes *)

Section Attributes.
Import Regex M3U.

Lemma not_quote_class d :
  classMatches true true [(quote, quote)] d = true → d ≠ quote.
Proof.
  unfold classMatches, inRanges. cbn [existsb fst snd xorb andb].
  intros Hd ->. by vm_compute in Hd.
Qed.

Lemma attribute_captures key :
  capturesWithin true (λ _ w, quote ∉ w) (attributeRegex key).
Proof.
  unfold attributeRegex, star. cbn [seqs capturesWithin].
  split_and!; try done; try apply lit_captures.
  cbn [consumes]. intros w (ws & -> & Hall & _) Hin.
  apply list_elem_of_In, in_concat in Hin as (u & Hu & Hin).
  rewrite Forall_forall in Hall.
  destruct (Hall u) as (d & -> & Hd); [by apply list_elem_of_In|].
  destruct Hin as [Heq|[]]. subst d. by apply not_quote_class in Hd.
Qed.

(** X24. A value that [extractAttribute] reads from the attributes of an
    [#EXTINF] line is never empty, has no white space at either end and
    contains no double quote. *)
Theorem X24_attribute_values (attributes : jsstring) (key : string)
    (v : jsstring) :
  extractAttribute attributes (attributeRegex key) = Some v →
  v ≠ [] ∧ trimmed v ∧ quote ∉ v.
Proof.
  unfold extractAttribute.
  destruct (exec true (attributeRegex key) attributes) as [m|] eqn:Hexec; [|done].
  destruct (capture 1 m) as [w|] eqn:Hw; [|done].
  cbn [fmap option_fmap option_map].
  pose proof (trim_trimmed w) as Htrim.
  assert (quote ∉ JS.trim w) as Hquote.
  { intros Hin%trim_elem.
    by apply (exec_captures true (λ _ w, quote ∉ w) _ _ _ _ _
                (attribute_captures key) Hexec Hw). }
  destruct (JS.trim w) as [|c t]; [done|]. by intros [= <-].
Qed.

End Attributes.

Lemma X24_witness :
  js "News" ≠ [] ∧ trimmed (js "News") ∧ M3U.quote ∉ js "News".
Proof.
  apply (X24_attribute_values
           (js "tvg-id=" ++ [M3U.quote] ++ js "tf1" ++ [M3U.quote]
            ++ js " GROUP-TITLE=" ++ [M3U.quote] ++ js " News "
            ++ [M3U.quote])
           "group-title").
  by vm_compute.
Defined.

(** ** Decoding what base64 encodes *)

Section Base64RoundTrip.
Import Regex Xtream.

Ltac divmod a k :=
  let q := fresh "q" in
  let r := fresh "r" in
  pose proof (N.div_mod a k ltac:(lia));
  pose proof (N.mod_lt a k ltac:(lia));
  set (q := (a / k)%N) in *; set (r := (a mod k)%N) in *; clearbody q r.

Lemma list_ind3 {A} (P : list A → Prop) :
  P [] → (∀ a, P [a]) → (∀ a b, P [a; b]) →
  (∀ a b c l, P l → P (a :: b :: c :: l)) →
  ∀ l, P l.
Proof.
  intros H0 H1 H2 H3 l.
  assert (∀ n (k : list A), (length k ≤ n)%nat → P k) as Hall;
    [|by apply (Hall (length l))].
  induction n as [|n IH]; intros k Hk.
  - destruct k; [done|simpl in Hk; lia].
  - destruct k as [|a [|b [|c k]]]; [done..|].
    apply H3, IH. simpl in Hk. lia.
Qed.

Lemma base64Char_value v :
  (v < 64)%N →
  base64Value (base64Char v) = Some v
  ∧ base64Alphabet (base64Char v) = true
  ∧ base64Char v ≠ 61%N
  ∧ isAsciiWhitespace (base64Char v) = false.
Proof.
  intros Hv.
  assert (v ∈ map N.of_nat (seq 0 64)) as Hin.
  { apply list_elem_of_fmap. exists (N.to_nat v). split; [lia|].
    apply list_elem_of_In, in_seq. lia. }
  vm_compute in Hin.
  repeat (apply elem_of_cons in Hin as [->|Hin]; [by vm_compute|]).
  by apply elem_of_nil in Hin.
Qed.

(** The encoding of octets is a run of sextets followed by padding, and the
    sextets decode to the octets. *)
Lemma base64_shape : ∀ t,
  Forall (λ c, (c < 256)%N) t →
  ∃ vs pad,
    base64 t = map base64Char vs ++ pad
    ∧ Forall (λ v, (v < 64)%N) vs
    ∧ decodeSextets vs = t
    ∧ ((pad = [] ∧ ∃ k, length vs = (4 * k)%nat)
       ∨ (pad = [61%N] ∧ ∃ k, length vs = (4 * k + 3)%nat)
       ∨ (pad = [61%N; 61%N] ∧ ∃ k, length vs = (4 * k + 2)%nat))
    ∧ length (base64 t) = (4 * ((length t + 2) / 3))%nat.
Proof.
  induction t as [|a|a b|a b c t IH] using list_ind3; intros Ht.
  - exists [], []. split_and!; [done|constructor|done| |done].
    left. split; [done|]. by exists 0%nat.
  - apply Forall_cons in Ht as [Ha _].
    exists [a / 4; (a mod 4) * 16]%N, [61; 61]%N.
    split_and!; [done| |simpl; f_equal| |done].
    + divmod a 4%N. repeat constructor; lia.
    + divmod a 4%N. symmetry. apply (N.div_unique _ 16 a 0); lia.
    + right. right. split; [done|]. by exists 0%nat.
  - apply Forall_cons in Ht as [Ha Ht]. apply Forall_cons in Ht as [Hb _].
    exists [a / 4; (a mod 4) * 16 + b / 16; (b mod 16) * 4]%N, [61%N].
    split_and!; [done| | | |done].
    + divmod a 4%N. divmod b 16%N. repeat constructor; lia.
    + cbn [decodeSextets]. cbv zeta. divmod a 4%N. divmod b 16%N.
      match goal with
      | |- [(?n / 4) / 256; _]%N = _ =>
          assert ((n / 4)%N = (a * 256 + b)%N) as ->
      end.
      { symmetry. apply (N.div_unique _ 4 _ 0); lia. }
      f_equal; [|f_equal]; symmetry;
        [apply (N.div_unique _ 256 a b)|apply (N.mod_unique _ 256 a b)]; lia.
    + right. left. split; [done|]. by exists 0%nat.
  - apply Forall_cons in Ht as [Ha Ht]. apply Forall_cons in Ht as [Hb Ht].
    apply Forall_cons in Ht as [Hc Ht].
    destruct (IH Ht) as (vs & pad & Henc & Hvs & Hdec & Hpad & Hlen).
    exists ((a / 4) :: ((a mod 4) * 16 + b / 16) :: ((b mod 16) * 4 + c / 64)
            :: (c mod 64) :: vs)%N, pad.
    split_and!.
    + cbn [base64 map app]. by rewrite Henc.
    + divmod a 4%N. divmod b 16%N. divmod c 64%N.
      repeat (constructor; [lia|]). done.
    + cbn [decodeSextets]. cbv zeta. rewrite Hdec.
      divmod a 4%N. divmod b 16%N. divmod c 64%N.
      match goal with
      | |- (?n / _ :: _)%N = _ =>
          assert (n = (a * 65536 + b * 256 + c)%N) as -> by lia
      end.
      assert (((a * 65536 + b * 256 + c) / 256)%N = (a * 256 + b)%N) as ->.
      { symmetry. apply (N.div_unique _ 256 _ c); lia. }
      f_equal; [|f_equal; [|f_equal]]; symmetry.
      * apply (N.div_unique _ 65536 a (b * 256 + c)); lia.
      * apply (N.mod_unique _ 256 a b); lia.
      * apply (N.mod_unique _ 256 (a * 256 + b) c); lia.
    + cbn [length].
      destruct Hpad as [[-> [k Hk]]|[[-> [k Hk]]|[-> [k Hk]]]];
        [left|right; left|right; right]; (split; [done|]); exists (S k); lia.
    + cbn [base64 length]. rewrite Hlen.
      replace (S (S (S (length t))) + 2)%nat with (1 * 3 + (length t + 2))%nat
        by lia.
      rewrite Nat.div_add_l by lia. lia.
Qed.

Lemma stripPadding_encoded body pad :
  Forall (λ c, c ≠ 61%N) body →
  (pad = [] ∨ pad = [61%N] ∨ pad = [61%N; 61%N]) →
  (length (body ++ pad) mod 4 = 0)%nat →
  stripPadding (body ++ pad) = body.
Proof.
  intros Hbody Hpad Hlen. unfold stripPadding. rewrite Hlen. cbn [Nat.eqb].
  rewrite rev_app_distr.
  assert (∀ a r, rev body = a :: r → (a =? 61)%N = false) as Hlast.
  { intros a r Hrev. apply N.eqb_neq. rewrite Forall_forall in Hbody.
    apply Hbody, list_elem_of_In, in_rev. rewrite Hrev. by left. }
  destruct Hpad as [->|[->| ->]]; simpl.
  - rewrite app_nil_r. destruct (rev body) as [|a [|b r]] eqn:Hrev; [done| |].
    + by rewrite (Hlast a []).
    + rewrite (Hlast a (b :: r)) by done. done.
  - destruct (rev body) as [|b r] eqn:Hrev.
    + by rewrite <- (rev_involutive body), Hrev.
    + rewrite (Hlast b r) by done. simpl.
      change (rev r ++ [b]) with (rev (b :: r)).
      by rewrite <- Hrev, rev_involutive.
  - by rewrite rev_involutive.
Qed.

Lemma atob_base64 t :
  Forall (λ c, (c < 256)%N) t → atob (base64 t) = Some t.
Proof.
  intros (vs & pad & -> & Hvs & <- & Hpad & _)%base64_shape.
  assert (Forall (λ c, c ≠ 61%N) (map base64Char vs)) as Hbody.
  { apply Forall_fmap. eapply Forall_impl; [exact Hvs|].
    intros v Hv. by apply base64Char_value. }
  assert (List.filter (λ c, negb (isAsciiWhitespace c)) (map base64Char vs ++ pad)
          = map base64Char vs ++ pad) as Hfilter.
  { rewrite List.filter_app. f_equal.
    - clear Hbody Hpad. induction Hvs as [|v vs Hv _ IH]; simpl; [done|].
      destruct (base64Char_value v Hv) as (_ & _ & _ & ->). simpl. by rewrite IH.
    - by destruct Hpad as [[-> _]|[[-> _]|[-> _]]]. }
  assert (mapM base64Value (map base64Char vs) = Some vs) as Hvalues.
  { clear Hbody Hpad Hfilter. induction Hvs as [|v vs Hv _ IH]; [done|].
    cbn [map mapM]. destruct (base64Char_value v Hv) as (-> & _).
    cbn [mbind option_bind]. by rewrite IH. }
  unfold atob. cbv zeta. rewrite Hfilter.
  rewrite stripPadding_encoded; [| done | |].
  - rewrite length_map.
    assert (Nat.eqb (length vs mod 4) 1 = false) as ->.
    { apply Nat.eqb_neq.
      destruct Hpad as [[_ [k ->]]|[[_ [k ->]]|[_ [k ->]]]].
      - rewrite Nat.mul_comm, Nat.Div0.mod_mul. lia.
      - rewrite Nat.add_comm, Nat.mul_comm, Nat.Div0.mod_add. by compute.
      - rewrite Nat.add_comm, Nat.mul_comm, Nat.Div0.mod_add. by compute. }
    by rewrite Hvalues.
  - destruct Hpad as [[-> _]|[[-> _]|[-> _]]]; auto.
  - rewrite length_app, length_map.
    destruct Hpad as [[-> [k ->]]|[[-> [k ->]]|[-> [k ->]]]]; simpl length.
    + rewrite Nat.add_0_r, Nat.mul_comm. apply Nat.Div0.mod_mul.
    + replace (4 * k + 3 + 1)%nat with ((k + 1) * 4)%nat by lia.
      apply Nat.Div0.mod_mul.
    + replace (4 * k + 2 + 2)%nat with ((k + 1) * 4)%nat by lia.
      apply Nat.Div0.mod_mul.
Qed.

Lemma base64_alphabet t :
  Forall (λ c, (c < 256)%N) t →
  Forall (λ c, base64Alphabet c = true) (base64 t).
Proof.
  intros (vs & pad & -> & Hvs & _ & Hpad & _)%base64_shape.
  apply Forall_app. split.
  - apply Forall_fmap. eapply Forall_impl; [exact Hvs|].
    intros v Hv. by apply base64Char_value.
  - destruct Hpad as [[-> _]|[[-> _]|[-> _]]]; by repeat constructor.
Qed.

Lemma hexValue_hexDigit n : (n < 16)%N → hexValue (hexDigit n) = Some n.
Proof.
  intros Hn.
  assert (n ∈ map N.of_nat (seq 0 16)) as Hin.
  { apply list_elem_of_fmap. exists (N.to_nat n). split; [lia|].
    apply list_elem_of_In, in_seq. lia. }
  vm_compute in Hin.
  repeat (apply elem_of_cons in Hin as [->|Hin]; [by vm_compute|]).
  by apply elem_of_nil in Hin.
Qed.

(** [escape] followed by [decodeURIComponent] gives back a text in ASCII. *)
Lemma decode_escape_ascii t : ∀ fuel,
  Forall (λ c, (c < 128)%N) t →
  (length (escape t) < fuel)%nat →
  decodeFrom fuel (escape t) = Some t.
Proof.
  induction t as [|c t IH]; intros fuel Ht Hfuel.
  - destruct fuel; [simpl in Hfuel; lia|done].
  - apply Forall_cons in Ht as [Hc Ht].
    destruct fuel as [|fuel]; [lia|].
    change (escape (c :: t)) with (escapeUnit c ++ escape t) in *.
    rewrite length_app in Hfuel. unfold escapeUnit in *.
    destruct (escapeUnreserved c) eqn:Hun.
    + cbn [app decodeFrom]. cbn [length] in Hfuel.
      assert ((c =? code "%")%N = false) as ->.
      { apply N.eqb_neq. intros ->. by vm_compute in Hun. }
      rewrite IH; [done|done|lia].
    + assert ((c <? 256)%N = true) as Hlt by (apply N.ltb_lt; lia).
      rewrite Hlt in *. cbn [app decodeFrom hexOctet]. cbn [length] in Hfuel.
      rewrite N.eqb_refl.
      rewrite !hexValue_hexDigit
        by first [apply N.mod_lt; lia|apply N.Div0.div_lt_upper_bound; lia].
      cbn [mbind option_bind].
      assert ((16 * (c / 16) + c mod 16)%N = c) as ->
        by (symmetry; apply N.div_mod; lia).
      assert ((c <? 128)%N = true) as -> by (by apply N.ltb_lt).
      rewrite IH; [done|done|lia].
Qed.

Lemma decodeText_checked text t : decodesTo text t → decodeText text = t.
Proof.
  unfold decodeText, tryDecode.
  intros (Halpha & Hlen & decoded & Hatob & Hctl & Hutf).
  assert (text ≠ []) as Hne by (destruct text; [simpl in Hlen; lia|done]).
  assert (nonEmpty text = true) as -> by (by destruct text).
  assert (test false BASE64_TEXT text = true) as ->
    by (by apply test_BASE64_TEXT).
  assert (Nat.ltb 4 (length text) = true) as -> by (by apply Nat.ltb_lt).
  cbn [andb]. rewrite Hatob. cbn [mbind option_bind].
  rewrite test_CONTROL.
  apply existsb_isControl_false in Hctl. rewrite Hctl. cbn [negb].
  by rewrite Hutf.
Qed.

(** X25. The decoding step of [getShortEpg] inverts the standard base64
    encoding on plain ASCII texts of four characters or more.  A shorter
    text is encoded in four characters or fewer, which the length check
    rejects: it is shown encoded. *)
Theorem X25_decoding_inverts_base64 (t : jsstring) :
  plainAscii t →
  ((4 ≤ length t)%nat → decodeText (base64 t) = t)
  ∧ ((length t ≤ 3)%nat → decodeText (base64 t) = base64 t).
Proof.
  intros Ht.
  assert (Forall (λ c, (c < 256)%N) t) as Hoctets.
  { eapply Forall_impl; [exact Ht|]. intros c [Hc _]. lia. }
  destruct (base64_shape t Hoctets) as (_ & _ & _ & _ & _ & _ & Hlen).
  split.
  - intros Hlong. apply decodeText_checked. split_and!.
    + by apply base64_alphabet.
    + rewrite Hlen.
      assert (2 ≤ (length t + 2) / 3)%nat; [|lia].
      apply Nat.div_le_lower_bound; lia.
    + exists t. split_and!.
      * by apply atob_base64.
      * eapply Forall_impl; [exact Ht|]. by intros c [_ Hc].
      * apply decode_escape_ascii; [|lia].
        eapply Forall_impl; [exact Ht|]. by intros c [Hc _].
  - intros Hshort. unfold decodeText, tryDecode.
    assert (Nat.ltb 4 (length (base64 t)) = false) as ->.
    { apply Nat.ltb_ge. rewrite Hlen.
      assert ((length t + 2) / 3 ≤ 1)%nat; [|lia].
      destruct t as [|? [|? [|? [|? ?]]]]; simpl in *; try lia; by compute. }
    by rewrite andb_false_r.
Qed.

End Base64RoundTrip.

Lemma X25_witness : Xtream.decodeText (base64 (js "Journal")) = js "Journal".
Proof.
  apply (X25_decoding_inverts_base64 (js "Journal")).
  - vm_compute. repeat constructor.
  - simpl. lia.
Defined.

(** ** Line ends *)

Section LineEnds.
Import M3U.
Context `{Host}.
Variable localeCompare : jsstring → jsstring → Z.

Lemma splitLines_line l : ∀ cur,
  oneLine l →
  splitLines cur l = [rev cur ++ l]
  ∧ (∀ more, splitLines cur (l ++ 10%N :: more)
             = (rev cur ++ l) :: splitLines [] more)
  ∧ (∀ more, splitLines cur (l ++ 13%N :: 10%N :: more)
             = (rev cur ++ l) :: splitLines [] more).
Proof.
  induction l as [|c l IH]; intros cur [Hlf Hcr].
  - rewrite app_nil_r. split_and!; done.
  - apply not_elem_of_cons in Hlf as [Hc10 Hlf].
    apply not_elem_of_cons in Hcr as [Hc13 Hcr].
    destruct (IH (c :: cur) (conj Hlf Hcr)) as (IH1 & IH2 & IH3).
    assert ((c =? 10)%N = false) as H10 by (apply N.eqb_neq; congruence).
    assert ((c =? 13)%N = false) as H13 by (apply N.eqb_neq; congruence).
    assert (rev (c :: cur) ++ l = rev cur ++ c :: l) as Hrev
      by (simpl; by rewrite <- app_assoc).
    rewrite Hrev in IH1, IH2, IH3.
    split_and!.
    + cbn [splitLines]. rewrite H10, H13. cbn [andb]. by destruct l.
    + intros more. cbn [app splitLines]. rewrite H10, H13. cbn [andb].
      rewrite <- IH2. by destruct l.
    + intros more. cbn [app splitLines]. rewrite H10, H13. cbn [andb].
      rewrite <- IH3. by destruct l.
Qed.

Lemma splitLines_joinLines lines :
  lines ≠ [] → Forall oneLine lines →
  splitLines [] (joinLines lines) = lines
  ∧ splitLines [] (joinLinesCRLF lines) = lines.
Proof.
  intros Hne Hlines. induction Hlines as [|l lines Hl Hlines IH]; [done|].
  destruct (splitLines_line l [] Hl) as (H1 & H2 & H3). simpl in H1, H2, H3.
  destruct lines as [|l' lines]; [done|].
  destruct IH as [IH1 IH2]; [done|].
  change (joinLines (l :: l' :: lines))
    with (l ++ 10%N :: joinLines (l' :: lines)).
  change (joinLinesCRLF (l :: l' :: lines))
    with (l ++ 13%N :: 10%N :: joinLinesCRLF (l' :: lines)).
  by rewrite H2, H3, IH1, IH2.
Qed.

(** X26. A playlist reads the same with Windows and with Unix line ends:
    the text is split back into the lines it was joined from, whether they
    were joined by a line feed or by a carriage return and a line feed, so
    [parseM3U] returns the same playlist for both. *)
Theorem X26_line_ends_do_not_matter (t0 t1 : Z) (lines : list jsstring)
    (sourceName : jsstring) :
  lines ≠ [] → Forall oneLine lines →
  splitLines [] (joinLines lines) = lines
  ∧ splitLines [] (joinLinesCRLF lines) = lines
  ∧ parseM3U localeCompare t0 t1 (joinLinesCRLF lines) sourceName
    = parseM3U localeCompare t0 t1 (joinLines lines) sourceName.
Proof.
  intros Hne Hlines.
  destruct (splitLines_joinLines lines Hne Hlines) as [Hlf Hcrlf].
  split_and!; [done|done|]. unfold parseM3U. by rewrite Hlf, Hcrlf.
Qed.

End LineEnds.

Lemma X26_witness :
  M3U.splitLines [] (joinLinesCRLF samplePlaylist) = samplePlaylist.
Proof.
  apply (@X26_line_ends_do_not_matter asciiHost (λ _ _, 0%Z) 0 0
           samplePlaylist (js "P")).
  - done.
  - unfold samplePlaylist. cbn [map].
    repeat (constructor;
            [split; apply (bool_decide_unpack _); by vm_compute|]).
    constructor.
Defined.

(** ** The variants of a deduplicated group *)

Section GroupVariants.
Import ContentParser QualitySelection Deduplicator.
Context `{Host}.

Lemma toVariant_tags ch :
  v_quality (toVariant ch) ≠ Some QAuto
  ∧ (∀ l, v_language (toVariant ch) = Some l →
          l ∈ map js ["MULTI"; "VFF"; "VF"; "TRUEFRENCH"; "VOSTFR"; "VO"]%string).
Proof.
  unfold toVariant. cbn [v_quality v_language]. split.
  - intros Hq%quality_known.
    repeat (apply elem_of_cons in Hq as [[=]|Hq]). by apply elem_of_nil in Hq.
  - apply language_known.
Qed.

Lemma inOrder_variants type matching keyOf channels result g :
  inOrderOfFirstOccurrence type matching keyOf channels result →
  g ∈ result →
  ∃ first others, variants g = map toVariant (first :: others).
Proof.
  intros Hresult Hg. apply list_elem_of_lookup_1 in Hg as [i Hi].
  destruct (Forall2_lookup_l _ _ _ _ _ Hresult Hi)
    as (key & _ & first & others & _ & _ & _ & _ & _ & _ & _ & Hvariants).
  eauto.
Qed.

(** X27. In a group returned by one of the three deduplication functions
    there is at least one variant, no variant carries the quality auto and
    every language tag is one of the six known tags; on such a group the
    preferences 4K and auto select the same variant. *)
Theorem X27_groups_have_tagged_variants (channels : list Channel)
    (g : DeduplicatedContent) :
  g ∈ deduplicateChannels channels ∨ g ∈ deduplicateMovies channels
  ∨ g ∈ deduplicateSeries channels →
  variants g ≠ []
  ∧ (∀ v, v ∈ variants g →
       v_quality v ≠ Some QAuto
       ∧ ∀ l, v_language v = Some l →
              l ∈ map js ["MULTI"; "VFF"; "VF"; "TRUEFRENCH"; "VOSTFR";
                          "VO"]%string)
  ∧ selectBestQuality (variants g) Q4K = selectBestQuality (variants g) QAuto.
Proof.
  intros Hg.
  assert (∃ first others, variants g = map toVariant (first :: others))
    as (first & others & Hvariants).
  { destruct Hg as [Hg|[Hg|Hg]].
    - by eapply inOrder_variants; [apply channels_represented|].
    - by eapply inOrder_variants;
        [apply (grouped_represented TMovie isVod
                  (λ ch, getContentKey (name ch) TMovie))|].
    - by eapply inOrder_variants;
        [apply (grouped_represented TSeries isSeries
                  (λ ch, getContentKey (name ch) TSeries))|]. }
  assert (∀ v, v ∈ variants g →
            v_quality v ≠ Some QAuto
            ∧ ∀ l, v_language v = Some l →
                   l ∈ map js ["MULTI"; "VFF"; "VF"; "TRUEFRENCH"; "VOSTFR";
                               "VO"]%string) as Htags.
  { rewrite Hvariants. intros v (ch & -> & _)%list_elem_of_fmap.
    apply toVariant_tags. }
  split_and!; [by rewrite Hvariants|done|].
  apply best_and_auto_agree; [by rewrite Hvariants|]. intros w Hw.
  by apply Htags.
Qed.

End GroupVariants.

Lemma X27_witness :
  QualitySelection.selectBestQuality
    [Deduplicator.toVariant (sampleRecord "1" "FR: TF1 FHD" true Live);
     Deduplicator.toVariant (sampleRecord "3" "fr | TF1" true Live)] Q4K
  = QualitySelection.selectBestQuality
      [Deduplicator.toVariant (sampleRecord "1" "FR: TF1 FHD" true Live);
       Deduplicator.toVariant (sampleRecord "3" "fr | TF1" true Live)] QAuto.
Proof.
  apply (@X27_groups_have_tagged_variants asciiHost
           [sampleRecord "1" "FR: TF1 FHD" true Live;
            sampleRecord "2" "Film" false Vod;
            sampleRecord "3" "fr | TF1" true Live]
           {| d_id := js "1"; d_name := js "TF1"; d_logo := None;
              d_group := Some (js "News"); d_type := TChannel;
              d_metadata :=
                ContentParser.parseContentMetadata (js "FR: TF1 FHD");
              variants :=
                [Deduplicator.toVariant (sampleRecord "1" "FR: TF1 FHD" true Live);
                 Deduplicator.toVariant (sampleRecord "3" "fr | TF1" true Live)] |}).
  left. vm_compute. by left.
Defined.

(** ** Examples *)

Lemma X4_witness :
  @ContentParser.getContentKey asciiHost (js "Dune (1984)") TMovie
  ≠ @ContentParser.getContentKey asciiHost (js "Dune (2021)") TMovie.
Proof.
  intros Hkey.
  apply (proj1 (proj2 (@X4_movie_key_separates_years asciiHost))) in Hkey;
    by vm_compute in Hkey || by vm_compute.
Defined.

Lemma X7_witness :
  js "Sports"
  ∈ ContentParser.extractUniqueCategories
      [Some (js "| News |"); None; Some (js "Sports")].
Proof.
  apply (X7_unique_categories_sorted
           [Some (js "| News |"); None; Some (js "Sports")]).
  - apply (bool_decide_unpack _). by vm_compute.
  - done.
  - intros c [Hc|Hc]; vm_compute in Hc; injection Hc as <-; by vm_compute.
Defined.

Lemma X9_witness :
  @Deduplicator.filterContentByPreferences asciiHost
    [sampleChannel []; sampleFilm []] (samplePreferences FHD)
  = [sampleChannel []; sampleFilm []].
Proof.
  by apply (@X9_filter_by_preferences asciiHost
              [sampleChannel []; sampleFilm []] (samplePreferences FHD)).
Defined.
